(** * WebGPU Game of Life: a shallow embedding of the two programs

    The repository holds two variants of the "first WebGPU app":
    - the simulated variant (a 64x64 Game of Life: a compute shader that
      advances the cells, a vertex/fragment shader that draws them, and a
      JavaScript frame driver that ping-pongs two storage buffers);
    - [run.js], the static variant, which only draws a 32x32 grid.

    The WGSL shaders are embedded as Rocq functions over the data they
    read: [u32] values are integers with their 2^32 wrap-around written
    out, [f32] values are IEEE-754 binary32 numbers ([spec_float] with
    a 24 bit significand, round to nearest even), storage buffers are lists
    updated by index.  The JavaScript host code is embedded as functions on
    an explicit program state. *)

From Stdlib Require Import ZArith Lia Bool List SpecFloat.
From stdpp Require Import base tactics option list list_numbers.

Local Open Scope Z_scope.

(** ** Unsigned 32 bit integers (WGSL [u32]) *)

Module U32.

Definition modulus : Z := 2 ^ 32.
Definition max : Z := modulus - 1.

Definition wrap (z : Z) : Z := z mod modulus.

Definition add (a b : Z) : Z := wrap (a + b).
Definition sub (a b : Z) : Z := wrap (a - b).
Definition mul (a b : Z) : Z := wrap (a * b).

(** WGSL [e1 % e2] on [u32]; a zero divisor evaluates to 0 at run time. *)
Definition rem (a b : Z) : Z := if b =? 0 then 0 else a mod b.

End U32.

(** ** Binary32 floating point (WGSL [f32]) *)

Module F32.

Definition prec : Z := 24.
Definition emax : Z := 128.

Definition f32 : Type := spec_float.

(** The four operations, each correctly rounded to the nearest [f32],
    ties to even.  WGSL asks this of [+], [-] and [*]; of [/] it only
    bounds the error (2.5 units in the last place), so that a device may
    for instance multiply by the reciprocal of the divisor.  [div] is the
    quotient of a device that divides as IEEE-754 does.  The theorems on
    the value of a quotient of the shaders are stated for divisors that
    are powers of two, the grids of the two pages among them: there the
    quotient is exact, and multiplying by the reciprocal gives the same
    number ([quotient_pow2]), which with another divisor it need not
    ([reciprocal_quotient_41]). *)
Definition add : f32 -> f32 -> f32 := SFadd prec emax.
Definition sub : f32 -> f32 -> f32 := SFsub prec emax.
Definition mul : f32 -> f32 -> f32 := SFmul prec emax.
Definition div : f32 -> f32 -> f32 := SFdiv prec emax.

(** An integer as the nearest [f32]: the conversion [f32(e)] of a [u32]
    and the value of an integer literal used as an [f32]. *)
Definition of_Z (z : Z) : f32 := binary_normalize prec emax z 0 false.

(** A decimal literal [n/d] (such as 0.8 = 8/10), correctly rounded. *)
Definition of_ratio (n d : Z) : f32 := div (of_Z n) (of_Z d).

(** A JavaScript number stored in a [Float32Array]: the binary64 number
    rounded to binary32. *)
Definition of_f64 (x : spec_float) : f32 :=
  match x with
  | S754_finite s m e => binary_round prec emax s m e
  | _ => x
  end.

(** The integer part of a finite float, rounded towards minus infinity
    (a shift by a negative exponent floors) and towards zero. *)
Definition floorZ (s : bool) (m : positive) (e : Z) : Z :=
  Z.shiftl (cond_Zopp s (Zpos m)) e.
Definition truncZ (s : bool) (m : positive) (e : Z) : Z :=
  cond_Zopp s (Z.shiftl (Zpos m) e).

(** WGSL [floor] and [trunc]: the integer part as a float, which it always
    is exactly; a zero result keeps the sign of the operand. *)
Definition floor (x : f32) : f32 :=
  match x with
  | S754_finite s m e => binary_normalize prec emax (floorZ s m e) 0 s
  | _ => x
  end.
Definition trunc (x : f32) : f32 :=
  match x with
  | S754_finite s m e => binary_normalize prec emax (truncZ s m e) 0 s
  | _ => x
  end.

(** WGSL [e1 % e2] on floats is [e1 - e2 * trunc(e1 / e2)]. *)
Definition rem (a b : f32) : f32 := sub a (mul b (trunc (div a b))).

(** The conversion [u32(e)]: towards zero, clamped to the range of [u32];
    a NaN converts to 0. *)
Definition to_u32 (x : f32) : Z :=
  match x with
  | S754_zero _ => 0
  | S754_nan => 0
  | S754_infinity s => if s then 0 else U32.max
  | S754_finite s m e => if s then 0 else Z.min U32.max (truncZ false m e)
  end.

End F32.

Abbreviation f32 := F32.f32.

(** ** Binary64 floating point (JavaScript numbers that are not integers) *)

Module F64.

Definition prec : Z := 53.
Definition emax : Z := 1024.

Definition f64 : Type := spec_float.

Definition of_Z (z : Z) : f64 := binary_normalize prec emax z 0 false.
Definition of_ratio (n d : Z) : f64 :=
  SFdiv prec emax (of_Z n) (of_Z d).

(** [a > b]; false when either side is a NaN. *)
Definition gt (a b : f64) : bool := SFltb b a.

End F64.

(** ** WGSL vectors *)

Record vec2 (A : Type) : Type := Vec2 { vx : A; vy : A }.
Record vec3 (A : Type) : Type := Vec3 { x3 : A; y3 : A; z3 : A }.
Record vec4 (A : Type) : Type := Vec4 { x4 : A; y4 : A; z4 : A; w4 : A }.
Arguments Vec2 {A} _ _.
Arguments vx {A} _.
Arguments vy {A} _.
Arguments Vec3 {A} _ _ _.
Arguments x3 {A} _.
Arguments y3 {A} _.
Arguments z3 {A} _.
Arguments Vec4 {A} _ _ _ _.
Arguments x4 {A} _.
Arguments y4 {A} _.
Arguments z4 {A} _.
Arguments w4 {A} _.

Abbreviation vec2f := (vec2 f32).
Abbreviation vec2u := (vec2 Z).
Abbreviation vec3u := (vec3 Z).
Abbreviation vec4f := (vec4 f32).

(** The swizzle [cell.xy]. *)
Definition xy {A} (v : vec3 A) : vec2 A := Vec2 (x3 v) (y3 v).

(** Component-wise arithmetic on [vec2f]; in [|+|], [|-|] and [|*|] the right
    operand is a scalar, used for both components. *)
Definition vmap2 {A} (f : A -> A -> A) (a b : vec2 A) : vec2 A :=
  Vec2 (f (vx a) (vx b)) (f (vy a) (vy b)).
Definition vscal {A} (f : A -> A -> A) (a : vec2 A) (s : A) : vec2 A :=
  Vec2 (f (vx a) s) (f (vy a) s).

Declare Scope wgsl_scope.
Delimit Scope wgsl_scope with wgsl.
Infix "+" := (vmap2 F32.add) : wgsl_scope.
Infix "/" := (vmap2 F32.div) : wgsl_scope.
Infix "|+|" := (vscal F32.add) (at level 50, left associativity) : wgsl_scope.
Infix "|-|" := (vscal F32.sub) (at level 50, left associativity) : wgsl_scope.
Infix "|*|" := (vscal F32.mul) (at level 40, left associativity) : wgsl_scope.

(** The input and the output of a vertex shader invocation. *)
Record VertexInput : Type :=
  { pos : vec2f;          (* @location(0) *)
    instance : Z }.       (* @builtin(instance_index) *)
Record VertexOutput : Type :=
  { position : vec4f;     (* @builtin(position) pos *)
    cell : vec2f }.       (* @location(0) *)

(** ** Storage buffers: [array<u32>] *)

Abbreviation buffer := (list Z).

(** A read outside the buffer yields 0 and a write outside it is dropped;
    the shaders below only use indices inside their buffers. *)
Definition load (b : buffer) (i : Z) : Z := default 0 (b !! Z.to_nat i).
Definition store (b : buffer) (i v : Z) : buffer := <[Z.to_nat i := v]> b.

(** ** The simulated variant *)

Module Life.

Definition GRID_SIZE : Z := 64.
Definition WORKGROUP_SIZE : Z := 8.

(** The six vertices of the two triangles, as the [Float32Array] holds
    them: the numbers 0.8 and -0.8 of the script, rounded to [f32]. *)
Definition vertices : list vec2f :=
  let p := F32.of_f64 (F64.of_ratio 8 10) in
  let n := F32.of_f64 (F64.of_ratio (-8) 10) in
  [ Vec2 n n; Vec2 p n; Vec2 p p;
    Vec2 n n; Vec2 p p; Vec2 n p ].

(** *** The cell shader *)

Section CellShader.

(** [@group(0) @binding(0) var<uniform> grid: vec2f] and
    [@group(0) @binding(1) var<storage> cell_state: array<u32>]. *)
Variable grid : vec2f.
Variable cell_state : buffer.

Definition vertexMain (input : VertexInput) : VertexOutput :=
  let i := F32.of_Z (instance input) in
  let cell := Vec2 (F32.rem i (vx grid)) (F32.floor (F32.div i (vx grid))) in
  let cell_offset := (cell / grid |*| F32.of_Z 2)%wgsl in
  let curr_state := F32.of_Z (load cell_state (instance input)) in
  let grid_pos :=
    ((pos input |*| curr_state |+| F32.of_Z 1) / grid |-| F32.of_Z 1
     + cell_offset)%wgsl in
  {| position := Vec4 (vx grid_pos) (vy grid_pos) (F32.of_Z 0) (F32.of_Z 1);
     cell := cell |}.

Definition fragmentMain (input : VertexOutput) : vec4f :=
  let c := (cell input / grid)%wgsl in
  Vec4 (vx c) (vy c) (F32.sub (F32.of_Z 1) (vx c)) (F32.of_Z 1).

End CellShader.

(** *** The simulation shader *)

Section SimulationShader.

(** [@group(0) @binding(0) var<uniform> grid: vec2f] and
    [@group(0) @binding(1) var<storage> cellStateIn: array<u32>]. *)
Variable grid : vec2f.
Variable cellStateIn : buffer.

Definition cellIndex (cell : vec2u) : Z :=
  U32.add
    (U32.mul (U32.rem (vy cell) (F32.to_u32 (vy grid)))
             (F32.to_u32 (vx grid)))
    (U32.rem (vx cell) (F32.to_u32 (vx grid))).

Definition cellActive (x y : Z) : Z :=
  load cellStateIn (cellIndex (Vec2 x y)).

(** The sum that [computeMain] binds to [activeNeighbors]; [+] and [-]
    are the wrapping operations of [u32]. *)
Definition activeNeighbors (cell : vec3u) : Z :=
  let x := x3 cell in
  let y := y3 cell in
  U32.add (U32.add (U32.add (U32.add (U32.add (U32.add (U32.add
    (cellActive (U32.add x 1) (U32.add y 1))
    (cellActive (U32.add x 1) y))
    (cellActive (U32.add x 1) (U32.sub y 1)))
    (cellActive x (U32.sub y 1)))
    (cellActive (U32.sub x 1) (U32.sub y 1)))
    (cellActive (U32.sub x 1) y))
    (cellActive (U32.sub x 1) (U32.add y 1)))
    (cellActive x (U32.add y 1)).

(** One invocation; the third binding, [cellStateOut], is threaded
    through.  A WGSL [switch] runs exactly one clause. *)
Definition computeMain (cell : vec3u) (cellStateOut : buffer) : buffer :=
  let i := cellIndex (xy cell) in
  match activeNeighbors cell with
  | 2 => store cellStateOut i (load cellStateIn i)
  | 3 => store cellStateOut i 1
  | _ => store cellStateOut i 0
  end.

(** A dispatch runs one invocation per id, in an order the GPU picks;
    [ids] is that order. *)
Definition run_invocations (ids : list vec3u) (cellStateOut : buffer)
  : buffer :=
  foldl (fun out cell => computeMain cell out) cellStateOut ids.

End SimulationShader.

(** The ids of [dispatchWorkgroups(nx, ny)] for workgroups of
    [wg] x [wg] invocations, row by row. *)
Definition invocation_ids (wg nx ny : Z) : list vec3u :=
  flat_map (fun y => map (fun x => Vec3 x y 0) (seqZ 0 (nx * wg)))
           (seqZ 0 (ny * wg)).

(** *** The device *)

(** A bind group holds the grid uniform and names its two storage
    buffers by their position in [cellStateStorage]: the buffers are
    shared, not copied. *)
Record bind_group : Type :=
  { binding0 : vec2f;
    binding1 : nat;
    binding2 : nat }.

(** The two passes that [render] encodes, with what was set on them. *)
Inductive command : Type :=
| ComputePass (bindGroup : bind_group) (workgroupCountX workgroupCountY : Z)
| RenderPass (bindGroup : bind_group) (vertexCount instanceCount : Z).

(** The memory of the device: the storage buffers, and what the vertex
    stage produced for the canvas in the last render pass. *)
Record gpu : Type :=
  { storage : list buffer;
    canvas : list VertexOutput }.

Definition buffer_at (mem : list buffer) (k : nat) : buffer :=
  default [] (mem !! k).

(** One invocation of [computeMain] on the shared memory: it reads the
    buffer bound at 1 and writes the buffer bound at 2, as they are when
    it runs. *)
Definition invoke (bg : bind_group) (mem : list buffer) (cell : vec3u)
  : list buffer :=
  <[binding2 bg :=
      computeMain (binding0 bg) (buffer_at mem (binding1 bg)) cell
                  (buffer_at mem (binding2 bg))]> mem.

(** The vertex stage of [draw(vertexCount, instanceCount)]. *)
Definition draw (bg : bind_group) (mem : list buffer)
    (vertexCount instanceCount : Z) : list VertexOutput :=
  flat_map
    (fun inst =>
       map (fun v => vertexMain (binding0 bg) (buffer_at mem (binding1 bg))
                       {| pos := v; instance := inst |})
           (take (Z.to_nat vertexCount) vertices))
    (seqZ 0 instanceCount).

(** Running one encoded pass; [ids] is the order in which the device
    runs the invocations of a dispatch. *)
Definition exec (ids : list vec3u) (g : gpu) (c : command) : gpu :=
  match c with
  | ComputePass bg _ _ =>
      {| storage := foldl (invoke bg) (storage g) ids;
         canvas := canvas g |}
  | RenderPass bg vertexCount instanceCount =>
      {| storage := storage g;
         canvas := draw bg (storage g) vertexCount instanceCount |}
  end.

(** [device.queue.submit]: the passes run in the order of encoding. *)
Definition submit (ids : list vec3u) (cmds : list command) (g : gpu) : gpu :=
  foldl (exec ids) g cmds.

(** *** The host program *)

(** The state of the page: how many times [Math.random] was called, the
    global [step], and the device. *)
Record state : Type :=
  { random_calls : nat;
    step : Z;
    device : gpu }.

Section Host.

(** The host code for any value [gridSize] of the constant [GRID_SIZE],
    and the numbers that the successive calls of [Math.random()]
    return. *)
Variable gridSize : Z.
Variable random : nat -> F64.f64.

Definition uniformArray : vec2f :=
  Vec2 (F32.of_Z gridSize) (F32.of_Z gridSize).

(** [new Uint32Array(n)] and [device.createBuffer] of as many bytes:
    both start zeroed. *)
Definition zeroed (n : Z) : buffer := replicate (Z.to_nat n) 0.

(** [device.queue.writeBuffer(buffer, 0, data)]. *)
Definition writeBuffer (b data : buffer) : buffer :=
  take (length b) (data ++ drop (length data) b).

(** The loop [for (let i = 0; i < cellStateArray.length; ++i)], with [n]
    iterations left at index [i]. *)
Fixpoint seed_loop (n : nat) (i : Z) (calls : nat) (cellStateArray : buffer)
  : nat * buffer :=
  match n with
  | O => (calls, cellStateArray)
  | S n' =>
      let r := random calls in
      seed_loop n' (i + 1) (S calls)
        (store cellStateArray i
           (if F64.gt r (F64.of_ratio 6 10) then 1 else 0))
  end.

Definition bindGroups : list bind_group :=
  [ {| binding0 := uniformArray; binding1 := 0%nat; binding2 := 1%nat |};
    {| binding0 := uniformArray; binding1 := 1%nat; binding2 := 0%nat |} ].

Definition bindGroup_at (k : Z) : bind_group :=
  nth (Z.to_nat k) bindGroups
      {| binding0 := uniformArray; binding1 := 0%nat; binding2 := 0%nat |}.

(** Everything the script does before [setInterval]. *)
Definition startup : state :=
  let cellStateArray := zeroed (gridSize * gridSize) in
  let cellStateStorage :=
    [ zeroed (gridSize * gridSize); zeroed (gridSize * gridSize) ] in
  let '(calls, cellStateArray) :=
    seed_loop (length cellStateArray) 0 0%nat cellStateArray in
  let cellStateStorage :=
    <[0%nat := writeBuffer (buffer_at cellStateStorage 0) cellStateArray]>
      cellStateStorage in
  {| random_calls := calls;
     step := 0;
     device := {| storage := cellStateStorage; canvas := [] |} |}.

(** [Math.ceil(GRID_SIZE / WORKGROUP_SIZE)]. *)
Definition workgroupCount : Z := - (- gridSize / WORKGROUP_SIZE).

(** What one call of [render] encodes from the value of [step] it finds,
    and the value it leaves in [step].  The counter is an integer: a
    JavaScript number counts exactly up to 2^53, over a million years of
    ticks at one tick every 66.66 ms. *)
Definition encode (step : Z) : list command * Z :=
  let computePass :=
    ComputePass (bindGroup_at (step mod 2)) workgroupCount workgroupCount in
  let step := step + 1 in
  let pass :=
    RenderPass (bindGroup_at (step mod 2))
               (2 * Z.of_nat (length vertices) / 2)
               (gridSize * gridSize) in
  ([computePass; pass], step).

(** One call of [render], the device running the dispatch in order
    [ids]. *)
Definition render (ids : list vec3u) (st : state) : state :=
  let '(cmds, step') := encode (step st) in
  {| random_calls := random_calls st;
     step := step';
     device := submit ids cmds (device st) |}.

(** The page after [setInterval] has fired once per element of
    [schedule]. *)
Definition run (schedule : list (list vec3u)) : state :=
  foldl (fun st ids => render ids st) startup schedule.

(** The orders the device may pick for the dispatch of [render]. *)
Definition dispatch_order (ids : list vec3u) : Prop :=
  Permutation ids
    (invocation_ids WORKGROUP_SIZE workgroupCount workgroupCount).

End Host.

End Life.

(** ** The static variant, [run.js] *)

Module Run.

Definition GRID_SIZE : Z := 32.

Definition vertices : list vec2f :=
  let p := F32.of_f64 (F64.of_ratio 8 10) in
  let n := F32.of_f64 (F64.of_ratio (-8) 10) in
  [ Vec2 n n; Vec2 p n; Vec2 p p;
    Vec2 n n; Vec2 p p; Vec2 n p ].

Definition uniformArray : vec2f :=
  Vec2 (F32.of_Z GRID_SIZE) (F32.of_Z GRID_SIZE).

Section CellShader.

(** [@group(0) @binding(0) var<uniform> grid: vec2f]. *)
Variable grid : vec2f.

Definition vertexMain (input : VertexInput) : VertexOutput :=
  let i := F32.of_Z (instance input) in
  let cell := Vec2 (F32.rem i (vx grid)) (F32.floor (F32.div i (vx grid))) in
  let cell_offset := (cell / grid |*| F32.of_Z 2)%wgsl in
  let grid_pos :=
    ((pos input |+| F32.of_Z 1) / grid |-| F32.of_Z 1 + cell_offset)%wgsl in
  {| position := Vec4 (vx grid_pos) (vy grid_pos) (F32.of_Z 0) (F32.of_Z 1);
     cell := cell |}.

Definition fragmentMain (input : VertexOutput) : vec4f :=
  let c := (cell input / grid)%wgsl in
  Vec4 (vx c) (vy c) (F32.sub (F32.of_Z 1) (vx c)) (F32.of_Z 1).

End CellShader.

(** The vertex stage of the single [pass.draw(vertices.length / 2,
    GRID_SIZE * GRID_SIZE)]. *)
Definition canvas : list VertexOutput :=
  flat_map
    (fun inst =>
       map (fun v => vertexMain uniformArray {| pos := v; instance := inst |})
           (take (Z.to_nat (2 * Z.of_nat (length vertices) / 2)) vertices))
    (seqZ 0 (GRID_SIZE * GRID_SIZE)).

End Run.

(** ** The rule and the torus, as the specification words them *)

(** The rule table: a sum of 2 keeps the current state, a sum of 3 gives 1,
    any other sum gives 0. *)
Definition life_rule (sum current : Z) : Z :=
  if sum =? 2 then current else if sum =? 3 then 1 else 0.

(** The linear index of the cell that [(x, y)] wraps to on a torus of [W]
    columns and [H] rows; [mod] is the mathematical modulo, never negative
    for a positive modulus. *)
Definition torus_index (W H x y : Z) : Z := (y mod H) * W + x mod W.

(** The eight Moore offsets, in the order in which [computeMain] adds them. *)
Definition moore : list (Z * Z) :=
  [ (1, 1); (1, 0); (1, -1); (0, -1); (-1, -1); (-1, 0); (-1, 1); (0, 1) ].

Definition torus_neighbors (W H x y : Z) : list Z :=
  map (fun d => torus_index W H (x + fst d) (y + snd d)) moore.

Definition sumZ (l : list Z) : Z := foldr Z.add 0 l.

Definition torus_sum (W H : Z) (b : buffer) (x y : Z) : Z :=
  sumZ (map (load b) (torus_neighbors W H x y)).

(** A buffer of cell states holds only 0 and 1. *)
Definition cell_states (b : buffer) : Prop := Forall (fun v => v = 0 \/ v = 1) b.

(** The columns and the rows that the simulation shader takes from the
    uniform. *)
Definition width (grid : vec2f) : Z := F32.to_u32 (vx grid).
Definition height (grid : vec2f) : Z := F32.to_u32 (vy grid).

(** What an invocation of [computeMain] stores, by the rule table. *)
Definition next_state (grid : vec2f) (cellStateIn : buffer) (cell : vec3u) : Z :=
  life_rule (Life.activeNeighbors grid cellStateIn cell)
            (load cellStateIn (Life.cellIndex grid (xy cell))).

(** The classic glider, as the cells that are alive, and patterns on a
    torus. *)
Definition glider : list (Z * Z) := [ (1, 0); (2, 1); (0, 2); (1, 2); (2, 2) ].

Definition translate (dx dy : Z) (cells : list (Z * Z)) : list (Z * Z) :=
  map (fun c => (fst c + dx, snd c + dy)) cells.

(** The buffer of a [W] x [H] torus in which exactly the cells of a
    pattern are alive. *)
Definition cells_buffer (W H : Z) (cells : list (Z * Z)) : buffer :=
  map (fun i =>
         if existsb (fun c => torus_index W H (fst c) (snd c) =? i) cells
         then 1 else 0)
      (seqZ 0 (W * H)).

(** The invocations of a dispatch that store to the same index store the
    same state, and every index below [n] is stored to. *)
Definition agreeb (grid : vec2f) (cellStateIn : buffer) (ids : list vec3u)
  : bool :=
  forallb
    (fun c =>
       forallb
         (fun c' =>
            implb (Life.cellIndex grid (xy c) =? Life.cellIndex grid (xy c'))
                  (next_state grid cellStateIn c =? next_state grid cellStateIn c'))
         ids)
    ids.

Definition coverb (grid : vec2f) (ids : list vec3u) (n : Z) : bool :=
  forallb (fun j => existsb (fun c => Life.cellIndex grid (xy c) =? j) ids)
          (seqZ 0 n).

(** The dispatch of [render] run row by row into a fresh buffer. *)
Definition simulate (gridSize : Z) (cellStateIn : buffer) : buffer :=
  Life.run_invocations (Life.uniformArray gridSize) cellStateIn
    (Life.invocation_ids Life.WORKGROUP_SIZE (Life.workgroupCount gridSize)
       (Life.workgroupCount gridSize))
    (Life.zeroed (gridSize * gridSize)).

(** Where the quad lands when it is not scaled: the point [p] of the quad
    moved to the tile of an instance, [((p + 1) / grid) - 1 + cell_offset]. *)
Definition unscaled (grid : vec2f) (inst : Z) (p : vec2f) : vec4f :=
  let i := F32.of_Z inst in
  let cell := Vec2 (F32.rem i (vx grid)) (F32.floor (F32.div i (vx grid))) in
  let cell_offset := (cell / grid |*| F32.of_Z 2)%wgsl in
  let q := ((p |+| F32.of_Z 1) / grid |-| F32.of_Z 1 + cell_offset)%wgsl in
  Vec4 (vx q) (vy q) (F32.of_Z 0) (F32.of_Z 1).

(** The point of a tile on which the origin of the quad lands. *)
Definition tile_origin (grid : vec2f) (inst : Z) : vec4f :=
  unscaled grid inst (Vec2 (F32.of_Z 0) (F32.of_Z 0)).

(** The binary32 number of a positive integer below 2^24: the integer
    shifted to 24 digits, and the exponent that undoes the shift. *)
Definition nf (n : Z) : f32 :=
  S754_finite false (Z.to_pos (n * 2 ^ (24 - Zdigits2 n))) (Zdigits2 n - 24).

(** The glider at offset (1, 1) on the 5 x 5 grid, after [k] simulated
    steps. *)
Definition glider_step (k : nat) : buffer :=
  Nat.iter k (simulate 5) (cells_buffer 5 5 (translate 1 1 glider)).

(** ** Generations, moved patterns, tiles and colours *)

(** One generation of the game on a torus of [W] columns and [H] rows:
    the cell of every index gets the state that the rule table gives for
    the sum of its eight neighbours on the torus. *)
Definition life_step (W H : Z) (b : buffer) : buffer :=
  map (fun i => life_rule (torus_sum W H b (i mod W) (i / W)) (load b i))
      (seqZ 0 (W * H)).

(** The cells of a buffer moved by [(dx, dy)] on the torus: the cell at
    [(x, y)] of the result is the cell at [(x - dx, y - dy)] of [b]. *)
Definition shift (W H dx dy : Z) (b : buffer) : buffer :=
  map (fun j => load b (torus_index W H (j mod W - dx) (j / W - dy)))
      (seqZ 0 (W * H)).

(** The canvas spans [-1, 1] in both directions, [g] tiles wide and high.
    The edge between the tiles [c - 1] and [c] is at [-1 + 2 c / g]: the
    [f32] nearest to it (the edge itself when [g] is a power of two). *)
Definition tile_edge (g c : Z) : f32 :=
  F32.div (F32.of_Z (2 * c - g)) (F32.of_Z g).

Definition between (lo x hi : f32) : bool := SFltb lo x && SFltb x hi.

(** A position lies strictly inside the tile of instance [inst] on a
    canvas of [g] x [g] tiles. *)
Definition inside_tile (g inst : Z) (p : vec4f) : bool :=
  between (tile_edge g (inst mod g)) (x4 p) (tile_edge g (inst mod g + 1))
  && between (tile_edge g (inst / g)) (y4 p) (tile_edge g (inst / g + 1)).

(** One coordinate of [unscaled]: the coordinate [p] of a point of the
    quad, moved to the column (or the row) [c]. *)
Definition tile_coord (g c : Z) (p : f32) : f32 :=
  F32.add
    (F32.sub (F32.div (F32.add p (F32.of_Z 1)) (F32.of_Z g)) (F32.of_Z 1))
    (F32.mul (F32.div (F32.of_Z c) (F32.of_Z g)) (F32.of_Z 2)).

(** The coordinates that a vertex of the quad has: 0.8 and -0.8, and 0
    for a quad that is scaled to a point. *)
Definition quad_coords : list f32 :=
  [ F32.of_ratio 8 10; F32.of_ratio (-8) 10; F32.of_Z 0 ].

(** In every column of a canvas of [g] tiles, the three coordinates lie
    strictly between the edges of the tile. *)
Definition tiles_hold (g : Z) : bool :=
  forallb
    (fun c =>
       forallb
         (fun p => between (tile_edge g c) (tile_coord g c p)
                           (tile_edge g (c + 1)))
         quad_coords)
    (seqZ 0 g).

(** The colour that [fragmentMain] gives the cell of index [k] on a grid
    of [g] x [g] cells: red is the column over [g], green the row over
    [g], blue is one minus red. *)
Definition cell_colour (g k : Z) : vec4f :=
  let red := F32.div (F32.of_Z (k mod g)) (F32.of_Z g) in
  let green := F32.div (F32.of_Z (k / g)) (F32.of_Z g) in
  Vec4 red green (F32.sub (F32.of_Z 1) red) (F32.of_Z 1).

Definition unit_interval (x : f32) : bool :=
  SFleb (F32.of_Z 0) x && SFleb x (F32.of_Z 1).

(** On a grid of [g] columns: the red of every column and the blue that
    goes with it are in [0, 1], and two columns have the same red only
    when they are the same column. *)
Definition colours_hold (g : Z) : bool :=
  let reds :=
    map (fun c => (c, F32.div (F32.of_Z c) (F32.of_Z g))) (seqZ 0 g) in
  forallb
    (fun cr =>
       unit_interval (snd cr)
       && unit_interval (F32.sub (F32.of_Z 1) (snd cr))
       && forallb
            (fun cr' => Bool.eqb (SFeqb (snd cr) (snd cr')) (fst cr =? fst cr'))
            reds)
    reds.

(** ** Patterns, checked cell by cell *)

(** The indices of the cells of a pattern on the torus, and the state of
    the cell of index [i] when exactly the cells at the indices [live]
    are alive. *)
Definition pattern_indices (W H : Z) (cells : list (Z * Z)) : list Z :=
  map (fun c => torus_index W H (fst c) (snd c)) cells.

Definition alive_among (live : list Z) (i : Z) : Z :=
  if existsb (Z.eqb i) live then 1 else 0.

(** One generation takes the pattern [cells] to the pattern [cells'],
    checked cell by cell. *)
Definition generation_of (W H : Z) (cells cells' : list (Z * Z)) : bool :=
  let live := pattern_indices W H cells in
  let live' := pattern_indices W H cells' in
  forallb
    (fun i =>
       life_rule
         (sumZ (map (alive_among live)
                    (torus_neighbors W H (i mod W) (i / W))))
         (alive_among live i)
       =? alive_among live' i)
    (seqZ 0 (W * H)).

(** The three shapes that the glider takes before it is itself again,
    one cell further down the diagonal. *)
Definition glider_1 : list (Z * Z) := [ (0, 1); (2, 1); (1, 2); (2, 2); (1, 3) ].
Definition glider_2 : list (Z * Z) := [ (2, 1); (0, 2); (2, 2); (1, 3); (2, 3) ].
Definition glider_3 : list (Z * Z) := [ (1, 1); (2, 2); (3, 2); (1, 3); (2, 3) ].

(** ** The cells that an invocation reads *)

(** The eight cells that [computeMain] reads for the cell at [(x, y)]:
    the coordinates [x + 1], [x - 1], [y + 1] and [y - 1] are taken in
    [u32], where [0 - 1] is [2^32 - 1], and then wrapped to the grid. *)
Definition u32_neighbors (W H x y : Z) : list Z :=
  map (fun d => torus_index W H (U32.wrap (x + fst d)) (U32.wrap (y + snd d)))
      moore.

(** Their sum, in [u32]. *)
Definition u32_sum (W H : Z) (b : buffer) (x y : Z) : Z :=
  U32.wrap (sumZ (map (load b) (u32_neighbors W H x y))).

(** ** The glider on the 5 x 5 grid *)

(** The page with a 5 x 5 grid after four ticks, buffer A seeded with the
    glider at offset [(dx, dy)], the device running the four dispatches
    in the orders [s1] to [s4]. *)
Definition glider_run (dx dy : Z) (s1 s2 s3 s4 : list vec3u) (B : buffer)
    (calls : nat) (canvas0 : list VertexOutput) : Life.state :=
  foldl (fun st ids => Life.render 5 ids st)
    {| Life.random_calls := calls;
       Life.step := 0;
       Life.device :=
         {| Life.storage := [cells_buffer 5 5 (translate dx dy glider); B];
            Life.canvas := canvas0 |} |}
    [s1; s2; s3; s4].

(** The buffer that four dispatches leave of the glider at offset
    [(dx, dy)] when the device runs each of them in the reverse of the
    row by row order, buffer B starting all zeros. *)
Definition glider_reversed (dx dy : Z) : buffer :=
  let grid := Life.uniformArray 5 in
  let order :=
    rev (Life.invocation_ids Life.WORKGROUP_SIZE (Life.workgroupCount 5)
           (Life.workgroupCount 5)) in
  let A0 := cells_buffer 5 5 (translate dx dy glider) in
  let B1 := Life.run_invocations grid A0 order (replicate 25 0) in
  let A2 := Life.run_invocations grid B1 order A0 in
  let B3 := Life.run_invocations grid A2 order B1 in
  Life.run_invocations grid B3 order A2.

Definition same_cells (n : Z) (a b : buffer) : bool :=
  forallb (fun j => load a j =? load b j) (seqZ 0 n).

(** ** Buffers *)

Lemma foldl_snoc {A B} (f : A -> B -> A) (a : A) (l : list B) (x : B) :
  foldl f a (l ++ [x]) = f (foldl f a l) x.
Proof. by rewrite foldl_app. Qed.

Lemma load_store_eq (b : buffer) (i v : Z) :
  (Z.to_nat i < length b)%nat -> load (store b i v) i = v.
Proof.
  intros Hi. unfold load, store.
  by rewrite list_lookup_insert_eq.
Qed.

Lemma load_store_ne (b : buffer) (i j v : Z) :
  Z.to_nat i <> Z.to_nat j -> load (store b i v) j = load b j.
Proof.
  intros Hij. unfold load, store.
  by rewrite list_lookup_insert_ne.
Qed.

(** Inside two buffers, equal loads are equal lookups. *)
Lemma load_inj (b b' : buffer) (k : nat) :
  (k < length b)%nat -> (k < length b')%nat ->
  load b (Z.of_nat k) = load b' (Z.of_nat k) ->
  b !! k = b' !! k.
Proof.
  intros Hk Hk'. unfold load. rewrite Nat2Z.id.
  destruct (lookup_lt_is_Some_2 b k Hk) as [v ->].
  destruct (lookup_lt_is_Some_2 b' k Hk') as [v' ->].
  simpl. by intros ->.
Qed.

Lemma length_store (b : buffer) (i v : Z) : length (store b i v) = length b.
Proof. apply length_insert. Qed.

Lemma load_bit (b : buffer) (i : Z) : cell_states b -> load b i = 0 \/ load b i = 1.
Proof.
  intros Hb. unfold load.
  destruct (b !! Z.to_nat i) as [v|] eqn:E; simpl; [|by left].
  apply (proj1 (Forall_forall _ _) Hb). by eapply list_elem_of_lookup_2.
Qed.

(** ** Arithmetic of [u32] *)

Lemma wrap_range (z : Z) : 0 <= U32.wrap z < U32.modulus.
Proof. unfold U32.wrap. apply Z.mod_pos_bound. reflexivity. Qed.

Lemma wrap_small (z : Z) : 0 <= z < U32.modulus -> U32.wrap z = z.
Proof. intros. unfold U32.wrap. by apply Z.mod_small. Qed.

Lemma rem_mod (a b : Z) : 0 < b -> U32.rem a b = a mod b.
Proof.
  intros Hb. unfold U32.rem.
  destruct (Z.eqb_spec b 0); [lia | done].
Qed.

Lemma to_u32_range (x : f32) : 0 <= F32.to_u32 x < U32.modulus.
Proof.
  assert (Hm : U32.modulus = 4294967296) by reflexivity.
  unfold F32.to_u32, U32.max. rewrite Hm.
  destruct x as [s|s| |s m e]; try destruct s; try lia.
  assert (0 <= F32.truncZ false m e).
  { unfold F32.truncZ, cond_Zopp. apply Z.shiftl_nonneg. lia. }
  lia.
Qed.

(** ** The simulation shader *)

Section Simulation.

Variable grid : vec2f.
Variable cellStateIn : buffer.

Local Abbreviation W := (width grid).
Local Abbreviation H := (height grid).
Local Abbreviation next_state := (next_state grid cellStateIn).

Lemma cellIndex_range (cell : vec2u) :
  0 <= Life.cellIndex grid cell < U32.modulus.
Proof. apply wrap_range. Qed.

(** On a grid whose index space fits [u32] no operation of [cellIndex]
    wraps. *)
Lemma cellIndex_mod (x y : Z) :
  0 < W -> 0 < H -> W * H <= U32.modulus ->
  Life.cellIndex grid (Vec2 x y) = (y mod H) * W + x mod W.
Proof.
  intros HW HH Hfit. unfold Life.cellIndex; simpl.
  fold (width grid) (height grid).
  rewrite !rem_mod by done.
  pose proof (Z.mod_pos_bound y H HH) as By.
  pose proof (Z.mod_pos_bound x W HW) as Bx.
  unfold U32.add, U32.mul.
  rewrite (wrap_small (y mod H * W)) by nia.
  apply wrap_small. nia.
Qed.

Lemma cellIndex_lt (x y : Z) :
  0 < W -> 0 < H -> W * H <= U32.modulus ->
  0 <= Life.cellIndex grid (Vec2 x y) < W * H.
Proof.
  intros HW HH Hfit. rewrite cellIndex_mod by done.
  pose proof (Z.mod_pos_bound y H HH) as By.
  pose proof (Z.mod_pos_bound x W HW) as Bx.
  nia.
Qed.

Lemma computeMain_store (cell : vec3u) (out : buffer) :
  Life.computeMain grid cellStateIn cell out
  = store out (Life.cellIndex grid (xy cell)) (next_state cell).
Proof.
  unfold Life.computeMain, next_state, life_rule.
  destruct (Life.activeNeighbors grid cellStateIn cell)
    as [|[[p|p|]|[p|p|]|]|p]; reflexivity.
Qed.

Lemma length_run_invocations (ids : list vec3u) (out : buffer) :
  length (Life.run_invocations grid cellStateIn ids out) = length out.
Proof.
  unfold Life.run_invocations. revert out.
  induction ids as [|c ids IH]; intros out; simpl; [done|].
  rewrite IH, computeMain_store. apply length_store.
Qed.

Lemma run_invocations_snoc (ids : list vec3u) (c : vec3u) (out : buffer) :
  Life.run_invocations grid cellStateIn (ids ++ [c]) out
  = Life.computeMain grid cellStateIn c
      (Life.run_invocations grid cellStateIn ids out).
Proof. unfold Life.run_invocations. by rewrite foldl_app. Qed.

(** The cell that a dispatch leaves at an index is what the invocations
    for that index store, provided they agree; the order of the
    invocations does not matter then. *)
Lemma run_invocations_load (ids : list vec3u) (out : buffer) (cell : vec3u) :
  cell ∈ ids ->
  (forall c, c ∈ ids ->
     Life.cellIndex grid (xy c) = Life.cellIndex grid (xy cell) ->
     next_state c = next_state cell) ->
  (Z.to_nat (Life.cellIndex grid (xy cell)) < length out)%nat ->
  load (Life.run_invocations grid cellStateIn ids out)
       (Life.cellIndex grid (xy cell))
  = next_state cell.
Proof.
  intros Hin Hagree Hlen. revert Hin Hagree.
  induction ids as [|c ids IH] using rev_ind; intros Hin Hagree.
  - by apply elem_of_nil in Hin.
  - rewrite run_invocations_snoc, computeMain_store.
    destruct (decide (Life.cellIndex grid (xy c)
                      = Life.cellIndex grid (xy cell))) as [E|NE].
    + rewrite E, load_store_eq by (by rewrite length_run_invocations).
      apply Hagree; [|done]. apply elem_of_app. right. by apply list_elem_of_singleton.
    + rewrite load_store_ne.
      * apply IH.
        -- apply elem_of_app in Hin as [Hin|Hin]; [done|].
           apply list_elem_of_singleton in Hin. by subst.
        -- intros c' Hc'. apply Hagree. apply elem_of_app. by left.
      * pose proof (cellIndex_range (xy c)).
        pose proof (cellIndex_range (xy cell)). lia.
Qed.

(** An index that no invocation stores to keeps its cell. *)
Lemma run_invocations_other (ids : list vec3u) (out : buffer) (j : Z) :
  0 <= j ->
  (forall c, c ∈ ids -> Life.cellIndex grid (xy c) <> j) ->
  load (Life.run_invocations grid cellStateIn ids out) j = load out j.
Proof.
  intros Hj. induction ids as [|c ids IH] using rev_ind; intros Hno; [done|].
  rewrite run_invocations_snoc, computeMain_store, load_store_ne.
  - apply IH. intros c' Hc'. apply Hno. apply elem_of_app. by left.
  - pose proof (cellIndex_range (xy c)).
    assert (Life.cellIndex grid (xy c) <> j).
    { apply Hno. apply elem_of_app. right. by apply list_elem_of_singleton. }
    lia.
Qed.

End Simulation.

Lemma elem_of_invocation_ids (wg nx ny : Z) (c : vec3u) :
  c ∈ Life.invocation_ids wg nx ny
  <-> exists x y, c = Vec3 x y 0 /\ 0 <= x < nx * wg /\ 0 <= y < ny * wg.
Proof.
  unfold Life.invocation_ids.
  rewrite list_elem_of_In, in_flat_map. split.
  - intros (y & Hy & Hc). apply in_map_iff in Hc as (x & <- & Hx).
    apply list_elem_of_In, elem_of_seqZ in Hy.
    apply list_elem_of_In, elem_of_seqZ in Hx.
    exists x, y. repeat split; lia.
  - intros (x & y & -> & Hx & Hy). exists y. split.
    + apply list_elem_of_In, elem_of_seqZ. lia.
    + apply in_map_iff. exists x. split; [done|].
      apply list_elem_of_In, elem_of_seqZ. lia.
Qed.

(** The coordinate that [x - 1] underflows to at [x = 0] wraps to the
    last column exactly when the width divides 2^32. *)
Lemma underflow_mod (n : Z) :
  0 < n -> (U32.sub 0 1 mod n = n - 1 <-> (n | U32.modulus)).
Proof.
  intros Hn.
  assert (Hm : U32.sub 0 1 = U32.modulus - 1) by reflexivity.
  rewrite Hm. split.
  - intros E. apply Z.mod_divide; [lia|].
    pose proof (Z.div_mod (U32.modulus - 1) n ltac:(lia)) as D.
    rewrite E in D.
    replace U32.modulus with (((U32.modulus - 1) / n + 1) * n) by lia.
    apply Z.mod_mul. lia.
  - intros [k Hk]. symmetry.
    apply (Z.mod_unique_pos _ _ (k - 1)); lia.
Qed.

(** C4, as the code has it.  The index of column [W] is the index of
    column 0 and the index of row [H] is the index of row 0, on every grid.
    The index of column -1, which the shader reaches as the [u32] value
    that [0 - 1] underflows to, is the index of column [W - 1] exactly when
    [W] divides 2^32, that is, when the width is a power of two as the 64
    and the 32 of the two pages are; likewise for row -1 and [H]. *)
Theorem cellIndex_wrap (grid : vec2f) (x y : Z) :
  0 < width grid ->
  0 < height grid ->
  width grid * height grid <= U32.modulus ->
  0 <= x < width grid ->
  0 <= y < height grid ->
  Life.cellIndex grid (Vec2 (width grid) y) = Life.cellIndex grid (Vec2 0 y)
  /\ Life.cellIndex grid (Vec2 x (height grid)) = Life.cellIndex grid (Vec2 x 0)
  /\ (Life.cellIndex grid (Vec2 (U32.sub 0 1) y)
      = Life.cellIndex grid (Vec2 (width grid - 1) y)
      <-> (width grid | U32.modulus))
  /\ (Life.cellIndex grid (Vec2 x (U32.sub 0 1))
      = Life.cellIndex grid (Vec2 x (height grid - 1))
      <-> (height grid | U32.modulus)).
Proof.
  intros HW HH Hfit Hx Hy.
  rewrite !cellIndex_mod by done.
  rewrite Z.mod_same, (Z.mod_same (height grid)) by lia.
  rewrite (Z.mod_small 0), (Z.mod_small 0) by lia.
  rewrite (Z.mod_small (width grid - 1)), (Z.mod_small (height grid - 1)) by lia.
  rewrite <- (underflow_mod (width grid)), <- (underflow_mod (height grid)) by done.
  pose proof (Z.mod_pos_bound (U32.sub 0 1) (width grid) HW).
  pose proof (Z.mod_pos_bound (U32.sub 0 1) (height grid) HH).
  repeat split; try done; try lia; try nia.
Qed.

(** ** The neighbourhood *)

Lemma wrap_add_l (a b : Z) : U32.wrap (U32.wrap a + b) = U32.wrap (a + b).
Proof. unfold U32.wrap. apply Zplus_mod_idemp_l. Qed.

(** A coordinate that wrapped in [u32] names the column that the exact
    coordinate names, when the width divides 2^32. *)
Lemma wrap_mod_divide (n z : Z) :
  0 < n -> (n | U32.modulus) -> U32.wrap z mod n = z mod n.
Proof.
  intros Hn Hd. unfold U32.wrap.
  apply Z.mod_mod_divide; done.
Qed.

(** Eight additions in [u32] wrap once. *)
Lemma wrap_sum8 (a b c d e f g h : Z) :
  U32.add (U32.add (U32.add (U32.add (U32.add (U32.add (U32.add
    a b) c) d) e) f) g) h
  = U32.wrap (sumZ [a; b; c; d; e; f; g; h]).
Proof.
  unfold U32.add.
  rewrite (wrap_add_l (a + b) c), (wrap_add_l (a + b + c) d),
    (wrap_add_l (a + b + c + d) e), (wrap_add_l (a + b + c + d + e) f),
    (wrap_add_l (a + b + c + d + e + f) g),
    (wrap_add_l (a + b + c + d + e + f + g) h).
  f_equal. unfold sumZ; simpl. lia.
Qed.

Lemma step_mod_ne (n a : Z) :
  2 <= n -> 0 <= a < n -> (a + 1) mod n <> a /\ (a + -1) mod n <> a.
Proof.
  intros Hn Ha. split.
  - destruct (decide (a + 1 = n)) as [E|].
    + rewrite E, Z.mod_same; lia.
    + rewrite Z.mod_small; lia.
  - destruct (decide (a = 0)) as [E|].
    + rewrite E, <- (Z.mod_unique_pos (0 + -1) n (-1) (n - 1)); lia.
    + rewrite Z.mod_small; lia.
Qed.

Section Neighbourhood.

Variable grid : vec2f.
Variable cellStateIn : buffer.

Local Abbreviation W := (width grid).
Local Abbreviation H := (height grid).

Hypothesis W_divides : (W | U32.modulus).
Hypothesis H_divides : (H | U32.modulus).
Hypothesis fits : W * H <= U32.modulus.

Lemma divides_pos (n : Z) : 0 <= n -> (n | U32.modulus) -> 0 < n.
Proof.
  intros Hn [k Hk]. destruct (decide (n = 0)) as [->|]; [|lia].
  rewrite Z.mul_0_r in Hk. discriminate Hk.
Qed.

Lemma W_pos : 0 < W.
Proof. apply divides_pos; [apply to_u32_range | done]. Qed.

Lemma H_pos : 0 < H.
Proof. apply divides_pos; [apply to_u32_range | done]. Qed.

(** A read of [cellActive] at coordinates that wrapped in [u32] is a
    read at the torus index of the exact coordinates. *)
Lemma cellActive_torus (a b : Z) :
  Life.cellActive grid cellStateIn (U32.wrap a) (U32.wrap b)
  = load cellStateIn (torus_index W H a b).
Proof.
  unfold Life.cellActive, torus_index.
  rewrite cellIndex_mod by (apply W_pos || apply H_pos || done).
  by rewrite !wrap_mod_divide by (apply W_pos || apply H_pos || done).
Qed.

Lemma activeNeighbors_wrap (x y z : Z) :
  0 <= x < W -> 0 <= y < H ->
  Life.activeNeighbors grid cellStateIn (Vec3 x y z)
  = U32.wrap (torus_sum W H cellStateIn x y).
Proof.
  intros Hx Hy.
  assert (W <= U32.modulus /\ H <= U32.modulus) as [HWm HHm].
  { pose proof (to_u32_range (vx grid)). pose proof (to_u32_range (vy grid)).
    unfold width, height. lia. }
  assert (Ex : x = U32.wrap (x + 0)).
  { rewrite Z.add_0_r. symmetry. apply wrap_small. lia. }
  assert (Ey : y = U32.wrap (y + 0)).
  { rewrite Z.add_0_r. symmetry. apply wrap_small. lia. }
  unfold Life.activeNeighbors; simpl.
  rewrite (f_equal (fun v => Life.cellActive grid cellStateIn (U32.add x 1) v) Ey).
  rewrite (f_equal (fun v => Life.cellActive grid cellStateIn (U32.sub x 1) v) Ey).
  rewrite (f_equal (fun v => Life.cellActive grid cellStateIn v (U32.sub y 1)) Ex).
  rewrite (f_equal (fun v => Life.cellActive grid cellStateIn v (U32.add y 1)) Ex).
  change (U32.add x 1) with (U32.wrap (x + 1)).
  change (U32.add y 1) with (U32.wrap (y + 1)).
  change (U32.sub x 1) with (U32.wrap (x + -1)).
  change (U32.sub y 1) with (U32.wrap (y + -1)).
  rewrite !cellActive_torus, wrap_sum8.
  reflexivity.
Qed.

End Neighbourhood.

(** C2, as the code has it.  On a grid whose width and height divide 2^32
    (powers of two, as the 64 of the page), the sum that the simulation
    step computes for the cell at [(x, y)] is the sum, in [u32], of the
    current states at the eight toroidally wrapped Moore neighbours,
    diagonals included; it is their plain sum when the buffer holds cell
    states (0 or 1).  When the grid has at least two columns and two rows,
    the index of the cell itself is none of the eight. *)
Theorem activeNeighbors_moore
    (grid : vec2f) (cellStateIn : buffer) (x y z : Z) :
  (width grid | U32.modulus) ->
  (height grid | U32.modulus) ->
  width grid * height grid <= U32.modulus ->
  0 <= x < width grid ->
  0 <= y < height grid ->
  let sum := Life.activeNeighbors grid cellStateIn (Vec3 x y z) in
  let W := width grid in
  let H := height grid in
  sum = U32.wrap (torus_sum W H cellStateIn x y)
  /\ (cell_states cellStateIn -> sum = torus_sum W H cellStateIn x y)
  /\ (2 <= W -> 2 <= H -> y * W + x ∉ torus_neighbors W H x y).
Proof.
  intros HW HH Hfit Hx Hy sum W H.
  assert (Hsum : sum = U32.wrap (torus_sum W H cellStateIn x y))
    by (by apply activeNeighbors_wrap).
  split; [done|]. split.
  - intros Hb. rewrite Hsum. apply wrap_small.
    unfold torus_sum, torus_neighbors, moore, sumZ; simpl.
    assert (Hm : U32.modulus = 4294967296) by reflexivity. rewrite Hm.
    repeat match goal with
           | |- context [load cellStateIn ?i] =>
               let v := fresh "v" in
               let Hv := fresh "Hv" in
               pose proof (load_bit cellStateIn i Hb) as Hv;
               set (v := load cellStateIn i) in *; clearbody v
           end.
    lia.
  - intros HW2 HH2 Hin.
    pose proof (step_mod_ne W x HW2 Hx) as [Hx1 Hx2].
    pose proof (step_mod_ne H y HH2 Hy) as [Hy1 Hy2].
    assert (Hkey : forall a b, torus_index W H a b = y * W + x ->
              a mod W = x /\ b mod H = y).
    { intros a b E. unfold torus_index in E.
      pose proof (Z.mod_pos_bound a W ltac:(lia)).
      pose proof (Z.mod_pos_bound b H ltac:(lia)).
      assert (b mod H = y) by nia. split; [nia | done]. }
    unfold torus_neighbors, moore in Hin; simpl in Hin.
    repeat (apply elem_of_cons in Hin as [Hin|Hin];
            [symmetry in Hin; apply Hkey in Hin as [? ?]; done|]).
    by apply elem_of_nil in Hin.
Qed.

(** ** The dispatch on the shared buffers *)

Lemma buffer_at_insert_eq (mem : list buffer) (k : nat) (b : buffer) :
  (k < length mem)%nat -> Life.buffer_at (<[k := b]> mem) k = b.
Proof. intros Hk. unfold Life.buffer_at. by rewrite list_lookup_insert_eq. Qed.

Lemma buffer_at_insert_ne (mem : list buffer) (j k : nat) (b : buffer) :
  j <> k -> Life.buffer_at (<[j := b]> mem) k = Life.buffer_at mem k.
Proof. intros Hk. unfold Life.buffer_at. by rewrite list_lookup_insert_ne. Qed.

Section Dispatch.

Variable bg : Life.bind_group.
Variable mem : list buffer.

Hypothesis distinct : Life.binding1 bg <> Life.binding2 bg.
Hypothesis bound2 : (Life.binding2 bg < length mem)%nat.

(** The invocations of a dispatch, run one after the other on the shared
    memory, leave the buffer they read untouched, and leave in the
    buffer they write what they compute from the buffer they read as it
    was before the dispatch. *)
Lemma dispatch_shared (ids : list vec3u) :
  foldl (Life.invoke bg) mem ids
  = <[Life.binding2 bg :=
        Life.run_invocations (Life.binding0 bg)
          (Life.buffer_at mem (Life.binding1 bg)) ids
          (Life.buffer_at mem (Life.binding2 bg))]> mem.
Proof.
  induction ids as [|c ids IH] using rev_ind.
  - simpl. unfold Life.run_invocations, Life.buffer_at; simpl.
    destruct (lookup_lt_is_Some_2 mem _ bound2) as [b Hb].
    rewrite Hb; simpl. symmetry. by apply list_insert_id.
  - rewrite foldl_app; simpl. rewrite IH, run_invocations_snoc.
    unfold Life.invoke.
    rewrite buffer_at_insert_ne by auto.
    rewrite buffer_at_insert_eq by done.
    by rewrite list_insert_insert_eq.
Qed.

Lemma dispatch_input (ids : list vec3u) :
  Life.buffer_at (foldl (Life.invoke bg) mem ids) (Life.binding1 bg)
  = Life.buffer_at mem (Life.binding1 bg).
Proof. rewrite dispatch_shared. apply buffer_at_insert_ne. auto. Qed.

Lemma dispatch_output (ids : list vec3u) :
  Life.buffer_at (foldl (Life.invoke bg) mem ids) (Life.binding2 bg)
  = Life.run_invocations (Life.binding0 bg)
      (Life.buffer_at mem (Life.binding1 bg)) ids
      (Life.buffer_at mem (Life.binding2 bg)).
Proof. rewrite dispatch_shared. by apply buffer_at_insert_eq. Qed.

End Dispatch.

(** ** The frame driver *)

Lemma bindGroup_at_spec (gridSize step : Z) :
  0 <= step ->
  let bg := Life.bindGroup_at gridSize (step mod 2) in
  Life.binding0 bg = Life.uniformArray gridSize
  /\ Life.binding1 bg = Z.to_nat (step mod 2)
  /\ Life.binding2 bg = Z.to_nat ((step + 1) mod 2).
Proof.
  intros Hs bg. subst bg.
  rewrite Z.add_mod by lia.
  pose proof (Z.mod_pos_bound step 2 ltac:(lia)) as B.
  assert (step mod 2 = 0 \/ step mod 2 = 1) as [-> | ->] by lia; done.
Qed.

(** What the simulation pass of a tick does to the two buffers. *)
Lemma simulation_pass
    (gridSize step nx ny : Z) (g : Life.gpu) (ids : list vec3u) :
  0 <= step ->
  length (Life.storage g) = 2%nat ->
  let bg := Life.bindGroup_at gridSize (step mod 2) in
  let current := Z.to_nat (step mod 2) in
  let next := Z.to_nat ((step + 1) mod 2) in
  let before := Life.storage g in
  let after := Life.storage (Life.exec ids g (Life.ComputePass bg nx ny)) in
  Life.buffer_at after current = Life.buffer_at before current
  /\ Life.buffer_at after next
     = Life.run_invocations (Life.uniformArray gridSize)
         (Life.buffer_at before current) ids (Life.buffer_at before next).
Proof.
  intros Hs Hlen bg current next before after.
  destruct (bindGroup_at_spec gridSize step Hs) as (E0 & E1 & E2).
  fold bg in E0, E1, E2. fold current in E1. fold next in E2.
  pose proof (Z.mod_pos_bound step 2 ltac:(lia)) as Bs.
  pose proof (Z.mod_pos_bound (step + 1) 2 ltac:(lia)) as Bn.
  assert (Hd : Life.binding1 bg <> Life.binding2 bg).
  { rewrite E1, E2. subst current next.
    rewrite Z.add_mod by lia.
    assert (step mod 2 = 0 \/ step mod 2 = 1) as [-> | ->] by lia; done. }
  assert (Hb : (Life.binding2 bg < length before)%nat).
  { rewrite E2. subst before next. rewrite Hlen. lia. }
  subst after. cbn [Life.exec Life.storage].
  rewrite <- E0, <- E1, <- E2. split.
  - by apply dispatch_input.
  - by apply dispatch_output.
Qed.

(** C3. Whatever the value of [step], the bind group of the simulation
    pass reads [cellStateStorage[step % 2]] and writes
    [cellStateStorage[(step + 1) % 2]], which are two different buffers;
    hence at every moment of the dispatch the buffer that is read is still
    the one the tick started from, and what the dispatch leaves in the
    other buffer is computed from the cells as they were before the tick:
    no invocation reads a value that the same dispatch wrote. *)
Theorem ping_pong
    (gridSize step nx ny : Z) (g : Life.gpu) (ids : list vec3u) :
  0 <= step ->
  length (Life.storage g) = 2%nat ->
  let bg := Life.bindGroup_at gridSize (step mod 2) in
  let current := Z.to_nat (step mod 2) in
  let next := Z.to_nat ((step + 1) mod 2) in
  let before := Life.storage g in
  let after := Life.storage (Life.exec ids g (Life.ComputePass bg nx ny)) in
  Life.binding1 bg = current
  /\ Life.binding2 bg = next
  /\ current <> next
  /\ (forall k : nat,
        Life.buffer_at (foldl (Life.invoke bg) before (take k ids)) current
        = Life.buffer_at before current)
  /\ Life.buffer_at after current = Life.buffer_at before current
  /\ Life.buffer_at after next
     = Life.run_invocations (Life.uniformArray gridSize)
         (Life.buffer_at before current) ids (Life.buffer_at before next).
Proof.
  intros Hs Hlen bg current next before after.
  destruct (bindGroup_at_spec gridSize step Hs) as (E0 & E1 & E2).
  fold bg in E0, E1, E2. fold current in E1. fold next in E2.
  assert (Hne : current <> next).
  { subst current next. rewrite Z.add_mod by lia.
    pose proof (Z.mod_pos_bound step 2 ltac:(lia)) as Bs.
    assert (step mod 2 = 0 \/ step mod 2 = 1) as [-> | ->] by lia; done. }
  assert (Hb : (Life.binding2 bg < length before)%nat).
  { rewrite E2. subst before next. rewrite Hlen.
    pose proof (Z.mod_pos_bound (step + 1) 2 ltac:(lia)). lia. }
  assert (Hd : Life.binding1 bg <> Life.binding2 bg) by congruence.
  split_and!; try done.
  - intros k. rewrite <- E1. by apply dispatch_input.
  - subst after. cbn [Life.exec Life.storage].
    rewrite <- E1. by apply dispatch_input.
  - subst after. cbn [Life.exec Life.storage].
    rewrite <- E0, <- E1, <- E2. by apply dispatch_output.
Qed.

Lemma render_step (gridSize : Z) (ids : list vec3u) (st : Life.state) :
  Life.step (Life.render gridSize ids st) = Life.step st + 1.
Proof. reflexivity. Qed.

Lemma render_random_calls (gridSize : Z) (ids : list vec3u) (st : Life.state) :
  Life.random_calls (Life.render gridSize ids st) = Life.random_calls st.
Proof. reflexivity. Qed.

Lemma render_storage (gridSize : Z) (ids : list vec3u) (st : Life.state) :
  Life.storage (Life.device (Life.render gridSize ids st))
  = foldl (Life.invoke (Life.bindGroup_at gridSize (Life.step st mod 2)))
          (Life.storage (Life.device st)) ids.
Proof. reflexivity. Qed.

Lemma length_dispatch (bg : Life.bind_group) (ids : list vec3u) (mem : list buffer) :
  length (foldl (Life.invoke bg) mem ids) = length mem.
Proof.
  induction ids as [|c ids IH] using rev_ind; [done|].
  rewrite foldl_app; simpl. unfold Life.invoke. by rewrite length_insert.
Qed.

(** The counter after some ticks is the number of ticks, from any start. *)
Lemma step_foldl_render (gridSize : Z) (schedule : list (list vec3u))
    (st : Life.state) :
  Life.step (foldl (fun st ids => Life.render gridSize ids st) st schedule)
  = Life.step st + Z.of_nat (length schedule).
Proof.
  revert st. induction schedule as [|ids schedule IH]; intros st; simpl.
  - lia.
  - rewrite IH, render_step. lia.
Qed.

Lemma random_calls_foldl_render (gridSize : Z) (schedule : list (list vec3u))
    (st : Life.state) :
  Life.random_calls
    (foldl (fun st ids => Life.render gridSize ids st) st schedule)
  = Life.random_calls st.
Proof.
  revert st. induction schedule as [|ids schedule IH]; intros st; simpl; [done|].
  by rewrite IH, render_random_calls.
Qed.

Lemma startup_step (gridSize : Z) (random : nat -> F64.f64) :
  Life.step (Life.startup gridSize random) = 0.
Proof. unfold Life.startup. by destruct (Life.seed_loop _ _ _ _ _). Qed.

(** One call of [render] from any state with two storage buffers and a
    counter that is not negative. *)
Lemma render_from
    (gridSize : Z) (ids : list vec3u) (st : Life.state) :
  0 <= Life.step st ->
  length (Life.storage (Life.device st)) = 2%nat ->
  let current := Z.to_nat (Life.step st mod 2) in
  let next := Z.to_nat ((Life.step st + 1) mod 2) in
  let before := Life.storage (Life.device st) in
  let st' := Life.render gridSize ids st in
  let after := Life.storage (Life.device st') in
  (exists simulation drawing,
      fst (Life.encode gridSize (Life.step st))
      = [ Life.ComputePass simulation (Life.workgroupCount gridSize)
            (Life.workgroupCount gridSize);
          Life.RenderPass drawing 6 (gridSize * gridSize) ]
      /\ Life.binding1 simulation = current
      /\ Life.binding2 simulation = next
      /\ Life.binding1 drawing = next
      /\ Life.canvas (Life.device st')
         = Life.draw drawing after 6 (gridSize * gridSize))
  /\ Life.step st' = Life.step st + 1
  /\ Z.to_nat (Life.step st' mod 2) = next
  /\ Life.buffer_at after next
     = Life.run_invocations (Life.uniformArray gridSize)
         (Life.buffer_at before current) ids (Life.buffer_at before next)
  /\ (forall s, 0 <= s -> s mod 2 = Life.step st mod 2 ->
        fst (Life.encode gridSize s) = fst (Life.encode gridSize (Life.step st))).
Proof.
  intros Hs Hlen current next before st' after.
  destruct (bindGroup_at_spec gridSize (Life.step st) Hs) as (E0 & E1 & E2).
  destruct (bindGroup_at_spec gridSize (Life.step st + 1) ltac:(lia))
    as (F0 & F1 & F2).
  pose proof (simulation_pass gridSize (Life.step st)
                (Life.workgroupCount gridSize) (Life.workgroupCount gridSize)
                (Life.device st) ids Hs Hlen)
    as (_ & Hout).
  split_and!.
  - eexists _, _. split_and!; [reflexivity | exact E1 | exact E2 | exact F1 | reflexivity].
  - reflexivity.
  - reflexivity.
  - exact Hout.
  - intros s Hs' E. unfold Life.encode; simpl.
    rewrite E. do 3 f_equal.
    rewrite (Z.add_mod s), (Z.add_mod (Life.step st)) by lia. by rewrite E.
Qed.

Lemma length_startup_storage (gridSize : Z) (random : nat -> F64.f64) :
  length (Life.storage (Life.device (Life.startup gridSize random))) = 2%nat.
Proof. unfold Life.startup. by destruct (Life.seed_loop _ _ _ _ _). Qed.

Lemma length_run_storage (gridSize : Z) (random : nat -> F64.f64)
    (schedule : list (list vec3u)) :
  length (Life.storage (Life.device (Life.run gridSize random schedule))) = 2%nat.
Proof.
  unfold Life.run.
  induction schedule as [|ids schedule IH] using rev_ind.
  - apply length_startup_storage.
  - rewrite foldl_snoc. by rewrite render_storage, length_dispatch.
Qed.

(** C5. Every tick of the page, that is, one call of [render] in a state
    [st] that the page reaches after any number of earlier ticks: the
    simulation pass is encoded with the bind group that reads
    [cellStateStorage[step % 2]] and writes
    [cellStateStorage[(step + 1) % 2]]; then [step] grows by exactly 1 (it
    is the number of ticks so far, from 0); then the render pass is encoded
    with the bind group that reads [cellStateStorage[step % 2]] for the new
    [step], which is the buffer that the simulation pass of this very tick
    wrote, and the canvas is drawn from it.  What is encoded depends on
    [step] through [step % 2] only. *)
Theorem render_tick
    (gridSize : Z) (random : nat -> F64.f64)
    (schedule : list (list vec3u)) (ids : list vec3u) :
  let st := Life.run gridSize random schedule in
  let current := Z.to_nat (Life.step st mod 2) in
  let next := Z.to_nat ((Life.step st + 1) mod 2) in
  let before := Life.storage (Life.device st) in
  let st' := Life.render gridSize ids st in
  let after := Life.storage (Life.device st') in
  Life.step st = Z.of_nat (length schedule)
  /\ (exists simulation drawing,
      fst (Life.encode gridSize (Life.step st))
      = [ Life.ComputePass simulation (Life.workgroupCount gridSize)
            (Life.workgroupCount gridSize);
          Life.RenderPass drawing 6 (gridSize * gridSize) ]
      /\ Life.binding1 simulation = current
      /\ Life.binding2 simulation = next
      /\ Life.binding1 drawing = next
      /\ Life.canvas (Life.device st')
         = Life.draw drawing after 6 (gridSize * gridSize))
  /\ Life.step st' = Life.step st + 1
  /\ Z.to_nat (Life.step st' mod 2) = next
  /\ Life.buffer_at after next
     = Life.run_invocations (Life.uniformArray gridSize)
         (Life.buffer_at before current) ids (Life.buffer_at before next)
  /\ (forall s, 0 <= s -> s mod 2 = Life.step st mod 2 ->
        fst (Life.encode gridSize s) = fst (Life.encode gridSize (Life.step st))).
Proof.
  intros st current next before st' after.
  assert (Hstep : Life.step st = Z.of_nat (length schedule)).
  { subst st. unfold Life.run. by rewrite step_foldl_render, startup_step. }
  split; [done|].
  apply render_from; [lia|]. apply length_run_storage.
Qed.

(** ** Seeding *)

Section Seeding.

Variable gridSize : Z.
Variable random : nat -> F64.f64.

(** The state that the seeding loop gives a cell from its draw. *)
Local Abbreviation seeded r :=
  (if F64.gt r (F64.of_ratio 6 10) then 1 else 0).

Lemma seed_loop_spec (n : nat) (i : Z) (calls : nat) (a : buffer) :
  0 <= i ->
  let r := Life.seed_loop random n i calls a in
  fst r = (calls + n)%nat
  /\ length (snd r) = length a
  /\ (forall j, i <= j < i + Z.of_nat n -> (Z.to_nat j < length a)%nat ->
        load (snd r) j = seeded (random (calls + Z.to_nat (j - i))%nat))
  /\ (forall j, 0 <= j < i -> load (snd r) j = load a j).
Proof.
  revert i calls a.
  induction n as [|n IH]; intros i calls a Hi; cbn [Life.seed_loop fst snd].
  - split_and!; [lia | done | intros; lia | done].
  - destruct (IH (i + 1) (S calls)
                (store a i (seeded (random calls))) ltac:(lia))
      as (E1 & E2 & E3 & E4).
    rewrite length_store in E2, E3.
    split_and!; [lia | done | |].
    + intros j Hj Hlen.
      destruct (decide (j = i)) as [->|Hne].
      * rewrite E4 by lia. rewrite load_store_eq by done.
        by rewrite Z.sub_diag, Nat.add_0_r.
      * rewrite E3 by (done || lia).
        by replace (S calls + Z.to_nat (j - (i + 1)))%nat
          with (calls + Z.to_nat (j - i))%nat by lia.
    + intros j Hj. rewrite E4 by lia. apply load_store_ne. lia.
Qed.

Lemma writeBuffer_whole (b data : buffer) :
  length data = length b -> Life.writeBuffer b data = data.
Proof.
  intros E. unfold Life.writeBuffer.
  rewrite E, drop_all, app_nil_r, <- E. apply firstn_all.
Qed.

Lemma load_replicate (n : nat) (j : Z) : load (replicate n 0) j = 0.
Proof.
  unfold load. destruct (replicate n 0 !! Z.to_nat j) as [v|] eqn:E; [|done].
  by apply lookup_replicate in E as [-> _].
Qed.

End Seeding.

Lemma length_zeroed (n : Z) : length (Life.zeroed n) = Z.to_nat n.
Proof. apply length_replicate. Qed.

Lemma buffer_at_0 (a b : buffer) : Life.buffer_at [a; b] 0 = a.
Proof. reflexivity. Qed.

Lemma buffer_at_1 (a b : buffer) : Life.buffer_at [a; b] 1 = b.
Proof. reflexivity. Qed.

(** The start-up code, with the seeding loop named. *)
Lemma startup_unfold (gridSize : Z) (random : nat -> F64.f64) :
  Life.startup gridSize random
  = let n := gridSize * gridSize in
    let r := Life.seed_loop random (length (Life.zeroed n)) 0 0 (Life.zeroed n) in
    {| Life.random_calls := fst r;
       Life.step := 0;
       Life.device :=
         {| Life.storage :=
              [Life.writeBuffer (Life.zeroed n) (snd r); Life.zeroed n];
            Life.canvas := [] |} |}.
Proof.
  unfold Life.startup.
  by destruct (Life.seed_loop random _ 0 0%nat _).
Qed.

(** C9. The script seeds once, before the first tick, and seeds buffer A
    only.  After the start-up code, [step] is 0, [Math.random] has been
    called once per cell, the cell at every index [i] of
    [cellStateStorage[0]] is 1 exactly when the draw made for it, the
    [i]-th, is greater than 0.6 and is 0 otherwise, and
    [cellStateStorage[1]] is all zeros.  The ticks never call
    [Math.random]: the count of draws stays at one per cell. *)
Theorem startup_seeds
    (gridSize : Z) (random : nat -> F64.f64) (schedule : list (list vec3u)) :
  let n := gridSize * gridSize in
  let st := Life.startup gridSize random in
  let A := Life.buffer_at (Life.storage (Life.device st)) 0 in
  let B := Life.buffer_at (Life.storage (Life.device st)) 1 in
  Life.run gridSize random [] = st
  /\ Life.step st = 0
  /\ Life.random_calls st = Z.to_nat n
  /\ length (Life.storage (Life.device st)) = 2%nat
  /\ length A = Z.to_nat n
  /\ (forall i, 0 <= i < n ->
        load A i
        = if F64.gt (random (Z.to_nat i)) (F64.of_ratio 6 10) then 1 else 0)
  /\ B = replicate (Z.to_nat n) 0
  /\ Life.random_calls (Life.run gridSize random schedule) = Z.to_nat n.
Proof.
  intros n st A B.
  assert (Hst : Life.random_calls st = Z.to_nat n /\ length A = Z.to_nat n
          /\ (forall i, 0 <= i < n ->
                load A i
                = if F64.gt (random (Z.to_nat i)) (F64.of_ratio 6 10)
                  then 1 else 0)
          /\ B = replicate (Z.to_nat n) 0).
  { subst st A B. rewrite startup_unfold. cbv zeta. fold n.
    cbn [Life.random_calls Life.device Life.storage].
    rewrite buffer_at_0, buffer_at_1.
    pose proof (seed_loop_spec random (length (Life.zeroed n)) 0 0
                  (Life.zeroed n) ltac:(lia)) as Hloop.
    cbv zeta in Hloop.
    destruct (Life.seed_loop random _ 0 0%nat _) as [calls a].
    cbn [fst snd] in Hloop |- *. destruct Hloop as (E1 & E2 & E3 & _).
    rewrite length_zeroed in E1, E2, E3.
    rewrite writeBuffer_whole by (by rewrite length_zeroed).
    split_and!; try done.
    intros i Hi. rewrite E3 by lia. by rewrite Z.sub_0_r. }
  destruct Hst as (H1 & H2 & H3 & H4).
  split_and!; try done.
  - apply startup_step.
  - apply length_startup_storage.
  - unfold Life.run. by rewrite random_calls_foldl_render.
Qed.

(** ** The order of the invocations *)

(** When the invocations that store to the same index agree and every
    index of the buffer is stored to, neither the order of the invocations
    nor the old content of the output buffer shows in the result. *)
Lemma dispatch_any_order
    (grid : vec2f) (cellStateIn : buffer) (ids ids' : list vec3u)
    (out out' : buffer) :
  Permutation ids' ids ->
  agreeb grid cellStateIn ids = true ->
  coverb grid ids (Z.of_nat (length out)) = true ->
  length out' = length out ->
  Life.run_invocations grid cellStateIn ids' out'
  = Life.run_invocations grid cellStateIn ids out.
Proof.
  intros Hperm Hagree Hcover Hlen.
  assert (Hag : forall c c', c ∈ ids -> c' ∈ ids ->
            Life.cellIndex grid (xy c') = Life.cellIndex grid (xy c) ->
            next_state grid cellStateIn c' = next_state grid cellStateIn c).
  { intros c c' Hc Hc' E. unfold agreeb in Hagree.
    rewrite forallb_forall in Hagree.
    specialize (Hagree c' (proj1 (list_elem_of_In _ _) Hc')).
    rewrite forallb_forall in Hagree.
    specialize (Hagree c (proj1 (list_elem_of_In _ _) Hc)).
    rewrite E, Z.eqb_refl, implb_true_l in Hagree. by apply Z.eqb_eq. }
  apply list_eq. intros k.
  destruct (decide (k < length out)%nat) as [Hk|Hk].
  - unfold coverb in Hcover. rewrite forallb_forall in Hcover.
    specialize (Hcover (Z.of_nat k)).
    rewrite existsb_exists in Hcover.
    destruct Hcover as (c & Hc & E).
    { apply list_elem_of_In, elem_of_seqZ. lia. }
    apply list_elem_of_In in Hc. apply Z.eqb_eq in E.
    assert (L : load (Life.run_invocations grid cellStateIn ids out)
                  (Z.of_nat k) = next_state grid cellStateIn c).
    { rewrite <- E. apply run_invocations_load; [done | | lia].
      intros c' Hc' E'. by apply Hag. }
    assert (L' : load (Life.run_invocations grid cellStateIn ids' out')
                   (Z.of_nat k) = next_state grid cellStateIn c).
    { rewrite <- E. apply run_invocations_load; [by rewrite Hperm | | lia].
      intros c' Hc' E'. rewrite Hperm in Hc'. by apply Hag. }
    apply (load_inj _ _ k); rewrite ?length_run_invocations; [lia | lia |].
    by rewrite L, L'.
  - rewrite !lookup_ge_None_2; [done | |];
      rewrite length_run_invocations; lia.
Qed.

(** One tick on a grid on which the dispatch is determinate: the buffer
    that is read is kept, the other becomes the simulated next state. *)
Lemma tick_buffers (gridSize : Z) (ids : list vec3u) (st : Life.state) :
  0 <= Life.step st ->
  length (Life.storage (Life.device st)) = 2%nat ->
  let current := Z.to_nat (Life.step st mod 2) in
  let next := Z.to_nat ((Life.step st + 1) mod 2) in
  let before := Life.storage (Life.device st) in
  let after := Life.storage (Life.device (Life.render gridSize ids st)) in
  let dispatched :=
    Life.invocation_ids Life.WORKGROUP_SIZE (Life.workgroupCount gridSize)
      (Life.workgroupCount gridSize) in
  Life.dispatch_order gridSize ids ->
  agreeb (Life.uniformArray gridSize) (Life.buffer_at before current) dispatched
  = true ->
  coverb (Life.uniformArray gridSize) dispatched (gridSize * gridSize) = true ->
  length (Life.buffer_at before next) = Z.to_nat (gridSize * gridSize) ->
  Life.buffer_at after current = Life.buffer_at before current
  /\ Life.buffer_at after next = simulate gridSize (Life.buffer_at before current).
Proof.
  intros Hs Hlen current next before after dispatched Hord Hag Hcov Hout.
  pose proof (simulation_pass gridSize (Life.step st)
                (Life.workgroupCount gridSize) (Life.workgroupCount gridSize)
                (Life.device st) ids Hs Hlen)
    as (Hin & Hnext).
  split; [exact Hin|].
  etrans; [exact Hnext|]. unfold simulate.
  apply dispatch_any_order; try done.
  - unfold Life.zeroed. rewrite length_replicate.
    rewrite Z2Nat.id by nia. done.
  - unfold Life.zeroed. by rewrite length_replicate.
Qed.


(** ** The glider *)

Lemma render_storage_length (gridSize : Z) (ids : list vec3u) (st : Life.state) :
  length (Life.storage (Life.device st)) = 2%nat ->
  length (Life.storage (Life.device (Life.render gridSize ids st))) = 2%nat.
Proof. intros Hl. by rewrite render_storage, length_dispatch. Qed.

Lemma glider_determinate (k : nat) :
  (k < 4)%nat ->
  agreeb (Life.uniformArray 5) (glider_step k)
    (Life.invocation_ids Life.WORKGROUP_SIZE (Life.workgroupCount 5)
       (Life.workgroupCount 5)) = true.
Proof.
  intros Hk.
  destruct k as [|[|[|[|k]]]]; [vm_compute; reflexivity .. | lia].
Qed.

Lemma glider_cover :
  coverb (Life.uniformArray 5)
    (Life.invocation_ids Life.WORKGROUP_SIZE (Life.workgroupCount 5)
       (Life.workgroupCount 5)) (5 * 5) = true.
Proof. vm_compute. reflexivity. Qed.

Lemma glider_step_4 :
  glider_step 4 = cells_buffer 5 5 (translate 1 1 (translate 1 1 glider)).
Proof. vm_compute. reflexivity. Qed.

Lemma glider_step_S (k : nat) :
  glider_step (S k) = simulate 5 (glider_step k).
Proof. unfold glider_step. apply Nat.iter_succ. Qed.

Lemma length_glider_step (k : nat) : length (glider_step k) = 25%nat.
Proof.
  destruct k as [|k]; [reflexivity|].
  rewrite glider_step_S. unfold simulate.
  by rewrite length_run_invocations.
Qed.

Lemma parity_twice (s : Z) : (s + 1 + 1) mod 2 = s mod 2.
Proof. replace (s + 1 + 1) with (s + 1 * 2) by lia. by apply Z.mod_add. Qed.

Section Glider.

Variable B : buffer.
Variable calls : nat.
Variable canvas0 : list VertexOutput.
Hypothesis length_B : length B = 25%nat.

Local Abbreviation st0 :=
  {| Life.random_calls := calls;
     Life.step := 0;
     Life.device :=
       {| Life.storage := [cells_buffer 5 5 (translate 1 1 glider); B];
          Life.canvas := canvas0 |} |}.

Lemma glider_ticks (schedule : list (list vec3u)) :
  Forall (Life.dispatch_order 5) schedule ->
  (length schedule <= 4)%nat ->
  let st := foldl (fun st ids => Life.render 5 ids st) st0 schedule in
  Life.step st = Z.of_nat (length schedule)
  /\ length (Life.storage (Life.device st)) = 2%nat
  /\ Life.buffer_at (Life.storage (Life.device st))
       (Z.to_nat (Life.step st mod 2))
     = glider_step (length schedule)
  /\ length (Life.buffer_at (Life.storage (Life.device st))
               (Z.to_nat ((Life.step st + 1) mod 2))) = 25%nat.
Proof.
  induction schedule as [|ids schedule IH] using rev_ind; intros Hord Hlen.
  - split_and!; [reflexivity | reflexivity | reflexivity | exact length_B].
  - apply Forall_app in Hord as [Hord Hids].
    apply Forall_inv in Hids.
    rewrite length_app in Hlen |- *. cbn [length] in Hlen |- *.
    destruct (IH Hord ltac:(lia)) as (Es & El & Ec & En). clear IH.
    cbv zeta. rewrite foldl_snoc.
    set (st := foldl (fun st ids => Life.render 5 ids st) st0 schedule) in *.
    destruct (tick_buffers 5 ids st) as [Ekeep Enew].
    + lia.
    + exact El.
    + exact Hids.
    + rewrite Ec. apply glider_determinate. lia.
    + exact glider_cover.
    + rewrite En. reflexivity.
    + rewrite render_step, parity_twice.
      split_and!.
      * lia.
      * by apply render_storage_length.
      * rewrite Enew, Ec.
        replace (length schedule + 1)%nat with (S (length schedule)) by lia.
        symmetry. apply glider_step_S.
      * rewrite Ekeep, Ec. apply length_glider_step.
Qed.

End Glider.

(** ** The cell shader *)

(** The coordinates of the quad: 0.8 and -0.8 as [f32], which are the
    [f32] numbers nearest to 8/10 and -8/10. *)
Lemma vertices_coordinates (v : vec2f) :
  v ∈ Life.vertices ->
  (vx v = F32.of_ratio 8 10 \/ vx v = F32.of_ratio (-8) 10)
  /\ (vy v = F32.of_ratio 8 10 \/ vy v = F32.of_ratio (-8) 10).
Proof.
  assert (Ep : F32.of_f64 (F64.of_ratio 8 10) = F32.of_ratio 8 10)
    by (vm_compute; reflexivity).
  assert (En : F32.of_f64 (F64.of_ratio (-8) 10) = F32.of_ratio (-8) 10)
    by (vm_compute; reflexivity).
  unfold Life.vertices. cbv zeta. rewrite Ep, En. intros Hv.
  repeat (apply elem_of_cons in Hv as [->|Hv]; [cbn [vx vy]; auto|]).
  apply elem_of_nil in Hv. destruct Hv.
Qed.

(** Scaling a coordinate of the quad by the state 1 keeps it, and scaling
    it by the state 0 and adding 1 gives 1, exactly. *)
Lemma scale_alive (c : f32) :
  c = F32.of_ratio 8 10 \/ c = F32.of_ratio (-8) 10 ->
  F32.mul c (F32.of_Z 1) = c.
Proof. intros [-> | ->]; vm_compute; reflexivity. Qed.

Lemma scale_dead (c : f32) :
  c = F32.of_ratio 8 10 \/ c = F32.of_ratio (-8) 10 ->
  F32.add (F32.mul c (F32.of_Z 0)) (F32.of_Z 1)
  = F32.add (F32.of_Z 0) (F32.of_Z 1).
Proof. intros [-> | ->]; vm_compute; reflexivity. Qed.

Lemma scaled_alive (v : vec2f) :
  v ∈ Life.vertices ->
  (v |*| F32.of_Z 1 |+| F32.of_Z 1)%wgsl = (v |+| F32.of_Z 1)%wgsl.
Proof.
  intros Hv. destruct (vertices_coordinates v Hv) as [Hx Hy].
  unfold vscal. cbn [vx vy].
  by rewrite (scale_alive _ Hx), (scale_alive _ Hy).
Qed.

Lemma scaled_dead (v : vec2f) :
  v ∈ Life.vertices ->
  (v |*| F32.of_Z 0 |+| F32.of_Z 1)%wgsl
  = (Vec2 (F32.of_Z 0) (F32.of_Z 0) |+| F32.of_Z 1)%wgsl.
Proof.
  intros Hv. destruct (vertices_coordinates v Hv) as [Hx Hy].
  unfold vscal. cbn [vx vy].
  by rewrite (scale_dead _ Hx), (scale_dead _ Hy).
Qed.

Section CellShader.

Variable grid : vec2f.
Variable cell_state : buffer.
Variable inst : Z.
Variable v : vec2f.
Hypothesis quad : v ∈ Life.vertices.

Lemma vertexMain_alive :
  load cell_state inst = 1 ->
  position (Life.vertexMain grid cell_state {| pos := v; instance := inst |})
  = unscaled grid inst v.
Proof.
  intros E. unfold Life.vertexMain, unscaled. cbn [pos instance position].
  by rewrite E, (scaled_alive v quad).
Qed.

Lemma vertexMain_dead :
  load cell_state inst = 0 ->
  position (Life.vertexMain grid cell_state {| pos := v; instance := inst |})
  = tile_origin grid inst.
Proof.
  intros E. unfold Life.vertexMain, tile_origin, unscaled.
  cbn [pos instance position].
  by rewrite E, (scaled_dead v quad).
Qed.

Lemma vertexMain_run :
  load cell_state inst = 1 ->
  Life.vertexMain grid cell_state {| pos := v; instance := inst |}
  = Run.vertexMain grid {| pos := v; instance := inst |}.
Proof.
  intros E. unfold Life.vertexMain, Run.vertexMain.
  cbn [pos instance].
  by rewrite E, (scaled_alive v quad).
Qed.

End CellShader.


(** C10. With the same grid uniform, on every instance whose cell is alive
    and for every vertex of the quad, the vertex shader of the simulated
    page returns what the vertex shader of [run.js] returns; the two pages
    have the same quad, and their fragment shaders are one function, with
    the colour [(x/W, y/H, 1 - x/W, 1)] of the cell [(x, y)]. *)
Theorem run_is_all_alive
    (grid : vec2f) (cell_state : buffer) (inst : Z) (v : vec2f)
    (input : VertexOutput) :
  Life.vertices = Run.vertices
  /\ (v ∈ Run.vertices ->
      load cell_state inst = 1 ->
      Run.vertexMain grid {| pos := v; instance := inst |}
      = Life.vertexMain grid cell_state {| pos := v; instance := inst |})
  /\ Run.fragmentMain grid input = Life.fragmentMain grid input
  /\ Run.fragmentMain grid input
     = Vec4 (F32.div (vx (cell input)) (vx grid))
            (F32.div (vy (cell input)) (vy grid))
            (F32.sub (F32.of_Z 1) (F32.div (vx (cell input)) (vx grid)))
            (F32.of_Z 1).
Proof.
  split_and!; try reflexivity.
  intros Hv E. symmetry. by apply vertexMain_run.
Qed.

(** ** Binary32 on integers *)

(** A power of two is positive. *)
Ltac pow_pos e :=
  assert (0 < 2 ^ e) by (apply Z.pow_pos_nonneg; lia).

(** The number of binary digits of a positive number. *)
Lemma digits2_pos_bounds (p : positive) :
  2 ^ (Zpos (digits2_pos p) - 1) <= Zpos p < 2 ^ Zpos (digits2_pos p).
Proof.
  induction p as [p IH|p IH|]; cbn [digits2_pos].
  - rewrite Pos2Z.inj_succ.
    replace (Z.succ (Zpos (digits2_pos p)) - 1) with (Zpos (digits2_pos p)) by lia.
    rewrite Z.pow_succ_r by lia.
    replace (2 ^ Zpos (digits2_pos p))
      with (2 * 2 ^ (Zpos (digits2_pos p) - 1)) in *
      by (rewrite <- Z.pow_succ_r by lia; f_equal; lia).
    lia.
  - rewrite Pos2Z.inj_succ.
    replace (Z.succ (Zpos (digits2_pos p)) - 1) with (Zpos (digits2_pos p)) by lia.
    rewrite Z.pow_succ_r by lia.
    replace (2 ^ Zpos (digits2_pos p))
      with (2 * 2 ^ (Zpos (digits2_pos p) - 1)) in *
      by (rewrite <- Z.pow_succ_r by lia; f_equal; lia).
    lia.
  - cbn. lia.
Qed.

Lemma digits2_pos_unique (p : positive) (d : Z) :
  2 ^ (d - 1) <= Zpos p < 2 ^ d -> Zpos (digits2_pos p) = d.
Proof.
  intros [Hlo Hhi]. pose proof (digits2_pos_bounds p) as [Blo Bhi].
  destruct (Z.lt_trichotomy (Zpos (digits2_pos p)) d) as [Hlt | [Heq | Hgt]];
    [exfalso | done | exfalso].
  - assert (2 ^ Zpos (digits2_pos p) <= 2 ^ (d - 1))
      by (apply Z.pow_le_mono_r; lia).
    lia.
  - destruct (Z.le_gt_cases 0 d) as [Hd|Hd].
    + assert (2 ^ d <= 2 ^ (Zpos (digits2_pos p) - 1))
        by (apply Z.pow_le_mono_r; lia).
      lia.
    + rewrite (Z.pow_neg_r 2 d) in Hhi by lia. lia.
Qed.

Lemma digits2_pos_shift (p q : positive) (k : Z) :
  0 <= k -> Zpos q = Zpos p * 2 ^ k ->
  Zpos (digits2_pos q) = Zpos (digits2_pos p) + k.
Proof.
  intros Hk E. apply digits2_pos_unique. rewrite E.
  pose proof (digits2_pos_bounds p) as [Blo Bhi].
  replace (Zpos (digits2_pos p) + k - 1) with (Zpos (digits2_pos p) - 1 + k) by lia.
  rewrite !Z.pow_add_r by lia.
  pow_pos k.
  nia.
Qed.

(** Shifting a mantissa to the left. *)
Lemma iter_xO (p : positive) (k : positive) :
  Zpos (Pos.iter xO p k) = Zpos p * 2 ^ Zpos k.
Proof.
  induction k as [|k IH] using Pos.peano_ind.
  - cbn. lia.
  - rewrite Pos.iter_succ, Pos2Z.inj_succ, Z.pow_succ_r by lia.
    change (Zpos (Pos.iter xO p k)~0) with (2 * Zpos (Pos.iter xO p k)).
    rewrite IH. lia.
Qed.

(** Shifting a mantissa to the right when nothing is lost. *)
Lemma shr_1_double (m : Z) :
  0 < m ->
  shr_1 {| shr_m := 2 * m; shr_r := false; shr_s := false |}
  = {| shr_m := m; shr_r := false; shr_s := false |}.
Proof. destruct m as [|p|p]; [lia | reflexivity | lia]. Qed.

Lemma iter_shr_exact (k : positive) (m : Z) :
  0 < m ->
  SpecFloat.iter_pos shr_1 k
    {| shr_m := m * 2 ^ Zpos k; shr_r := false; shr_s := false |}
  = {| shr_m := m; shr_r := false; shr_s := false |}.
Proof.
  revert m. induction k as [k IH|k IH|]; intros m Hm; cbn [SpecFloat.iter_pos].
  - pow_pos (Zpos k).
    replace (m * 2 ^ Zpos k~1) with (2 * ((m * 2 ^ Zpos k) * 2 ^ Zpos k)).
    + rewrite shr_1_double by nia. rewrite IH by nia. by apply IH.
    + replace (Zpos k~1) with (Zpos k + Zpos k + 1) by lia.
      rewrite !Z.pow_add_r by lia. lia.
  - pow_pos (Zpos k).
    replace (m * 2 ^ Zpos k~0) with ((m * 2 ^ Zpos k) * 2 ^ Zpos k).
    + rewrite IH by nia. by apply IH.
    + replace (Zpos k~0) with (Zpos k + Zpos k) by lia.
      rewrite !Z.pow_add_r by lia. lia.
  - replace (m * 2 ^ 1) with (2 * m) by lia. by apply shr_1_double.
Qed.

(** Rounding in binary32. *)
Lemma fexp_normal (x : Z) : -125 <= x -> fexp 24 128 x = x - 24.
Proof. intros Hx. unfold fexp, emin. lia. Qed.

Lemma shr_fexp_canonical (m : positive) (e : Z) (l : location) :
  Zpos (digits2_pos m) = 24 -> -149 <= e ->
  shr_fexp 24 128 (Zpos m) e l = (shr_record_of_loc (Zpos m) l, e).
Proof.
  intros Hd He. unfold shr_fexp. cbn [Zdigits2].
  rewrite Hd, fexp_normal by lia.
  replace (24 + e - 24 - e) with 0 by lia. reflexivity.
Qed.

(** A mantissa of [24 + k] digits whose last [k] digits are zeros rounds to
    its first 24 digits. *)
Lemma round_aux_exact (s : bool) (p m : positive) (e k : Z) :
  0 <= k -> Zpos p = Zpos m * 2 ^ k -> Zpos (digits2_pos m) = 24 ->
  -149 <= e -> e + k <= 104 ->
  binary_round_aux 24 128 s (Zpos p) e loc_Exact = S754_finite s m (e + k).
Proof.
  intros Hk Hp Hd He Hek.
  pose proof (digits2_pos_shift m p k Hk Hp) as Hdp.
  unfold binary_round_aux.
  assert (E1 : shr_fexp 24 128 (Zpos p) e loc_Exact
               = ({| shr_m := Zpos m; shr_r := false; shr_s := false |}, e + k)).
  { unfold shr_fexp. cbn [Zdigits2 shr_record_of_loc].
    rewrite Hdp, Hd, fexp_normal by lia.
    replace (24 + k + e - 24 - e) with k by lia.
    destruct k as [|k|k]; [|  |lia].
    - rewrite Z.pow_0_r, Z.mul_1_r in Hp. rewrite Hp, Z.add_0_r. reflexivity.
    - unfold shr. rewrite Hp. by rewrite iter_shr_exact. }
  rewrite E1. cbn [shr_m loc_of_shr_record round_nearest_even].
  rewrite shr_fexp_canonical by (done || lia).
  cbn [shr_record_of_loc shr_m].
  destruct (Z.leb_spec (e + k) (128 - 24)) as [_|Hbad]; [done | lia].
Qed.

Lemma Zdigits2_bounds (n : Z) :
  0 < n -> 2 ^ (Zdigits2 n - 1) <= n < 2 ^ Zdigits2 n.
Proof. destruct n as [|p|p]; [lia | intros _ | lia]. apply digits2_pos_bounds. Qed.

Lemma Zdigits2_small (n : Z) : 0 < n < 2 ^ 24 -> 1 <= Zdigits2 n <= 24.
Proof.
  intros [Hn Hlt]. pose proof (Zdigits2_bounds n Hn) as [Blo Bhi].
  split.
  - destruct n; cbn [Zdigits2]; lia.
  - destruct (Z.le_gt_cases (Zdigits2 n) 24) as [|Hgt]; [done|].
    assert (2 ^ 24 <= 2 ^ (Zdigits2 n - 1)) by (apply Z.pow_le_mono_r; lia).
    lia.
Qed.

Lemma Zdigits2_shift (n k : Z) :
  0 < n -> 0 <= k -> Zdigits2 (n * 2 ^ k) = Zdigits2 n + k.
Proof.
  intros Hn Hk. pow_pos k.
  destruct n as [|p|p]; [lia | | lia].
  destruct (Zpos p * 2 ^ k) as [|q|q] eqn:E; [nia | | nia].
  cbn [Zdigits2]. by apply digits2_pos_shift.
Qed.

Lemma mant_digits (n : Z) :
  0 < n < 2 ^ 24 ->
  Zpos (Z.to_pos (n * 2 ^ (24 - Zdigits2 n))) = n * 2 ^ (24 - Zdigits2 n)
  /\ Zpos (digits2_pos (Z.to_pos (n * 2 ^ (24 - Zdigits2 n)))) = 24.
Proof.
  intros Hn. pose proof (Zdigits2_small n Hn) as Hd.
  pow_pos (24 - Zdigits2 n).
  assert (E : Zpos (Z.to_pos (n * 2 ^ (24 - Zdigits2 n)))
              = n * 2 ^ (24 - Zdigits2 n)) by (apply Z2Pos.id; nia).
  split; [done|].
  change (Zpos (digits2_pos ?p)) with (Zdigits2 (Zpos p)).
  rewrite E, Zdigits2_shift by lia. lia.
Qed.

(** Any mantissa and exponent that stand for the integer [n] round to the
    number of [n]. *)
Lemma round_aux_int (p : positive) (e n : Z) :
  0 < n < 2 ^ 24 -> -100 <= e <= 0 -> Zpos p = n * 2 ^ (- e) ->
  24 <= Zpos (digits2_pos p) ->
  binary_round_aux 24 128 false (Zpos p) e loc_Exact = nf n.
Proof.
  intros Hn He Hp Hdp.
  pose proof (Zdigits2_small n Hn) as Hd.
  destruct (mant_digits n Hn) as [Em Ed].
  assert (Hdig : Zpos (digits2_pos p) = Zdigits2 n + - e).
  { change (Zpos (digits2_pos p)) with (Zdigits2 (Zpos p)).
    rewrite Hp. apply Zdigits2_shift; lia. }
  unfold nf.
  replace (Zdigits2 n - 24) with (e + (Zdigits2 n - e - 24)) by lia.
  apply round_aux_exact; [lia | | exact Ed | lia | lia].
  rewrite Em, Hp, <- Z.mul_assoc, <- Z.pow_add_r by lia.
  do 2 f_equal. lia.
Qed.

Lemma round_int (p : positive) (e n : Z) :
  0 < n < 2 ^ 24 -> -100 <= e <= 0 -> Zpos p = n * 2 ^ (- e) ->
  binary_round 24 128 false p e = nf n.
Proof.
  intros Hn He Hp.
  pose proof (Zdigits2_small n Hn) as Hd.
  destruct (mant_digits n Hn) as [Em Ed].
  assert (Hdig : Zpos (digits2_pos p) = Zdigits2 n + - e).
  { change (Zpos (digits2_pos p)) with (Zdigits2 (Zpos p)).
    rewrite Hp. apply Zdigits2_shift; lia. }
  unfold binary_round, shl_align.
  rewrite fexp_normal by lia.
  destruct (Zpos (digits2_pos p) + e - 24 - e) as [|k|k] eqn:Ek;
    cbv beta iota zeta.
  - apply round_aux_int; try done. lia.
  - apply round_aux_int; try done. lia.
  - (* fewer than 24 digits: the mantissa is shifted to the left first *)
    assert (Hk : Zpos k = 24 - Zpos (digits2_pos p)) by lia.
    assert (Hq : Zpos (Pos.iter xO p k) = n * 2 ^ (24 - Zdigits2 n)).
    { rewrite iter_xO, Hp, Hk, Hdig, <- Z.mul_assoc, <- Z.pow_add_r by lia.
      do 2 f_equal. lia. }
    rewrite (round_aux_exact false (Pos.iter xO p k) (Pos.iter xO p k)
               (Zpos (digits2_pos p) + e - 24) 0); try lia.
    + unfold nf. f_equal; [|lia]. apply Pos2Z.inj. by rewrite Em.
    + change (Zpos (digits2_pos ?q)) with (Zdigits2 (Zpos q)).
      rewrite Hq, Zdigits2_shift by lia. lia.
Qed.

Lemma of_Z_nf (n : Z) : 0 < n < 2 ^ 24 -> F32.of_Z n = nf n.
Proof.
  intros Hn. unfold F32.of_Z, binary_normalize.
  destruct n as [|p|p]; [lia | | lia].
  apply round_int; [done | lia |]. cbn. lia.
Qed.

Lemma nf_fields (n : Z) :
  0 < n < 2 ^ 24 ->
  exists m e,
    nf n = S754_finite false m e
    /\ Zpos (digits2_pos m) = 24
    /\ e = Zdigits2 n - 24
    /\ -23 <= e <= 0
    /\ Zpos m = n * 2 ^ (- e).
Proof.
  intros Hn. destruct (mant_digits n Hn) as [Em Ed].
  pose proof (Zdigits2_small n Hn).
  eexists _, _. split; [reflexivity|]. split_and!; try done; try lia.
  rewrite Em. do 2 f_equal. lia.
Qed.

Lemma Zdigits2_mono (a b : Z) : 0 < a <= b -> Zdigits2 a <= Zdigits2 b.
Proof.
  intros [Ha Hab].
  pose proof (Zdigits2_bounds a Ha) as [Alo Ahi].
  pose proof (Zdigits2_bounds b ltac:(lia)) as [Blo Bhi].
  destruct (Z.le_gt_cases (Zdigits2 a) (Zdigits2 b)) as [|Hgt]; [done|].
  assert (2 ^ Zdigits2 b <= 2 ^ (Zdigits2 a - 1)).
  { apply Z.pow_le_mono_r; [lia|]. lia. }
  lia.
Qed.

(** A product below 2^24 is exact. *)
Lemma mul_nf (b k : Z) :
  0 < b -> 0 < k -> b * k < 2 ^ 24 -> F32.mul (nf b) (nf k) = nf (b * k).
Proof.
  intros Hb Hk Hbk.
  destruct (nf_fields b ltac:(nia)) as (mb & eb & -> & Db & _ & Rb & Vb).
  destruct (nf_fields k ltac:(nia)) as (mk & ek & -> & Dk & _ & Rk & Vk).
  unfold F32.mul, SFmul. cbn [xorb].
  pose proof (digits2_pos_bounds mb) as [Lb Ub].
  pose proof (digits2_pos_bounds mk) as [Lk Uk].
  rewrite Db in Lb, Ub. rewrite Dk in Lk, Uk.
  apply round_aux_int; [nia | lia | |].
  - rewrite Pos2Z.inj_mul, Vb, Vk.
    replace (- (eb + ek)) with (- eb + - ek) by lia.
    rewrite Z.pow_add_r by lia. lia.
  - pose proof (digits2_pos_bounds (mb * mk)) as [_ U].
    rewrite Pos2Z.inj_mul in U.
    destruct (Z.le_gt_cases 24 (Zpos (digits2_pos (mb * mk)))) as [|Hlt]; [done|].
    assert (2 ^ Zpos (digits2_pos (mb * mk)) <= 2 ^ 23)
      by (apply Z.pow_le_mono_r; lia).
    change (2 ^ (24 - 1)) with 8388608 in *. change (2 ^ 23) with 8388608 in *.
    nia.
Qed.

Lemma shl_align_value (m : positive) (e e' : Z) :
  e' <= e -> Zpos (fst (shl_align m e e')) = Zpos m * 2 ^ (e - e').
Proof.
  intros He. unfold shl_align.
  destruct (e' - e) as [|d|d] eqn:E; cbn [fst].
  - replace (e - e') with 0 by lia. lia.
  - lia.
  - rewrite iter_xO. do 2 f_equal. lia.
Qed.

(** A difference of integers below 2^24 is exact. *)
Lemma sub_nf (a p : Z) :
  0 < p <= a -> a < 2 ^ 24 -> F32.sub (nf a) (nf p) = F32.of_Z (a - p).
Proof.
  intros Hp Ha.
  destruct (nf_fields a ltac:(lia)) as (ma & ea & -> & Da & Ea & Ra & Va).
  destruct (nf_fields p ltac:(lia)) as (mp & ep & -> & Dp & Ep & Rp & Vp).
  pose proof (Zdigits2_mono p a ltac:(lia)) as Hmono.
  unfold F32.sub, SFsub. cbn [cond_Zopp].
  rewrite Z.min_r by lia.
  rewrite !shl_align_value by lia.
  rewrite Z.sub_diag, Z.pow_0_r, Z.mul_1_r, Va, Vp.
  rewrite <- Z.mul_assoc, <- Z.pow_add_r by lia.
  replace (- ea + (ea - ep)) with (- ep) by lia.
  rewrite <- Z.mul_sub_distr_r.
  pow_pos (- ep).
  destruct (decide (a = p)) as [->|Hne].
  - rewrite Z.sub_diag. reflexivity.
  - rewrite of_Z_nf by lia.
    destruct ((a - p) * 2 ^ (- ep)) as [|q|q] eqn:E; [nia | | nia].
    cbn [binary_normalize]. apply round_int; [lia | lia | done].
Qed.

(** The integer part of a float, and the integer of a float. *)
Lemma floor_finite (m : positive) (e : Z) :
  F32.floor (S754_finite false m e) = F32.of_Z (Z.shiftl (Zpos m) e).
Proof. reflexivity. Qed.

Lemma trunc_finite (m : positive) (e : Z) :
  F32.trunc (S754_finite false m e) = F32.of_Z (Z.shiftl (Zpos m) e).
Proof. reflexivity. Qed.

Lemma to_u32_nf (n : Z) : 0 < n < 2 ^ 24 -> F32.to_u32 (nf n) = n.
Proof.
  intros Hn.
  destruct (nf_fields n Hn) as (m & e & -> & D & _ & R & V).
  unfold F32.to_u32, F32.truncZ. cbn [cond_Zopp].
  rewrite Z.shiftl_div_pow2, V by lia.
  pow_pos (- e).
  rewrite Z.div_mul by lia.
  change U32.max with 4294967295. change (2 ^ 24) with 16777216 in Hn. lia.
Qed.

Lemma to_u32_of_Z (n : Z) : 0 <= n <= 2 ^ 24 -> F32.to_u32 (F32.of_Z n) = n.
Proof.
  intros Hn.
  destruct (decide (n = 0)) as [->|]; [reflexivity|].
  destruct (decide (n = 2 ^ 24)) as [->|]; [reflexivity|].
  rewrite of_Z_nf by lia. apply to_u32_nf. lia.
Qed.

(** ** Division *)

(** The quotient of two 24 digit mantissas, before it is rounded. *)
Lemma div_core (ma mb : positive) (ea eb : Z) :
  Zpos (digits2_pos ma) = 24 -> Zpos (digits2_pos mb) = 24 ->
  -100 <= ea - eb ->
  SFdiv_core_binary 24 128 (Zpos ma) ea (Zpos mb) eb
  = ((Zpos ma * 2 ^ 24) / Zpos mb, ea - eb - 24,
     new_location (Zpos mb) ((Zpos ma * 2 ^ 24) mod Zpos mb)).
Proof.
  intros Da Db He. unfold SFdiv_core_binary. cbn [Zdigits2].
  rewrite Da, Db, fexp_normal by lia.
  replace (24 + ea - (24 + eb) - 24) with (ea - eb - 24) by lia.
  rewrite Z.min_l by lia.
  replace (ea - eb - (ea - eb - 24)) with 24 by lia.
  cbv beta iota zeta.
  rewrite Z.shiftl_mul_pow2 by lia.
  unfold Z.div, Z.modulo.
  by destruct (Z.div_eucl (Zpos ma * 2 ^ 24) (Zpos mb)).
Qed.

(** A location that makes the rounding go up is at or above the middle. *)
Lemma new_location_up (d r : Z) (q : Z) :
  0 < d -> 0 <= r < d ->
  round_nearest_even q (new_location d r) <> q ->
  round_nearest_even q (new_location d r) = q + 1 /\ d <= 2 * r.
Proof.
  intros Hd Hr. unfold new_location, new_location_even, new_location_odd.
  destruct (Z.even d); destruct (Z.eqb_spec r 0) as [->|Hr0];
    cbn [round_nearest_even]; try done.
  - destruct (Z.compare_spec (2 * r) d); cbn [round_nearest_even]; try done.
    + destruct (Z.even q); [done|]. intros _. split; lia.
    + intros _. split; lia.
  - destruct (Z.compare_spec (2 * r + 1) d); cbn [round_nearest_even]; try done.
    intros _. split; lia.
Qed.

Lemma loc_of_shr_record_of_loc (m : Z) (l : location) :
  loc_of_shr_record (shr_record_of_loc m l) = l.
Proof. by destruct l as [|[]]. Qed.

Lemma shr_m_record_of_loc (m : Z) (l : location) :
  shr_m (shr_record_of_loc m l) = m.
Proof. by destruct l as [|[]]. Qed.

Lemma round_nearest_even_range (m : Z) (l : location) :
  m <= round_nearest_even m l <= m + 1.
Proof.
  destruct l as [|[]]; cbn [round_nearest_even]; try lia.
  destruct (Z.even m); lia.
Qed.

(** The last step of a rounding: a mantissa that the rounding took to 2^24
    goes back to 24 digits. *)
Lemma round_renormalize (m1 e : Z) :
  2 ^ 23 <= m1 <= 2 ^ 24 -> -149 <= e <= 100 ->
  exists m_r e_r,
    (let '(mrs, e') := shr_fexp 24 128 m1 e loc_Exact in
     match shr_m mrs with
     | Z0 => S754_zero false
     | Zpos m => if e' <=? 128 - 24 then S754_finite false m e'
                 else S754_infinity false
     | Zneg _ => S754_nan
     end) = S754_finite false m_r e_r
    /\ e <= e_r <= e + 1
    /\ Zpos m_r * 2 ^ (e_r - e) = m1.
Proof.
  intros Hm He.
  destruct (decide (m1 = 2 ^ 24)) as [->|Hne].
  - exists 8388608%positive, (e + 1).
    unfold shr_fexp. change (Zdigits2 (2 ^ 24)) with 25.
    rewrite fexp_normal by lia.
    replace (25 + e - 24 - e) with 1 by lia.
    cbn [shr shr_record_of_loc SpecFloat.iter_pos].
    change (shr_1 {| shr_m := 2 ^ 24; shr_r := false; shr_s := false |})
      with {| shr_m := 8388608; shr_r := false; shr_s := false |}.
    cbn [shr_m].
    destruct (Z.leb_spec (e + 1) (128 - 24)); [|lia].
    split_and!; [done | lia | lia |].
    replace (e + 1 - e) with 1 by lia. reflexivity.
  - destruct m1 as [|p|p]; [lia | | lia].
    assert (Hd : Zpos (digits2_pos p) = 24) by (apply digits2_pos_unique; lia).
    exists p, e. rewrite shr_fexp_canonical by (done || lia).
    cbn [shr_record_of_loc shr_m].
    destruct (Z.leb_spec e (128 - 24)); [|lia].
    split_and!; [done | lia | lia |].
    rewrite Z.sub_diag. lia.
Qed.

(** One digit too many: the last digit goes to the location. *)
Lemma round_drop_digit (q : positive) (l : location) :
  let mrs := shr_1 (shr_record_of_loc (Zpos q) l) in
  let m1 := round_nearest_even (shr_m mrs) (loc_of_shr_record mrs) in
  m1 = Zpos q / 2 \/ (m1 = Zpos q / 2 + 1 /\ Zpos q mod 2 = 1).
Proof.
  destruct q as [p|p|].
  - assert (E : Zpos p~1 / 2 = Zpos p).
    { symmetry. apply (Z.div_unique _ _ _ 1); lia. }
    assert (F : Zpos p~1 mod 2 = 1).
    { symmetry. apply (Z.mod_unique _ _ (Zpos p)); lia. }
    rewrite E, F.
    destruct l as [|[]];
      cbn [shr_record_of_loc shr_1 orb shr_m loc_of_shr_record
             round_nearest_even];
      try destruct (Z.even (Zpos p)); auto.
  - assert (E : Zpos p~0 / 2 = Zpos p).
    { symmetry. apply (Z.div_unique _ _ _ 0); lia. }
    rewrite E.
    destruct l as [|[]];
      cbn [shr_record_of_loc shr_1 orb shr_m loc_of_shr_record
             round_nearest_even]; auto.
  - destruct l as [|[]]; cbn; auto.
Qed.

(** Rounding a mantissa of 24 or 25 digits, wherever the exact value lies
    behind it: [g], the result in units of the exponent of the mantissa,
    is the mantissa rounded on its last digit or, with 25 digits, on its
    last two. *)
Lemma round_aux_quotient (q e : Z) (l : location) :
  2 ^ 23 <= q < 2 ^ 25 -> -100 <= e <= 90 ->
  exists m_r e_r,
    binary_round_aux 24 128 false q e l = S754_finite false m_r e_r
    /\ e <= e_r <= e + 2
    /\ ((q < 2 ^ 24 /\ Zpos m_r * 2 ^ (e_r - e) = round_nearest_even q l)
        \/ (2 ^ 24 <= q
            /\ (Zpos m_r * 2 ^ (e_r - e) = 2 * (q / 2)
                \/ (Zpos m_r * 2 ^ (e_r - e) = 2 * (q / 2) + 2
                    /\ q mod 2 = 1)))).
Proof.
  intros Hq He. unfold binary_round_aux.
  destruct q as [|p|p]; [lia | | lia].
  destruct (Z.lt_ge_cases (Zpos p) (2 ^ 24)) as [Hlt|Hge].
  - assert (Hd : Zpos (digits2_pos p) = 24) by (apply digits2_pos_unique; lia).
    rewrite shr_fexp_canonical by (done || lia).
    rewrite loc_of_shr_record_of_loc, shr_m_record_of_loc.
    pose proof (round_nearest_even_range (Zpos p) l) as Hr.
    destruct (round_renormalize (round_nearest_even (Zpos p) l) e
                ltac:(lia) ltac:(lia)) as (m_r & e_r & -> & Her & Hv).
    exists m_r, e_r. split_and!; [done | lia | lia |]. left. by split.
  - assert (Hd : Zpos (digits2_pos p) = 25) by (apply digits2_pos_unique; lia).
    assert (E1 : shr_fexp 24 128 (Zpos p) e l
                 = (shr_1 (shr_record_of_loc (Zpos p) l), e + 1)).
    { unfold shr_fexp. cbn [Zdigits2]. rewrite Hd, fexp_normal by lia.
      replace (25 + e - 24 - e) with 1 by lia. reflexivity. }
    rewrite E1.
    pose proof (round_drop_digit p l) as Hm1. cbv zeta in Hm1.
    set (m1 := round_nearest_even _ _) in *.
    assert (Hhalf : 2 ^ 23 <= Zpos p / 2 < 2 ^ 24).
    { change (2 ^ 24) with (2 ^ 23 * 2) in Hge.
      change (2 ^ 25) with (2 ^ 24 * 2) in Hq.
      split; [apply Z.div_le_lower_bound | apply Z.div_lt_upper_bound]; lia. }
    destruct (round_renormalize m1 (e + 1) ltac:(lia) ltac:(lia))
      as (m_r & e_r & -> & Her & Hv).
    exists m_r, e_r. split_and!; [done | lia | lia |]. right. split; [done|].
    replace (e_r - e) with (e_r - (e + 1) + 1) by lia.
    rewrite Z.pow_add_r, Z.mul_assoc, Hv by lia.
    destruct Hm1 as [-> | [-> Hodd]]; [left | right; split; [|done]]; lia.
Qed.

(** ** The arithmetic of the quotient *)

(** Moving a rounded quotient by one unit does not move its integer part
    when the dividend is below 2^24. *)
Lemma quotient_floor (a b c Q mb q r t g : Z) :
  0 < a < 2 ^ 24 -> 0 < b -> 0 < mb -> 0 < c -> 1 <= t ->
  a * c = Q -> b * c = mb * 2 ^ t ->
  Q = q * mb + r -> 0 <= r < mb ->
  2 ^ 23 <= q ->
  g = q
  \/ (g = q + 1 /\ mb <= 2 * r)
  \/ (2 ^ 24 <= q /\ q mod 2 = 1 /\ (g = q - 1 \/ g = q + 1)) ->
  g / 2 ^ t = a / b.
Proof.
  intros Ha Hb Hmb Hc Ht HQ Hbc Hqr Hr Hq Hg.
  set (T := 2 ^ t) in *.
  assert (HT : 2 <= T).
  { subst T. change 2 with (2 ^ 1) at 1. apply Z.pow_le_mono_r; lia. }
  assert (HTeven : T mod 2 = 0).
  { subst T. replace t with (1 + (t - 1)) by lia.
    rewrite Z.pow_add_r by lia. change (2 ^ 1) with 2.
    rewrite Z.mul_comm. apply Z.mod_mul. lia. }
  assert (HK : a / b = q / T).
  { rewrite <- (Z.div_mul_cancel_r a b c) by lia.
    rewrite HQ, Hbc, <- Z.div_div by lia.
    f_equal. symmetry. apply (Z.div_unique_pos _ _ _ r); lia. }
  rewrite HK.
  pose proof (Z.div_mod q T ltac:(lia)) as Dq.
  pose proof (Z.mod_pos_bound q T ltac:(lia)) as Bq.
  set (K := q / T) in *. set (rho := q mod T) in *.
  assert (HaK : K * b <= a < (K + 1) * b).
  { subst K. rewrite <- HK.
    pose proof (Z.div_mod a b ltac:(lia)).
    pose proof (Z.mod_pos_bound a b ltac:(lia)). nia. }
  (* the exact quotient: a * T = b * q + (b * r) / mb, in cross products *)
  assert (Hx : a * mb * T = b * (q * mb + r)) by nia.
  destruct Hg as [-> | [[-> Hup] | (Hq24 & Hodd & Hg)]].
  - done.
  - (* rounded up: the quotient is at or above the middle *)
    destruct (decide (rho = T - 1)) as [Hrho|Hrho].
    + exfalso.
      assert (Hq1 : q + 1 = (K + 1) * T) by lia.
      assert (H1 : b * (2 * q + 1) <= 2 * a * T).
      { apply (Z.mul_le_mono_pos_r _ _ mb); [lia|].
        replace (2 * a * T * mb) with (2 * (a * mb * T)) by ring.
        rewrite Hx.
        replace (2 * (b * (q * mb + r))) with (b * (2 * q * mb + 2 * r)) by ring.
        replace (b * (2 * q + 1) * mb) with (b * (2 * q * mb + mb)) by ring.
        apply Z.mul_le_mono_nonneg_l; lia. }
      assert (H2 : 2 * T <= b).
      { assert (1 <= (K + 1) * b - a) by lia.
        assert (2 * T * ((K + 1) * b - a) <= b).
        { replace (2 * T * ((K + 1) * b - a))
            with (b * (2 * ((K + 1) * T)) - 2 * a * T) by ring.
          rewrite <- Hq1. lia. }
        assert (2 * T * 1 <= 2 * T * ((K + 1) * b - a))
          by (apply Z.mul_le_mono_nonneg_l; lia).
        lia. }
      assert (H3 : 2 * q + 1 <= a).
      { apply (Z.mul_le_mono_pos_l _ _ b); [lia|].
        assert (a * (2 * T) <= a * b) by (apply Z.mul_le_mono_nonneg_l; lia).
        lia. }
      change (2 ^ 23) with 8388608 in Hq. change (2 ^ 24) with 16777216 in Ha.
      lia.
    + symmetry. apply (Z.div_unique_pos _ _ _ (rho + 1)); lia.
  - assert (Hrho1 : rho mod 2 = 1).
    { subst rho. rewrite <- Hodd.
      rewrite <- (Z.mod_mod_divide q T 2) by (by apply Z.mod_divide).
      reflexivity. }
    assert (Hrho0 : 1 <= rho).
    { destruct (decide (rho = 0)) as [E|]; [|lia]. rewrite E in Hrho1. done. }
    destruct Hg as [-> | ->].
    + symmetry. apply (Z.div_unique_pos _ _ _ (rho - 1)); lia.
    + destruct (decide (rho = T - 1)) as [Hrho|Hrho].
      * exfalso.
        assert (Hq1 : q + 1 = (K + 1) * T) by lia.
        assert (H1 : b * q <= a * T).
        { apply (Z.mul_le_mono_pos_r _ _ mb); [lia|].
          replace (a * T * mb) with (a * mb * T) by ring.
          rewrite Hx.
          replace (b * q * mb) with (b * (q * mb)) by ring.
          apply Z.mul_le_mono_nonneg_l; lia. }
        assert (H2 : T <= b).
        { assert (1 <= (K + 1) * b - a) by lia.
          assert (T * ((K + 1) * b - a) <= b).
          { replace (T * ((K + 1) * b - a))
              with (b * ((K + 1) * T) - a * T) by ring.
            rewrite <- Hq1. lia. }
          assert (T * 1 <= T * ((K + 1) * b - a))
            by (apply Z.mul_le_mono_nonneg_l; lia).
          lia. }
        assert (H3 : q <= a).
        { apply (Z.mul_le_mono_pos_l _ _ b); [lia|].
          assert (a * T <= a * b) by (apply Z.mul_le_mono_nonneg_l; lia).
          lia. }
        change (2 ^ 24) with 16777216 in *. lia.
      * symmetry. apply (Z.div_unique_pos _ _ _ (rho + 1)); lia.
Qed.

(** The integer part of a float, from its value in a smaller unit. *)
Lemma shiftl_units (m e_r e g : Z) :
  0 < m -> e < 0 -> e <= e_r -> m * 2 ^ (e_r - e) = g ->
  Z.shiftl m e_r = g / 2 ^ (- e).
Proof.
  intros Hm He Her <-.
  pow_pos (- e).
  destruct (Z.le_gt_cases 0 e_r) as [Hpos|Hneg].
  - rewrite Z.shiftl_mul_pow2 by lia.
    replace (e_r - e) with (e_r + - e) by lia.
    rewrite Z.pow_add_r, Z.mul_assoc, Z.div_mul by lia. reflexivity.
  - rewrite Z.shiftl_div_pow2 by lia.
    pow_pos (e_r - e).
    replace (- e) with (- e_r + (e_r - e)) by lia.
    rewrite Z.pow_add_r, Z.div_mul_cancel_r by lia. reflexivity.
Qed.

(** The number of a positive integer up to 2^24, which has 25 digits. *)
Lemma of_Z_canonical (b : Z) :
  0 < b <= 2 ^ 24 ->
  exists m e,
    F32.of_Z b = S754_finite false m e
    /\ Zpos (digits2_pos m) = 24
    /\ -23 <= e <= 1
    /\ Zpos m * 2 ^ (e + 23) = b * 2 ^ 23.
Proof.
  intros Hb. destruct (decide (b = 2 ^ 24)) as [->|Hne].
  - exists 8388608%positive, 1. by split_and!.
  - rewrite of_Z_nf by lia.
    destruct (nf_fields b ltac:(lia)) as (m & e & -> & D & _ & R & V).
    exists m, e. split_and!; [done | done | lia | lia |].
    rewrite V, <- Z.mul_assoc, <- Z.pow_add_r by lia.
    do 2 f_equal. lia.
Qed.

(** The quotient of two integers, the dividend below 2^24, may be rounded
    but has the integer part of the exact quotient. *)
Lemma div_int (a b : Z) :
  0 < a < 2 ^ 24 -> 0 < b <= 2 ^ 24 ->
  exists m e,
    F32.div (F32.of_Z a) (F32.of_Z b) = S754_finite false m e
    /\ Z.shiftl (Zpos m) e = a / b.
Proof.
  intros Ha Hb.
  rewrite (of_Z_nf a) by lia.
  destruct (nf_fields a ltac:(lia)) as (ma & ea & -> & Da & _ & Ra & Va).
  destruct (of_Z_canonical b Hb) as (mb & eb & -> & Db & Rb & Vb).
  pose proof (digits2_pos_bounds ma) as [La Ua]. rewrite Da in La, Ua.
  pose proof (digits2_pos_bounds mb) as [Lb Ub]. rewrite Db in Lb, Ub.
  change (2 ^ (24 - 1)) with (2 ^ 23) in La, Lb.
  unfold F32.div, F32.prec, F32.emax, SFdiv. rewrite div_core by (done || lia).
  cbv beta iota zeta. cbn [xorb].
  set (Q := Zpos ma * 2 ^ 24).
  pose proof (Z.div_mod Q (Zpos mb) ltac:(lia)) as DQ.
  pose proof (Z.mod_pos_bound Q (Zpos mb) ltac:(lia)) as BQ.
  set (q := Q / Zpos mb) in *. set (r := Q mod Zpos mb) in *.
  assert (Hq : 2 ^ 23 <= q < 2 ^ 25).
  { subst Q. change (2 ^ 25) with 33554432. change (2 ^ 24) with 16777216 in *.
    change (2 ^ 23) with 8388608 in *. nia. }
  destruct (round_aux_quotient q (ea - eb - 24) (new_location (Zpos mb) r)
              Hq ltac:(lia)) as (m_r & e_r & -> & Her & Hg).
  exists m_r, e_r. split; [done|].
  rewrite (shiftl_units (Zpos m_r) e_r (ea - eb - 24)
             (Zpos m_r * 2 ^ (e_r - (ea - eb - 24)))) by (done || lia).
  set (g := Zpos m_r * 2 ^ (e_r - (ea - eb - 24))) in *.
  apply (quotient_floor a b (2 ^ (24 - ea)) Q (Zpos mb) q r); try lia.
  - subst Q. rewrite Va, <- Z.mul_assoc, <- Z.pow_add_r by lia.
    do 2 f_equal. lia.
  - replace (24 - ea) with (23 + (1 - ea)) by lia.
    rewrite Z.pow_add_r, Z.mul_assoc, <- Vb, <- Z.mul_assoc,
      <- Z.pow_add_r by lia.
    do 2 f_equal. lia.
  - destruct Hg as [[Hlt Hg] | [Hge Hg]].
    + destruct (decide (round_nearest_even q (new_location (Zpos mb) r) = q))
        as [E|NE].
      * left. lia.
      * right; left. rewrite Hg.
        apply new_location_up; [lia | lia | done].
    + pose proof (Z.div_mod q 2 ltac:(lia)) as D2.
      pose proof (Z.mod_pos_bound q 2 ltac:(lia)) as B2.
      destruct Hg as [Hg | [Hg Hodd]].
      * destruct (decide (q mod 2 = 0)) as [E|NE]; [left; lia|].
        right; right. split_and!; [done | lia | left; lia].
      * right; right. split_and!; [done | done | right; lia].
Qed.

(** ** Powers of two as divisors *)

Lemma of_Z_pow2 (k : Z) :
  0 <= k <= 24 -> F32.of_Z (2 ^ k) = S754_finite false 8388608 (k - 23).
Proof.
  intros Hk.
  assert (Hcases : k = 0 \/ k = 1 \/ k = 2 \/ k = 3 \/ k = 4 \/ k = 5 \/ k = 6
                   \/ k = 7 \/ k = 8 \/ k = 9 \/ k = 10 \/ k = 11 \/ k = 12
                   \/ k = 13 \/ k = 14 \/ k = 15 \/ k = 16 \/ k = 17 \/ k = 18
                   \/ k = 19 \/ k = 20 \/ k = 21 \/ k = 22 \/ k = 23 \/ k = 24)
    by lia.
  repeat (destruct Hcases as [-> | Hcases]; [reflexivity|]).
  by subst k.
Qed.

(** The quotient of an integer below 2^24 by a power of two is exact: the
    significand of the dividend with its exponent lowered. *)
Lemma div_pow2 (k : Z) (m : positive) (e : Z) :
  0 <= k <= 24 ->
  Zpos (digits2_pos m) = 24 -> -23 <= e <= 0 ->
  F32.div (S754_finite false m e) (F32.of_Z (2 ^ k))
  = S754_finite false m (e - k).
Proof.
  intros Hk Dm He. rewrite of_Z_pow2 by done.
  unfold F32.div, F32.prec, F32.emax, SFdiv.
  rewrite div_core by (done || lia).
  cbv beta iota zeta. cbn [xorb].
  change (Z.pos 8388608) with (2 ^ 23).
  replace (Z.pos m * 2 ^ 24) with (Z.pos m * 2 * 2 ^ 23)
    by (change (2 ^ 24) with (2 * 2 ^ 23); lia).
  rewrite Z.div_mul, Z.mod_mul by done.
  change (new_location (2 ^ 23) 0) with loc_Exact.
  replace (Z.pos m * 2) with (Z.pos (m~0)) by lia.
  rewrite (round_aux_exact false (m~0) m (e - (k - 23) - 24) 1);
    [f_equal; lia | lia | lia | done | lia | lia].
Qed.

Lemma reciprocal_pow2 (k : Z) :
  0 <= k <= 24 ->
  F32.div (F32.of_Z 1) (F32.of_Z (2 ^ k))
  = S754_finite false 8388608 (- 23 - k).
Proof.
  intros Hk. change (F32.of_Z 1) with (S754_finite false 8388608 (-23)).
  rewrite (div_pow2 k) by (done || lia). f_equal.
Qed.

Lemma mul_reciprocal_pow2 (k : Z) (m : positive) (e : Z) :
  0 <= k <= 24 ->
  Zpos (digits2_pos m) = 24 -> -23 <= e <= 0 ->
  F32.mul (S754_finite false m e)
          (F32.div (F32.of_Z 1) (F32.of_Z (2 ^ k)))
  = S754_finite false m (e - k).
Proof.
  intros Hk Dm He. rewrite reciprocal_pow2 by done.
  unfold F32.mul, F32.prec, F32.emax, SFmul. cbn [xorb].
  rewrite (round_aux_exact false (m * 8388608) m (e + (- 23 - k)) 23);
    [f_equal; lia | lia | | done | lia | lia].
  rewrite Pos2Z.inj_mul. reflexivity.
Qed.

(** Dividing an integer below 2^24 by a power of two and multiplying it
    by the reciprocal of the power give the same number. *)
Lemma quotient_pow2 (i k : Z) :
  0 <= i < 2 ^ 24 -> 0 <= k <= 24 ->
  F32.mul (F32.of_Z i) (F32.div (F32.of_Z 1) (F32.of_Z (2 ^ k)))
  = F32.div (F32.of_Z i) (F32.of_Z (2 ^ k)).
Proof.
  intros Hi Hk. destruct (decide (i = 0)) as [->|Hne].
  - rewrite reciprocal_pow2, of_Z_pow2 by done. reflexivity.
  - rewrite (of_Z_nf i) by lia.
    destruct (nf_fields i ltac:(lia)) as (m & e & -> & D & _ & R & _).
    by rewrite mul_reciprocal_pow2, div_pow2 by done.
Qed.

(** With another divisor the two may differ: 41 times the reciprocal of
    41 is below 1, and its integer part is 0. *)
Lemma reciprocal_quotient_41 :
  F32.floor (F32.mul (F32.of_Z 41) (F32.div (F32.of_Z 1) (F32.of_Z 41)))
  = F32.of_Z 0
  /\ F32.floor (F32.div (F32.of_Z 41) (F32.of_Z 41)) = F32.of_Z 1.
Proof. by vm_compute. Qed.

Lemma pow2_le (k : Z) : 0 <= k -> 2 ^ k <= 2 ^ 24 -> k <= 24.
Proof.
  intros Hk Hle. destruct (Z.le_gt_cases k 24) as [|Hgt]; [done|].
  assert (2 ^ 25 <= 2 ^ k) by (apply Z.pow_le_mono_r; lia).
  change (2 ^ 25) with 33554432 in *. change (2 ^ 24) with 16777216 in *. lia.
Qed.

(** ** The cell of an instance *)

(** The two coordinates that [vertexMain] computes in [f32] are the exact
    remainder and quotient, while the instance index is below 2^24. *)
Lemma floor_div_int (i W : Z) :
  0 <= i < 2 ^ 24 -> 0 < W <= 2 ^ 24 ->
  F32.floor (F32.div (F32.of_Z i) (F32.of_Z W)) = F32.of_Z (i / W)
  /\ F32.trunc (F32.div (F32.of_Z i) (F32.of_Z W)) = F32.of_Z (i / W).
Proof.
  intros Hi HW.
  destruct (decide (i = 0)) as [->|Hne].
  - destruct (of_Z_canonical W HW) as (m & e & -> & _).
    rewrite Z.div_0_l by lia. by split.
  - destruct (div_int i W ltac:(lia) HW) as (m & e & -> & <-).
    by rewrite floor_finite, trunc_finite.
Qed.

Lemma rem_int (i W : Z) :
  0 <= i < 2 ^ 24 -> 0 < W <= 2 ^ 24 ->
  F32.rem (F32.of_Z i) (F32.of_Z W) = F32.of_Z (i mod W).
Proof.
  intros Hi HW. unfold F32.rem.
  rewrite (proj2 (floor_div_int i W Hi HW)).
  pose proof (Z.div_mod i W ltac:(lia)) as D.
  pose proof (Z.mod_pos_bound i W ltac:(lia)) as B.
  assert (HK : 0 <= i / W) by (apply Z.div_pos; lia).
  destruct (decide (i / W = 0)) as [E|NE].
  - rewrite E in *. replace (i mod W) with i by lia.
    destruct (of_Z_canonical W HW) as (m & e & -> & _).
    change (F32.of_Z 0) with (S754_zero false).
    destruct (decide (i = 0)) as [->|]; [reflexivity|].
    rewrite of_Z_nf by lia. reflexivity.
  - assert (HWi : W <= i) by nia.
    rewrite (of_Z_nf i), (of_Z_nf W), (of_Z_nf (i / W)) by nia.
    rewrite mul_nf by nia.
    rewrite sub_nf by nia.
    f_equal. lia.
Qed.

Lemma vertexMain_cell (W H i : Z) (cell_state : buffer) (p : vec2f) :
  0 <= i < 2 ^ 24 -> 0 < W <= 2 ^ 24 ->
  cell (Life.vertexMain (Vec2 (F32.of_Z W) (F32.of_Z H)) cell_state
          {| pos := p; instance := i |})
  = Vec2 (F32.of_Z (i mod W)) (F32.of_Z (i / W)).
Proof.
  intros Hi HW. unfold Life.vertexMain. cbn [cell instance vx].
  by rewrite rem_int, (proj1 (floor_div_int i W Hi HW)).
Qed.

Lemma vertexMain_cell_eq (grid : vec2f) (cell_state : buffer) (input : VertexInput) :
  cell (Life.vertexMain grid cell_state input)
  = Vec2 (F32.rem (F32.of_Z (instance input)) (vx grid))
         (F32.floor (F32.div (F32.of_Z (instance input)) (vx grid))).
Proof. reflexivity. Qed.

(** Encoding and decoding with the quotient correctly rounded, on a grid
    of at most 2^24 cells. *)
Lemma encode_decode
    (W H : Z) (cell_state : buffer) (p : vec2f) :
  0 < W -> 0 < H -> W * H <= 2 ^ 24 ->
  let grid := Vec2 (F32.of_Z W) (F32.of_Z H) in
  let encode x y := Life.cellIndex grid (Vec2 x y) in
  let decode i :=
    cell (Life.vertexMain grid cell_state {| pos := p; instance := i |}) in
  (forall x y, 0 <= x < W -> 0 <= y < H ->
     encode x y = y * W + x
     /\ decode (encode x y) = Vec2 (F32.of_Z x) (F32.of_Z y)
     /\ F32.to_u32 (F32.of_Z x) = x /\ F32.to_u32 (F32.of_Z y) = y)
  /\ (forall i, 0 <= i < W * H ->
        decode i = Vec2 (F32.of_Z (i mod W)) (F32.of_Z (i / W))
        /\ 0 <= i mod W < W /\ 0 <= i / W < H
        /\ encode (i mod W) (i / W) = i).
Proof.
  intros HW HH Hfit grid encode decode.
  assert (HW24 : W <= 2 ^ 24) by nia.
  assert (HH24 : H <= 2 ^ 24) by nia.
  assert (Ew : width grid = W) by (apply to_u32_of_Z; lia).
  assert (Eh : height grid = H) by (apply to_u32_of_Z; lia).
  assert (Henc : forall x y, 0 <= x < W -> 0 <= y < H -> encode x y = y * W + x).
  { intros x y Hx Hy. subst encode. cbv beta.
    rewrite cellIndex_mod; rewrite ?Ew, ?Eh; try lia.
    - by rewrite !Z.mod_small by lia.
    - change U32.modulus with (2 ^ 32). change (2 ^ 24) with 16777216 in Hfit.
      change (2 ^ 32) with 4294967296. lia. }
  split.
  - intros x y Hx Hy. rewrite (Henc x y Hx Hy). split_and!.
    + done.
    + subst decode. cbv beta. subst grid.
      rewrite vertexMain_cell by (lia || nia).
      f_equal; f_equal.
      * rewrite Z.add_comm, Z.mod_add by lia. apply Z.mod_small. lia.
      * rewrite Z.add_comm, Z.div_add by lia.
        rewrite Z.div_small by lia. lia.
    + apply to_u32_of_Z. lia.
    + apply to_u32_of_Z. lia.
  - intros i Hi.
    pose proof (Z.mod_pos_bound i W ltac:(lia)) as Bm.
    assert (Bd : 0 <= i / W < H).
    { split; [apply Z.div_pos; lia|]. apply Z.div_lt_upper_bound; lia. }
    split_and!; try lia.
    + subst decode grid. cbv beta. apply vertexMain_cell; lia.
    + rewrite Henc by lia. pose proof (Z.div_mod i W ltac:(lia)). lia.
Qed.

(** C6, as the code has it.  On a grid of at most 2^24 cells, where every
    instance index is an [f32], and whose width is a power of two, where
    the quotient of an instance index by the width is exact: the index
    that [cellIndex] gives the cell [(x, y)] is [y * W + x]; the cell that
    [vertexMain] computes for it is [(x, y)], exactly; the cell that
    [vertexMain] computes for an instance [i] is [(i mod W, i div W)], a
    cell of the grid whose index is [i]; and a device that multiplies by
    the reciprocal of the width instead of dividing gets the same
    quotient, hence the same cell. *)
Theorem index_bijection
    (k H : Z) (cell_state : buffer) (p : vec2f) :
  0 <= k -> 0 < H -> 2 ^ k * H <= 2 ^ 24 ->
  let W := 2 ^ k in
  let grid := Vec2 (F32.of_Z W) (F32.of_Z H) in
  let encode x y := Life.cellIndex grid (Vec2 x y) in
  let decode i :=
    cell (Life.vertexMain grid cell_state {| pos := p; instance := i |}) in
  (forall x y, 0 <= x < W -> 0 <= y < H ->
     encode x y = y * W + x
     /\ decode (encode x y) = Vec2 (F32.of_Z x) (F32.of_Z y)
     /\ F32.to_u32 (F32.of_Z x) = x /\ F32.to_u32 (F32.of_Z y) = y)
  /\ (forall i, 0 <= i < W * H ->
        decode i = Vec2 (F32.of_Z (i mod W)) (F32.of_Z (i / W))
        /\ 0 <= i mod W < W /\ 0 <= i / W < H
        /\ encode (i mod W) (i / W) = i
        /\ F32.mul (F32.of_Z i) (F32.div (F32.of_Z 1) (F32.of_Z W))
           = F32.div (F32.of_Z i) (F32.of_Z W)).
Proof.
  intros Hk HH Hfit W grid encode decode.
  assert (HW : 0 < W) by (apply Z.pow_pos_nonneg; lia).
  assert (Hk24 : k <= 24) by (apply pow2_le; [done | fold W; nia]).
  destruct (encode_decode W H cell_state p HW HH Hfit) as [Hxy Hi].
  split; [exact Hxy|].
  intros i Hlt. destruct (Hi i Hlt) as (E1 & E2 & E3 & E4).
  split; [exact E1|]. split; [exact E2|]. split; [exact E3|].
  split; [exact E4|].
  apply quotient_pow2; [nia | lia].
Qed.

(** ** Small runs *)

(** Four draws on a 2 x 2 grid: 0.7, 0.6, 0.61 and 0.1; only a draw above
    0.6 seeds a live cell. *)
Example seeding_2x2 :
  let random k :=
    nth k [F64.of_ratio 7 10; F64.of_ratio 6 10; F64.of_ratio 61 100;
           F64.of_ratio 1 10] (F64.of_Z 0) in
  Life.storage (Life.device (Life.startup 2 random))
  = [[1; 0; 1; 0]; [0; 0; 0; 0]].
Proof. by vm_compute. Qed.

(** The first tick of the page encodes a dispatch of 8 x 8 workgroups
    from buffer 0 to buffer 1, then a draw of 6 vertices and 4096
    instances from buffer 1. *)
Example first_tick_passes :
  let grid := Life.uniformArray Life.GRID_SIZE in
  Life.encode Life.GRID_SIZE 0
  = ([ Life.ComputePass
         {| Life.binding0 := grid; Life.binding1 := 0; Life.binding2 := 1 |}
         8 8;
       Life.RenderPass
         {| Life.binding0 := grid; Life.binding1 := 1; Life.binding2 := 0 |}
         6 4096 ], 1).
Proof. reflexivity. Qed.

(** A 4 x 4 grid with every cell alive: each cell has eight live
    neighbours and dies. *)
Example all_alive_4x4_dies : simulate 4 (replicate 16 1) = replicate 16 0.
Proof. by vm_compute. Qed.

(** A blinker on an 8 x 8 grid turns from a row to a column. *)
Example blinker_8x8 :
  simulate 8 (cells_buffer 8 8 [(1, 2); (2, 2); (3, 2)])
  = cells_buffer 8 8 [(2, 1); (2, 2); (2, 3)].
Proof. by vm_compute. Qed.

(** ** The theorems on the grids of the pages, and where they stop *)

(** The neighbourhood on the 64 x 64 grid of the page. *)
Lemma activeNeighbors_moore_witness :
  let grid := Life.uniformArray Life.GRID_SIZE in
  let cellStateIn := replicate 4096 1 in
  let sum := Life.activeNeighbors grid cellStateIn (Vec3 0 0 0) in
  sum = U32.wrap (torus_sum 64 64 cellStateIn 0 0)
  /\ (cell_states cellStateIn -> sum = torus_sum 64 64 cellStateIn 0 0)
  /\ (2 <= 64 -> 2 <= 64 -> 0 * 64 + 0 ∉ torus_neighbors 64 64 0 0).
Proof.
  intros grid cellStateIn.
  apply (activeNeighbors_moore grid cellStateIn 0 0 0);
    [by exists 67108864 | by exists 67108864 | by vm_compute
    | by vm_compute | by vm_compute].
Defined.

(** On a 5 x 5 grid the cell at (0, 0), alone alive, is counted three times
    as its own neighbour: [x - 1] and [y - 1] underflow to 2^32 - 1, which
    is 0 modulo 5. *)
Lemma activeNeighbors_counts_itself :
  let grid := Life.uniformArray 5 in
  let cellStateIn := 1 :: replicate 24 0 in
  width grid = 5 /\ height grid = 5
  /\ Life.activeNeighbors grid cellStateIn (Vec3 0 0 0) = 3
  /\ torus_sum 5 5 cellStateIn 0 0 = 0
  /\ Life.activeNeighbors grid cellStateIn (Vec3 0 0 0)
     <> torus_sum (width grid) (height grid) cellStateIn 0 0.
Proof. by vm_compute. Qed.

(** The ping-pong on two zeroed buffers at step 7. *)
Lemma ping_pong_witness :
  let g := {| Life.storage := [replicate 4096 0; replicate 4096 0];
              Life.canvas := [] |} in
  let bg := Life.bindGroup_at 64 (7 mod 2) in
  let current := Z.to_nat (7 mod 2) in
  let next := Z.to_nat ((7 + 1) mod 2) in
  let before := Life.storage g in
  let after := Life.storage (Life.exec [Vec3 0 0 0] g (Life.ComputePass bg 8 8)) in
  Life.binding1 bg = current
  /\ Life.binding2 bg = next
  /\ current <> next
  /\ (forall k : nat,
        Life.buffer_at (foldl (Life.invoke bg) before (take k [Vec3 0 0 0]))
          current
        = Life.buffer_at before current)
  /\ Life.buffer_at after current = Life.buffer_at before current
  /\ Life.buffer_at after next
     = Life.run_invocations (Life.uniformArray 64)
         (Life.buffer_at before current) [Vec3 0 0 0]
         (Life.buffer_at before next).
Proof.
  intros g.
  apply (ping_pong 64 7 8 8 g [Vec3 0 0 0]); [by vm_compute | reflexivity].
Defined.

(** The wrap on the 64 x 64 grid of the page. *)
Lemma cellIndex_wrap_witness :
  let grid := Life.uniformArray Life.GRID_SIZE in
  Life.cellIndex grid (Vec2 (width grid) 7) = Life.cellIndex grid (Vec2 0 7)
  /\ Life.cellIndex grid (Vec2 9 (height grid)) = Life.cellIndex grid (Vec2 9 0)
  /\ (Life.cellIndex grid (Vec2 (U32.sub 0 1) 7)
      = Life.cellIndex grid (Vec2 (width grid - 1) 7)
      <-> (width grid | U32.modulus))
  /\ (Life.cellIndex grid (Vec2 9 (U32.sub 0 1))
      = Life.cellIndex grid (Vec2 9 (height grid - 1))
      <-> (height grid | U32.modulus)).
Proof.
  intros grid.
  apply (cellIndex_wrap grid 9 7); by vm_compute.
Defined.

(** On a 5 x 5 grid column -1 of row 2 is the cell of column 0, index 10,
    not the cell of column 4, index 14. *)
Lemma cellIndex_wrap_fails_5x5 :
  let grid := Life.uniformArray 5 in
  width grid = 5 /\ height grid = 5
  /\ Life.cellIndex grid (Vec2 (U32.sub 0 1) 2) = 10
  /\ Life.cellIndex grid (Vec2 (width grid - 1) 2) = 14
  /\ Life.cellIndex grid (Vec2 (U32.sub 0 1) 2)
     <> Life.cellIndex grid (Vec2 (width grid - 1) 2).
Proof. by vm_compute. Qed.

(** The offset matters on this grid.  Seeded at offset (0, 0) the glider
    lives on row 0 and column 0, where the invocations with coordinate 0
    and those with coordinate 5 store to the same cells and, the former
    reading a wrong neighbourhood, do not agree: run row by row the four
    ticks give the translated glider, run in the opposite order they do
    not. *)
Lemma glider_at_origin_depends_on_order :
  let ids := Life.invocation_ids Life.WORKGROUP_SIZE 1 1 in
  let st0 :=
    {| Life.random_calls := 25;
       Life.step := 0;
       Life.device :=
         {| Life.storage := [cells_buffer 5 5 glider; replicate 25 0];
            Life.canvas := [] |} |} in
  let after order :=
    Life.buffer_at
      (Life.storage
         (Life.device
            (foldl (fun st ids => Life.render 5 ids st) st0
                   [order; order; order; order]))) 0 in
  Life.dispatch_order 5 ids
  /\ Life.dispatch_order 5 (rev ids)
  /\ after ids = cells_buffer 5 5 (translate 1 1 glider)
  /\ after (rev ids) <> cells_buffer 5 5 (translate 1 1 glider).
Proof.
  intros ids st0 after. split_and!.
  - apply Permutation_refl.
  - apply Permutation_sym, Permutation_rev.
  - by vm_compute.
  - by vm_compute.
Qed.


(** The first vertex of the quad on a live cell of a 32 x 32 grid. *)
Lemma run_is_all_alive_witness :
  let grid := Run.uniformArray in
  let v := Vec2 (F32.of_f64 (F64.of_ratio (-8) 10))
                (F32.of_f64 (F64.of_ratio (-8) 10)) in
  Run.vertexMain grid {| pos := v; instance := 0 |}
  = Life.vertexMain grid [1] {| pos := v; instance := 0 |}.
Proof.
  intros grid v.
  apply (proj1 (proj2 (run_is_all_alive grid [1] 0 v
                         {| position := Vec4 v.(vx) v.(vx) v.(vx) v.(vx);
                            cell := v |}))).
  - apply elem_of_cons. by left.
  - reflexivity.
Defined.

(** The index bijection on the 64 x 64 grid of the page. *)
Lemma index_bijection_witness :
  let grid := Life.uniformArray Life.GRID_SIZE in
  let encode x y := Life.cellIndex grid (Vec2 x y) in
  let decode i :=
    cell (Life.vertexMain grid [] {| pos := Vec2 (F32.of_Z 0) (F32.of_Z 0);
                                     instance := i |}) in
  (forall x y, 0 <= x < 2 ^ 6 -> 0 <= y < 64 ->
     encode x y = y * 2 ^ 6 + x
     /\ decode (encode x y) = Vec2 (F32.of_Z x) (F32.of_Z y)
     /\ F32.to_u32 (F32.of_Z x) = x /\ F32.to_u32 (F32.of_Z y) = y)
  /\ (forall i, 0 <= i < 2 ^ 6 * 64 ->
        decode i = Vec2 (F32.of_Z (i mod 2 ^ 6)) (F32.of_Z (i / 2 ^ 6))
        /\ 0 <= i mod 2 ^ 6 < 2 ^ 6 /\ 0 <= i / 2 ^ 6 < 64
        /\ encode (i mod 2 ^ 6) (i / 2 ^ 6) = i
        /\ F32.mul (F32.of_Z i) (F32.div (F32.of_Z 1) (F32.of_Z (2 ^ 6)))
           = F32.div (F32.of_Z i) (F32.of_Z (2 ^ 6))).
Proof.
  apply (index_bijection 6 64 [] (Vec2 (F32.of_Z 0) (F32.of_Z 0)));
    by vm_compute.
Defined.

(** On a 4097 x 4097 grid the instance 16777217 = 2^24 + 1, the index of
    the cell (2, 4095), is not an [f32]: it converts to 2^24, and
    [vertexMain] draws it as the cell (1, 4095). *)
Lemma index_bijection_fails_4097 :
  let grid := Life.uniformArray 4097 in
  let decode i :=
    cell (Life.vertexMain grid [] {| pos := Vec2 (F32.of_Z 0) (F32.of_Z 0);
                                     instance := i |}) in
  width grid = 4097 /\ height grid = 4097
  /\ Life.cellIndex grid (Vec2 2 4095) = 16777217
  /\ decode 16777217 = Vec2 (F32.of_Z 1) (F32.of_Z 4095)
  /\ decode (Life.cellIndex grid (Vec2 2 4095))
     <> Vec2 (F32.of_Z 2) (F32.of_Z 4095).
Proof.
  cbv beta zeta. rewrite !vertexMain_cell_eq. by vm_compute.
Qed.

(** The third tick of the page, the device running no invocation. *)
Lemma render_tick_witness :
  let random (k : nat) := F64.of_Z 0 in
  let st := Life.run 64 random [[]; []] in
  let st' := Life.render 64 [] st in
  Life.step st = 2 /\ Life.step st' = Life.step st + 1.
Proof.
  intros random st st'.
  destruct (render_tick 64 random [[]; []] []) as (E & _ & E' & _).
  split; [exact E | exact E'].
Defined.

(** The seeding of a 2 x 2 grid from draws that are all 0. *)
Lemma startup_seeds_witness :
  let random (k : nat) := F64.of_Z 0 in
  let st := Life.startup 2 random in
  Life.step st = 0 /\ Life.random_calls st = 4%nat.
Proof.
  intros random st.
  destruct (startup_seeds 2 random []) as (_ & E & E' & _).
  split; [exact E | exact E'].
Defined.

(** * The simulation as a whole *)

(** ** Buffers, cell by cell *)

Lemma load_map_seqZ (f : Z -> Z) (n j : Z) :
  0 <= j < n -> load (map f (seqZ 0 n)) j = f j.
Proof.
  intros Hj. unfold load.
  rewrite list_lookup_fmap.
  rewrite (lookup_seqZ_lt 0 n (Z.to_nat j)) by lia.
  cbn [fmap option_fmap option_map default]. unfold id. f_equal. lia.
Qed.

(** Two buffers of the same length that read the same at every index are
    the same buffer. *)
Lemma buffer_ext (b b' : buffer) :
  length b = length b' ->
  (forall j, 0 <= j < Z.of_nat (length b) -> load b j = load b' j) ->
  b = b'.
Proof.
  intros Hlen Hload. apply list_eq. intros k.
  destruct (decide (k < length b)%nat) as [Hk|Hk].
  - apply load_inj; [lia | lia |]. apply Hload. lia.
  - rewrite !lookup_ge_None_2; [done | lia | lia].
Qed.

Lemma buffer_replicate (b : buffer) (v : Z) :
  (forall j, 0 <= j < Z.of_nat (length b) -> load b j = v) ->
  b = replicate (length b) v.
Proof.
  intros Hload. apply list_eq. intros k.
  destruct (decide (k < length b)%nat) as [Hk|Hk].
  - rewrite lookup_replicate_2 by done.
    specialize (Hload (Z.of_nat k)). unfold load in Hload.
    rewrite Nat2Z.id in Hload.
    destruct (lookup_lt_is_Some_2 b k Hk) as [w Hw].
    rewrite Hw in Hload |- *. cbn in Hload. f_equal. apply Hload. lia.
  - rewrite !lookup_ge_None_2; [done | rewrite length_replicate; lia | lia].
Qed.

Section Step.

Variable grid : vec2f.
Variable cellStateIn : buffer.

(** When what an invocation stores is a function of the index it stores
    to, the dispatch leaves that function at every index that some
    invocation stores to. *)
Lemma run_invocations_pointwise
    (f : Z -> Z) (ids : list vec3u) (out : buffer) (j : Z) :
  (forall c, c ∈ ids ->
     next_state grid cellStateIn c = f (Life.cellIndex grid (xy c))) ->
  (exists c, c ∈ ids /\ Life.cellIndex grid (xy c) = j) ->
  0 <= j < Z.of_nat (length out) ->
  load (Life.run_invocations grid cellStateIn ids out) j = f j.
Proof.
  intros Hf (c & Hc & E) Hj. rewrite <- E.
  rewrite run_invocations_load; [by apply Hf | done | | lia].
  intros c' Hc' E'. by rewrite !Hf, E'.
Qed.

Lemma next_state_bit (c : vec3u) :
  cell_states cellStateIn ->
  next_state grid cellStateIn c = 0 \/ next_state grid cellStateIn c = 1.
Proof.
  intros Hin. unfold next_state, life_rule.
  destruct (_ =? 2); [by apply load_bit|].
  destruct (_ =? 3); [by right | by left].
Qed.

Lemma computeMain_cell_states (c : vec3u) (out : buffer) :
  cell_states cellStateIn -> cell_states out ->
  cell_states (Life.computeMain grid cellStateIn c out).
Proof.
  intros Hin Hout. rewrite computeMain_store. unfold store, cell_states.
  destruct (decide (Z.to_nat (Life.cellIndex grid (xy c)) < length out)%nat).
  - apply Forall_insert; [done | by apply next_state_bit].
  - rewrite list_insert_ge by lia. done.
Qed.

Lemma run_invocations_cell_states (ids : list vec3u) (out : buffer) :
  cell_states cellStateIn -> cell_states out ->
  cell_states (Life.run_invocations grid cellStateIn ids out).
Proof.
  intros Hin. induction ids as [|c ids IH] using rev_ind; intros Hout; [done|].
  rewrite run_invocations_snoc. apply computeMain_cell_states; auto.
Qed.

(** A dispatch whose invocations all store the same state, to every
    index of the buffer. *)
Lemma run_invocations_uniform (v : Z) (ids : list vec3u) (out : buffer) :
  (forall c, c ∈ ids -> next_state grid cellStateIn c = v) ->
  (forall j, 0 <= j < Z.of_nat (length out) ->
     exists c, c ∈ ids /\ Life.cellIndex grid (xy c) = j) ->
  Life.run_invocations grid cellStateIn ids out = replicate (length out) v.
Proof.
  intros Hv Hcover.
  rewrite <- (length_run_invocations grid cellStateIn ids out).
  apply buffer_replicate. rewrite length_run_invocations. intros j Hj.
  apply (run_invocations_pointwise (fun _ => v)); auto.
Qed.

End Step.

(** ** The torus, for every invocation *)

Lemma torus_sum_range (W H : Z) (b : buffer) (x y : Z) :
  cell_states b -> 0 <= torus_sum W H b x y <= 8.
Proof.
  intros Hb. unfold torus_sum, torus_neighbors, moore, sumZ.
  cbn [map foldr fst snd].
  repeat match goal with
         | |- context [load b ?i] =>
             let v := fresh "v" in
             let Hv := fresh "Hv" in
             pose proof (load_bit b i Hb) as Hv;
             set (v := load b i) in *; clearbody v
         end.
  lia.
Qed.

Lemma torus_index_mod (W H a b dx dy : Z) :
  torus_index W H (a mod W + dx) (b mod H + dy)
  = torus_index W H (a + dx) (b + dy).
Proof.
  unfold torus_index.
  by rewrite (Zplus_mod_idemp_l a dx W), (Zplus_mod_idemp_l b dy H).
Qed.

Lemma torus_sum_mod (W H : Z) (b : buffer) (x y : Z) :
  torus_sum W H b (x mod W) (y mod H) = torus_sum W H b x y.
Proof.
  unfold torus_sum, torus_neighbors, moore. cbn [map fst snd].
  by rewrite !torus_index_mod.
Qed.

Section Torus.

Variable grid : vec2f.
Variable cellStateIn : buffer.

Local Abbreviation W := (width grid).
Local Abbreviation H := (height grid).

Hypothesis W_divides : (W | U32.modulus).
Hypothesis H_divides : (H | U32.modulus).
Hypothesis fits : W * H <= U32.modulus.

(** The sum of an invocation at any [u32] coordinates, also those beyond
    the grid that a dispatch of whole workgroups adds. *)
Lemma activeNeighbors_u32 (x y z : Z) :
  0 <= x < U32.modulus -> 0 <= y < U32.modulus ->
  Life.activeNeighbors grid cellStateIn (Vec3 x y z)
  = U32.wrap (torus_sum W H cellStateIn x y).
Proof.
  intros Hx Hy.
  assert (Ex : x = U32.wrap (x + 0)).
  { rewrite Z.add_0_r. symmetry. by apply wrap_small. }
  assert (Ey : y = U32.wrap (y + 0)).
  { rewrite Z.add_0_r. symmetry. by apply wrap_small. }
  unfold Life.activeNeighbors. cbn [x3 y3].
  rewrite (f_equal (fun v => Life.cellActive grid cellStateIn (U32.add x 1) v) Ey).
  rewrite (f_equal (fun v => Life.cellActive grid cellStateIn (U32.sub x 1) v) Ey).
  rewrite (f_equal (fun v => Life.cellActive grid cellStateIn v (U32.sub y 1)) Ex).
  rewrite (f_equal (fun v => Life.cellActive grid cellStateIn v (U32.add y 1)) Ex).
  change (U32.add x 1) with (U32.wrap (x + 1)).
  change (U32.add y 1) with (U32.wrap (y + 1)).
  change (U32.sub x 1) with (U32.wrap (x + -1)).
  change (U32.sub y 1) with (U32.wrap (y + -1)).
  rewrite !(cellActive_torus grid cellStateIn W_divides H_divides fits), wrap_sum8.
  reflexivity.
Qed.

(** What an invocation stores, in terms of the index it stores to: the
    rule of the game for the cell of that index on the torus. *)
Lemma next_state_torus (x y z : Z) :
  cell_states cellStateIn ->
  0 <= x < U32.modulus -> 0 <= y < U32.modulus ->
  let j := Life.cellIndex grid (xy (Vec3 x y z)) in
  next_state grid cellStateIn (Vec3 x y z)
  = life_rule (torus_sum W H cellStateIn (j mod W) (j / W)) (load cellStateIn j).
Proof.
  intros Hb Hx Hy j.
  pose proof (W_pos grid W_divides) as HW.
  pose proof (H_pos grid H_divides) as HH.
  assert (Ej : j = (y mod H) * W + x mod W).
  { unfold j, xy. cbn [x3 y3]. by apply cellIndex_mod. }
  pose proof (Z.mod_pos_bound x W HW) as Bx.
  pose proof (Z.mod_pos_bound y H HH) as By.
  assert (Ec : j mod W = x mod W).
  { rewrite Ej, Z.add_comm, Z.mod_add by lia. by apply Z.mod_small. }
  assert (Er : j / W = y mod H).
  { rewrite Ej, Z.add_comm, Z.div_add by lia.
    rewrite (Z.div_small (x mod W)) by done. lia. }
  unfold next_state. fold j.
  rewrite activeNeighbors_u32 by done.
  rewrite Ec, Er, torus_sum_mod.
  rewrite wrap_small; [done|].
  pose proof (torus_sum_range W H cellStateIn x y Hb).
  assert (Hm : U32.modulus = 4294967296) by reflexivity. lia.
Qed.

End Torus.

(** ** The invocations of a dispatch *)

(** Every index of a grid is the index of the invocation at its column
    and row. *)
Lemma index_covered (grid : vec2f) (ids : list vec3u) (nx ny j : Z) :
  0 < width grid -> 0 < height grid ->
  width grid * height grid <= U32.modulus ->
  width grid <= nx * Life.WORKGROUP_SIZE ->
  height grid <= ny * Life.WORKGROUP_SIZE ->
  Permutation ids (Life.invocation_ids Life.WORKGROUP_SIZE nx ny) ->
  0 <= j < width grid * height grid ->
  exists c, c ∈ ids /\ Life.cellIndex grid (xy c) = j.
Proof.
  intros HW HH Hfit Hnx Hny Hperm Hj.
  set (W := width grid) in *. set (H := height grid) in *.
  pose proof (Z.mod_pos_bound j W HW) as Bx.
  assert (By : 0 <= j / W < H).
  { split; [apply Z.div_pos; lia|]. apply Z.div_lt_upper_bound; lia. }
  exists (Vec3 (j mod W) (j / W) 0). split.
  - rewrite Hperm. apply elem_of_invocation_ids.
    exists (j mod W), (j / W). repeat split; lia.
  - unfold xy. cbn [x3 y3]. rewrite cellIndex_mod by done.
    fold W H. rewrite Z.mod_mod by lia.
    rewrite (Z.mod_small (j / W)) by done.
    pose proof (Z.div_mod j W ltac:(lia)). lia.
Qed.

(** [Math.ceil(GRID_SIZE / WORKGROUP_SIZE)] workgroups reach the end of
    the grid and go past it by less than one workgroup. *)
Lemma workgroupCount_ceil (gridSize : Z) :
  gridSize <= Life.workgroupCount gridSize * Life.WORKGROUP_SIZE
            < gridSize + Life.WORKGROUP_SIZE.
Proof.
  unfold Life.workgroupCount, Life.WORKGROUP_SIZE.
  pose proof (Z.div_mod (- gridSize) 8 ltac:(lia)).
  pose proof (Z.mod_pos_bound (- gridSize) 8 ltac:(lia)). lia.
Qed.

Lemma workgroupCount_exact (gridSize : Z) :
  gridSize mod Life.WORKGROUP_SIZE = 0 ->
  Life.workgroupCount gridSize * Life.WORKGROUP_SIZE = gridSize.
Proof.
  unfold Life.workgroupCount, Life.WORKGROUP_SIZE. intros E.
  pose proof (Z.div_mod (- gridSize) 8 ltac:(lia)).
  pose proof (Z.mod_pos_bound (- gridSize) 8 ltac:(lia)).
  pose proof (Z.div_mod gridSize 8 ltac:(lia)). lia.
Qed.

Lemma width_uniformArray (gridSize : Z) :
  0 <= gridSize <= 2 ^ 24 ->
  width (Life.uniformArray gridSize) = gridSize
  /\ height (Life.uniformArray gridSize) = gridSize.
Proof.
  intros Hg. unfold width, height, Life.uniformArray. cbn [vx vy].
  split; by apply to_u32_of_Z.
Qed.

(** The grid that the shaders see and the dispatch of [render], for a
    grid size whose square fits [u32]. *)
Lemma page_grid (gridSize : Z) :
  0 < gridSize -> gridSize * gridSize <= U32.modulus ->
  width (Life.uniformArray gridSize) = gridSize
  /\ height (Life.uniformArray gridSize) = gridSize
  /\ gridSize <= Life.workgroupCount gridSize * Life.WORKGROUP_SIZE
              <= U32.modulus.
Proof.
  intros Hg Hfit.
  assert (Hm : U32.modulus = 4294967296) by reflexivity.
  assert (Hg24 : 0 <= gridSize <= 2 ^ 24) by nia.
  destruct (width_uniformArray gridSize Hg24) as [EW EH].
  pose proof (workgroupCount_ceil gridSize) as Hceil.
  unfold Life.WORKGROUP_SIZE in *.
  split; [done|]. split; [done|]. nia.
Qed.

Lemma NoDup_flat_map {A B} (f : A -> list B) (l : list A) :
  NoDup l ->
  (forall x, x ∈ l -> NoDup (f x)) ->
  (forall x1 x2 y, x1 ∈ l -> x2 ∈ l -> y ∈ f x1 -> y ∈ f x2 -> x1 = x2) ->
  NoDup (flat_map f l).
Proof.
  induction l as [|x l IH]; intros Hl Hf Hdisj; cbn [flat_map].
  - constructor.
  - apply NoDup_cons in Hl as [Hx Hl]. apply NoDup_app. split_and!.
    + apply Hf. by left.
    + intros y Hy Hy'. apply list_elem_of_In, in_flat_map in Hy'.
      destruct Hy' as (x' & Hx' & Hy'). apply list_elem_of_In in Hx', Hy'.
      assert (x = x') as <-; [|done].
      apply (Hdisj x x' y); [by left | by right | done | done].
    + apply IH; [done | |].
      * intros x' Hx'. apply Hf. by right.
      * intros x1 x2 y H1 H2. apply Hdisj; by right.
Qed.

Lemma NoDup_invocation_ids (wg nx ny : Z) :
  NoDup (Life.invocation_ids wg nx ny).
Proof.
  unfold Life.invocation_ids. apply NoDup_flat_map.
  - apply NoDup_seqZ.
  - intros y _.
    assert (Hinj : Inj eq eq (fun x : Z => Vec3 x y 0)).
    { intros x1 x2 E. by injection E. }
    apply (NoDup_fmap_2 (fun x : Z => Vec3 x y 0)), NoDup_seqZ.
  - intros y1 y2 c _ _ H1 H2.
    apply list_elem_of_fmap in H1 as (x1 & -> & _).
    apply list_elem_of_fmap in H2 as (x2 & E & _). by injection E.
Qed.

(** ** The sum and the cell of any invocation *)

Section Invocation.

Variable grid : vec2f.
Variable cellStateIn : buffer.

Local Abbreviation W := (width grid).
Local Abbreviation H := (height grid).

Hypothesis W_positive : 0 < W.
Hypothesis H_positive : 0 < H.
Hypothesis fits : W * H <= U32.modulus.

Lemma cellActive_index (a b : Z) :
  Life.cellActive grid cellStateIn a b = load cellStateIn (torus_index W H a b).
Proof. unfold Life.cellActive, torus_index. by rewrite cellIndex_mod. Qed.

(** The sum of an invocation, whatever its coordinates. *)
Lemma activeNeighbors_u32_sum (x y z : Z) :
  0 <= x < U32.modulus -> 0 <= y < U32.modulus ->
  Life.activeNeighbors grid cellStateIn (Vec3 x y z)
  = u32_sum W H cellStateIn x y.
Proof.
  intros Hx Hy.
  assert (Ex : x = U32.wrap (x + 0)).
  { rewrite Z.add_0_r. symmetry. by apply wrap_small. }
  assert (Ey : y = U32.wrap (y + 0)).
  { rewrite Z.add_0_r. symmetry. by apply wrap_small. }
  unfold Life.activeNeighbors. cbn [x3 y3].
  rewrite (f_equal (fun v => Life.cellActive grid cellStateIn (U32.add x 1) v) Ey).
  rewrite (f_equal (fun v => Life.cellActive grid cellStateIn (U32.sub x 1) v) Ey).
  rewrite (f_equal (fun v => Life.cellActive grid cellStateIn v (U32.sub y 1)) Ex).
  rewrite (f_equal (fun v => Life.cellActive grid cellStateIn v (U32.add y 1)) Ex).
  change (U32.add x 1) with (U32.wrap (x + 1)).
  change (U32.add y 1) with (U32.wrap (y + 1)).
  change (U32.sub x 1) with (U32.wrap (x + -1)).
  change (U32.sub y 1) with (U32.wrap (y + -1)).
  rewrite !cellActive_index, wrap_sum8.
  reflexivity.
Qed.

(** A coordinate beyond the grid reads the cells that the coordinate it
    wraps to reads, when the extent of the grid divides 2^32; a
    coordinate inside the grid is the one it wraps to. *)
Lemma wrapped_step (n a d : Z) :
  0 < n -> 0 <= a < n \/ (n | U32.modulus) ->
  U32.wrap (a mod n + d) mod n = U32.wrap (a + d) mod n.
Proof.
  intros Hn [Ha | Hdiv].
  - by rewrite (Z.mod_small a n).
  - rewrite !wrap_mod_divide by done. apply Zplus_mod_idemp_l.
Qed.

Lemma u32_sum_mod (x y : Z) :
  0 <= x < W \/ (W | U32.modulus) ->
  0 <= y < H \/ (H | U32.modulus) ->
  u32_sum W H cellStateIn (x mod W) (y mod H) = u32_sum W H cellStateIn x y.
Proof.
  intros Hx Hy. unfold u32_sum, u32_neighbors, moore, torus_index.
  cbn [map fst snd].
  by rewrite !(wrapped_step W x) , !(wrapped_step H y) by done.
Qed.

(** What an invocation stores, in terms of the index it stores to. *)
Lemma next_state_index (x y z : Z) :
  0 <= x < U32.modulus -> 0 <= y < U32.modulus ->
  0 <= x < W \/ (W | U32.modulus) ->
  0 <= y < H \/ (H | U32.modulus) ->
  let j := Life.cellIndex grid (xy (Vec3 x y z)) in
  next_state grid cellStateIn (Vec3 x y z)
  = life_rule (u32_sum W H cellStateIn (j mod W) (j / W)) (load cellStateIn j).
Proof.
  intros Hx Hy Hcol Hrow j.
  assert (Ej : j = (y mod H) * W + x mod W).
  { unfold j, xy. cbn [x3 y3]. by apply cellIndex_mod. }
  pose proof (Z.mod_pos_bound x W W_positive) as Bx.
  pose proof (Z.mod_pos_bound y H H_positive) as By.
  assert (Ec : j mod W = x mod W).
  { rewrite Ej, Z.add_comm, Z.mod_add by lia. by apply Z.mod_small. }
  assert (Er : j / W = y mod H).
  { rewrite Ej, Z.add_comm, Z.div_add by lia.
    rewrite (Z.div_small (x mod W)) by done. lia. }
  unfold next_state. fold j.
  by rewrite activeNeighbors_u32_sum, Ec, Er, u32_sum_mod by done.
Qed.

(** On a grid whose width and height divide 2^32 the cells that are read
    are the eight neighbours on the torus. *)
Lemma u32_sum_torus (x y : Z) :
  (W | U32.modulus) -> (H | U32.modulus) ->
  u32_sum W H cellStateIn x y = U32.wrap (torus_sum W H cellStateIn x y).
Proof.
  intros HW HH.
  unfold u32_sum, torus_sum, u32_neighbors, torus_neighbors, moore,
    torus_index.
  cbn [map fst snd].
  by rewrite !(wrap_mod_divide W), !(wrap_mod_divide H) by done.
Qed.

End Invocation.

(** C1, as the code has it.  The rule table holds where the invocations
    that store to the same cell agree: on a grid whose cells fit [u32]
    and which, in each direction, the dispatched workgroups tile exactly
    or whose extent divides 2^32 (a power of two).  There, whatever the
    input buffer holds, whatever the output buffer held and in whatever
    order the device runs the invocations, a simulation step leaves at
    the index of every cell: the current state of the cell when the sum
    is 2, the value 1 when it is 3, and 0 for any other sum.  The sum is
    the one [computeMain] computes: the sum, in [u32], of the states of
    the eight cells that [x + 1], [x - 1], [y + 1] and [y - 1], taken in
    [u32], wrap to; these are the eight neighbours of the cell on the
    torus, and the sum is their number alive, when width and height
    divide 2^32 and the buffer holds cell states. *)
Theorem simulation_step_rule
    (grid : vec2f) (cellStateIn cellStateOut : buffer)
    (nx ny : Z) (ids : list vec3u) (x y : Z) :
  width grid * height grid <= U32.modulus ->
  width grid <= nx * Life.WORKGROUP_SIZE <= U32.modulus ->
  height grid <= ny * Life.WORKGROUP_SIZE <= U32.modulus ->
  width grid = nx * Life.WORKGROUP_SIZE \/ (width grid | U32.modulus) ->
  height grid = ny * Life.WORKGROUP_SIZE \/ (height grid | U32.modulus) ->
  length cellStateOut = Z.to_nat (width grid * height grid) ->
  Permutation ids (Life.invocation_ids Life.WORKGROUP_SIZE nx ny) ->
  0 <= x < width grid ->
  0 <= y < height grid ->
  let i := y * width grid + x in
  let sum := u32_sum (width grid) (height grid) cellStateIn x y in
  Life.activeNeighbors grid cellStateIn (Vec3 x y 0) = sum
  /\ load (Life.run_invocations grid cellStateIn ids cellStateOut) i
     = (if sum =? 2 then load cellStateIn i
        else if sum =? 3 then 1
        else 0)
  /\ ((width grid | U32.modulus) -> (height grid | U32.modulus) ->
      cell_states cellStateIn ->
      sum = torus_sum (width grid) (height grid) cellStateIn x y).
Proof.
  intros Hfit Hnx Hny Hcol Hrow Hlen Hperm Hx Hy i sum.
  assert (HW : 0 < width grid) by lia.
  assert (HH : 0 < height grid) by lia.
  assert (Hm : U32.modulus = 4294967296) by reflexivity.
  split; [|split].
  - apply activeNeighbors_u32_sum; (done || lia).
  - assert (Ei : i mod width grid = x /\ i / width grid = y).
    { unfold i. rewrite Z.add_comm, Z.mod_add, Z.div_add by lia.
      rewrite Z.mod_small, Z.div_small by done. done. }
    destruct Ei as [Ec Er].
    rewrite (run_invocations_pointwise grid cellStateIn
               (fun j => life_rule
                           (u32_sum (width grid) (height grid) cellStateIn
                              (j mod width grid) (j / width grid))
                           (load cellStateIn j))).
    + by rewrite Ec, Er.
    + intros c Hc. rewrite Hperm in Hc.
      apply elem_of_invocation_ids in Hc as (x' & y' & -> & Hx' & Hy').
      apply next_state_index; try done; try lia.
      * destruct Hcol as [E | D]; [left; lia | by right].
      * destruct Hrow as [E | D]; [left; lia | by right].
    + apply (index_covered grid ids nx ny); try done; try lia. unfold i. nia.
    + rewrite Hlen. unfold i. nia.
  - intros DW DH Hb. unfold sum. rewrite u32_sum_torus by done.
    apply wrap_small.
    pose proof (torus_sum_range (width grid) (height grid) cellStateIn x y Hb).
    lia.
Qed.

(** X1. The simulation shader stays inside its buffers.  On a grid with
    at least one column and one row whose cells fit [u32], [cellIndex] is
    below the number of cells for any coordinates whatsoever (those of an
    invocation beyond the grid and those that wrapped in [u32] too), so
    every read of [cellActive] and the store of [computeMain] fall inside
    buffers of one state per cell.  An invocation stores to the one index
    of its own cell: it keeps the length of the output buffer and leaves
    every other cell of it as it was. *)
Theorem computeMain_in_bounds
    (grid : vec2f) (cellStateIn cellStateOut : buffer) (cell : vec3u) :
  0 < width grid ->
  0 < height grid ->
  width grid * height grid <= U32.modulus ->
  let n := width grid * height grid in
  let i := Life.cellIndex grid (xy cell) in
  let out := Life.computeMain grid cellStateIn cell cellStateOut in
  (forall x y, 0 <= Life.cellIndex grid (Vec2 x y) < n)
  /\ 0 <= i < n
  /\ length out = length cellStateOut
  /\ (forall j, 0 <= j -> j <> i -> load out j = load cellStateOut j).
Proof.
  intros HW HH Hfit. cbv zeta.
  split; [|split; [|split]].
  - intros x y. by apply cellIndex_lt.
  - by apply cellIndex_lt.
  - rewrite computeMain_store. apply length_store.
  - intros j Hj Hne. rewrite computeMain_store.
    apply load_store_ne.
    pose proof (cellIndex_range grid (xy cell)) as Hr. lia.
Qed.

(** X2. The grid size survives the trip through the uniform buffer.  The
    script stores [GRID_SIZE] as two [f32] numbers and the simulation
    shader converts them back with [u32(grid.x)] and [u32(grid.y)]: for
    every grid size from 0 to 2^24 the shader gets the size back exactly,
    so no two such sizes give the same uniform. *)
Theorem grid_uniform_round_trip (gridSize : Z) :
  0 <= gridSize <= 2 ^ 24 ->
  width (Life.uniformArray gridSize) = gridSize
  /\ height (Life.uniformArray gridSize) = gridSize
  /\ (forall g, 0 <= g <= 2 ^ 24 ->
        Life.uniformArray g = Life.uniformArray gridSize -> g = gridSize).
Proof.
  intros Hg.
  assert (R : forall g, 0 <= g <= 2 ^ 24 -> width (Life.uniformArray g) = g).
  { intros g Hg'. unfold width, Life.uniformArray. cbn [vx].
    by apply to_u32_of_Z. }
  split; [|split].
  - by apply R.
  - unfold height, Life.uniformArray. cbn [vy]. by apply to_u32_of_Z.
  - intros g Hg' E. rewrite <- (R g Hg'), <- (R gridSize Hg). by rewrite E.
Qed.

(** X3. The dispatch of [render] reaches every cell.  For every grid size
    whose square fits [u32], in whatever order the device runs them: no
    invocation id occurs twice, every index of the grid is the index of
    some invocation, and the invocations have pairwise different indices
    exactly when the grid size is a multiple of the workgroup size;
    otherwise some cell is computed by more than one invocation. *)
Theorem dispatch_covers_grid (gridSize : Z) (ids : list vec3u) :
  0 < gridSize ->
  gridSize * gridSize <= U32.modulus ->
  Life.dispatch_order gridSize ids ->
  let index c := Life.cellIndex (Life.uniformArray gridSize) (xy c) in
  NoDup ids
  /\ (forall j, 0 <= j < gridSize * gridSize ->
        exists c, c ∈ ids /\ index c = j)
  /\ ((forall c c', c ∈ ids -> c' ∈ ids -> index c = index c' -> c = c')
      <-> gridSize mod Life.WORKGROUP_SIZE = 0).
Proof.
  intros Hg Hfit Hperm index.
  destruct (page_grid gridSize Hg Hfit) as (EW & EH & _).
  pose proof (workgroupCount_ceil gridSize) as Hceil.
  assert (Hidx : forall x y,
             index (Vec3 x y 0) = (y mod gridSize) * gridSize + x mod gridSize).
  { intros x y. unfold index, xy. cbn [x3 y3].
    rewrite cellIndex_mod; rewrite ?EW, ?EH; done. }
  split; [|split].
  - unfold Life.dispatch_order in Hperm. rewrite Hperm.
    apply NoDup_invocation_ids.
  - intros j Hj.
    apply (index_covered _ _ (Life.workgroupCount gridSize)
             (Life.workgroupCount gridSize));
      rewrite ?EW, ?EH; (done || lia).
  - unfold Life.dispatch_order in Hperm. split.
    + intros Huniq.
      destruct (decide (gridSize mod Life.WORKGROUP_SIZE = 0)) as [|Hne];
        [done | exfalso].
      assert (Hlt : gridSize
                    < Life.workgroupCount gridSize * Life.WORKGROUP_SIZE).
      { destruct (decide (Life.workgroupCount gridSize * Life.WORKGROUP_SIZE
                          = gridSize)) as [E|]; [|lia].
        contradict Hne. rewrite <- E. apply Z.mod_mul. done. }
      assert (E : Vec3 gridSize 0 0 = Vec3 0 0 0 :> vec3u).
      { apply Huniq.
        - rewrite Hperm. apply elem_of_invocation_ids.
          exists gridSize, 0. repeat split; lia.
        - rewrite Hperm. apply elem_of_invocation_ids.
          exists 0, 0. repeat split; lia.
        - rewrite !Hidx, Z.mod_same by lia. done. }
      injection E. lia.
    + intros Hdiv c c' Hc Hc' E.
      rewrite Hperm in Hc, Hc'.
      apply elem_of_invocation_ids in Hc as (x & y & -> & Hx & Hy).
      apply elem_of_invocation_ids in Hc' as (x' & y' & -> & Hx' & Hy').
      rewrite workgroupCount_exact in Hx, Hy, Hx', Hy' by done.
      rewrite !Hidx in E. rewrite !Z.mod_small in E by done.
      assert (y = y') by nia. assert (x = x') by nia. by subst.
Qed.

(** ** The next generation *)

Lemma length_life_step (W H : Z) (b : buffer) :
  length (life_step W H b) = Z.to_nat (W * H).
Proof. unfold life_step. by rewrite length_map, length_seqZ. Qed.

(** On a grid whose width and height divide 2^32, a dispatch of enough
    workgroups leaves the next generation of the torus, whatever the
    order of its invocations and whatever the output buffer held. *)
Lemma dispatch_conway
    (grid : vec2f) (cellStateIn : buffer) (nx ny : Z) (ids : list vec3u)
    (out : buffer) :
  (width grid | U32.modulus) ->
  (height grid | U32.modulus) ->
  width grid * height grid <= U32.modulus ->
  cell_states cellStateIn ->
  width grid <= nx * Life.WORKGROUP_SIZE <= U32.modulus ->
  height grid <= ny * Life.WORKGROUP_SIZE <= U32.modulus ->
  Permutation ids (Life.invocation_ids Life.WORKGROUP_SIZE nx ny) ->
  length out = Z.to_nat (width grid * height grid) ->
  Life.run_invocations grid cellStateIn ids out
  = life_step (width grid) (height grid) cellStateIn.
Proof.
  intros HW HH Hfit Hb Hnx Hny Hperm Hlen.
  pose proof (W_pos grid HW) as HWp. pose proof (H_pos grid HH) as HHp.
  apply buffer_ext.
  { by rewrite length_run_invocations, length_life_step. }
  rewrite length_run_invocations, Hlen. intros j Hj.
  unfold life_step. rewrite load_map_seqZ by lia.
  apply (run_invocations_pointwise grid cellStateIn
           (fun j => life_rule
                       (torus_sum (width grid) (height grid) cellStateIn
                          (j mod width grid) (j / width grid))
                       (load cellStateIn j))).
  - intros c Hc. rewrite Hperm in Hc.
    apply elem_of_invocation_ids in Hc as (x & y & -> & Hx & Hy).
    apply next_state_torus; (done || lia).
  - apply (index_covered grid ids nx ny); (done || lia).
  - lia.
Qed.

(** X4. On a grid that the workgroups tile exactly, a simulation step
    is determinate: whatever the input buffer holds, two runs of the
    dispatch that differ in the order of the invocations and in the old
    content of the output buffer leave the same buffer, the one that holds
    at the index of every cell what the invocation of that cell stores. *)
Theorem dispatch_order_independent
    (grid : vec2f) (cellStateIn : buffer) (nx ny : Z)
    (ids ids' : list vec3u) (out out' : buffer) :
  width grid = nx * Life.WORKGROUP_SIZE ->
  height grid = ny * Life.WORKGROUP_SIZE ->
  width grid * height grid <= U32.modulus ->
  Permutation ids (Life.invocation_ids Life.WORKGROUP_SIZE nx ny) ->
  Permutation ids' (Life.invocation_ids Life.WORKGROUP_SIZE nx ny) ->
  length out = Z.to_nat (width grid * height grid) ->
  length out' = Z.to_nat (width grid * height grid) ->
  Life.run_invocations grid cellStateIn ids out
  = Life.run_invocations grid cellStateIn ids' out'
  /\ Life.run_invocations grid cellStateIn ids out
     = map (fun j => next_state grid cellStateIn
                       (Vec3 (j mod width grid) (j / width grid) 0))
           (seqZ 0 (width grid * height grid)).
Proof.
  intros HW HH Hfit Hperm Hperm' Hlen Hlen'.
  set (f := fun j => next_state grid cellStateIn
                       (Vec3 (j mod width grid) (j / width grid) 0)).
  assert (Hone : forall ids0 out0,
             Permutation ids0 (Life.invocation_ids Life.WORKGROUP_SIZE nx ny) ->
             length out0 = Z.to_nat (width grid * height grid) ->
             Life.run_invocations grid cellStateIn ids0 out0
             = map f (seqZ 0 (width grid * height grid))).
  { intros ids0 out0 Hp Hl. apply buffer_ext.
    { by rewrite length_run_invocations, length_map, length_seqZ. }
    rewrite length_run_invocations, Hl. intros j Hj.
    assert (Hj' : 0 <= j < width grid * height grid) by (clear - Hj; lia).
    rewrite load_map_seqZ by done.
    pose proof (to_u32_range (vx grid)) as RW. fold (width grid) in RW.
    pose proof (to_u32_range (vy grid)) as RH. fold (height grid) in RH.
    assert (HWp : 0 < width grid) by nia.
    assert (HHp : 0 < height grid) by nia.
    apply (run_invocations_pointwise grid cellStateIn f).
    - intros c Hc. rewrite Hp in Hc.
      apply elem_of_invocation_ids in Hc as (x & y & -> & Hx & Hy).
      unfold f, xy. cbn [x3 y3]. rewrite cellIndex_mod by done.
      rewrite <- HW in Hx. rewrite <- HH in Hy.
      rewrite (Z.mod_small x), (Z.mod_small y) by done.
      rewrite Z.add_comm, Z.mod_add, Z.div_add by lia.
      rewrite Z.mod_small, Z.div_small by done. done.
    - apply (index_covered grid ids0 nx ny); (done || lia).
    - by rewrite Hl. }
  split; [|by apply Hone].
  by rewrite (Hone ids out), (Hone ids' out').
Qed.

(** X5. On a grid whose width and height divide 2^32 (the powers of two,
    as the 64 of the page), a simulation step is one generation of the
    game on the torus.  For a buffer of cell states, a dispatch of enough
    workgroups to cover the grid (also one that reaches past the grid, as
    for a grid smaller than a workgroup), in any order of the invocations
    and whatever the output buffer held, leaves in the output buffer, for
    every cell, the state that the rule table gives for the sum of its
    eight neighbours on the torus; the result holds cell states again. *)
Theorem simulation_is_conway
    (grid : vec2f) (cellStateIn : buffer) (nx ny : Z) (ids : list vec3u)
    (out : buffer) :
  (width grid | U32.modulus) ->
  (height grid | U32.modulus) ->
  width grid * height grid <= U32.modulus ->
  cell_states cellStateIn ->
  width grid <= nx * Life.WORKGROUP_SIZE <= U32.modulus ->
  height grid <= ny * Life.WORKGROUP_SIZE <= U32.modulus ->
  Permutation ids (Life.invocation_ids Life.WORKGROUP_SIZE nx ny) ->
  length out = Z.to_nat (width grid * height grid) ->
  let next := Life.run_invocations grid cellStateIn ids out in
  next = life_step (width grid) (height grid) cellStateIn
  /\ (forall x y, 0 <= x < width grid -> 0 <= y < height grid ->
        load next (y * width grid + x)
        = life_rule (torus_sum (width grid) (height grid) cellStateIn x y)
                    (load cellStateIn (y * width grid + x)))
  /\ cell_states next.
Proof.
  intros HW HH Hfit Hb Hnx Hny Hperm Hlen next.
  assert (E : next = life_step (width grid) (height grid) cellStateIn)
    by (by apply (dispatch_conway grid cellStateIn nx ny)).
  split; [done|]. split.
  - intros x y Hx Hy. rewrite E. unfold life_step.
    rewrite (Z.add_comm (y * width grid) x).
    rewrite load_map_seqZ by nia.
    rewrite Z.mod_add, Z.div_add by lia.
    by rewrite Z.mod_small, Z.div_small by done.
  - rewrite E. unfold life_step, cell_states. apply Forall_fmap, Forall_forall.
    intros j _. cbn. unfold life_rule.
    destruct (_ =? 2); [by apply load_bit|].
    destruct (_ =? 3); [by right | by left].
Qed.

(** ** The two buffers over the ticks *)

Lemma parity_cases (s : Z) :
  0 <= s ->
  (Z.to_nat (s mod 2) = 0%nat /\ Z.to_nat ((s + 1) mod 2) = 1%nat)
  \/ (Z.to_nat (s mod 2) = 1%nat /\ Z.to_nat ((s + 1) mod 2) = 0%nat).
Proof.
  intros Hs. rewrite (Z.add_mod s 1 2) by lia.
  pose proof (Z.mod_pos_bound s 2 ltac:(lia)) as B.
  assert (s mod 2 = 0 \/ s mod 2 = 1) as [-> | ->] by lia; [left | right]; done.
Qed.

(** A tick replaces the buffer that is not read by the outcome of the
    dispatch. *)
Lemma tick_storage (gridSize : Z) (ids : list vec3u) (st : Life.state) :
  0 <= Life.step st ->
  length (Life.storage (Life.device st)) = 2%nat ->
  let current := Z.to_nat (Life.step st mod 2) in
  let next := Z.to_nat ((Life.step st + 1) mod 2) in
  let before := Life.storage (Life.device st) in
  Life.storage (Life.device (Life.render gridSize ids st))
  = <[next :=
        Life.run_invocations (Life.uniformArray gridSize)
          (Life.buffer_at before current) ids (Life.buffer_at before next)]>
      before.
Proof.
  intros Hs Hlen current next before.
  destruct (bindGroup_at_spec gridSize (Life.step st) Hs) as (E0 & E1 & E2).
  rewrite render_storage, dispatch_shared.
  - rewrite E0, E1, E2. reflexivity.
  - rewrite E1, E2. destruct (parity_cases _ Hs) as [[-> ->] | [-> ->]]; lia.
  - rewrite E2, Hlen. destruct (parity_cases _ Hs) as [[_ ->] | [_ ->]]; lia.
Qed.

Lemma buffer_at_Forall (P : buffer -> Prop) (mem : list buffer) (k : nat) :
  Forall P mem -> (k < length mem)%nat -> P (Life.buffer_at mem k).
Proof.
  intros HP Hk. unfold Life.buffer_at.
  destruct (lookup_lt_is_Some_2 mem k Hk) as [b Hb]. rewrite Hb.
  by apply (Forall_lookup_1 P mem k b).
Qed.

(** What every dispatch keeps of the two buffers, every tick keeps. *)
Lemma storage_invariant
    (P : buffer -> Prop) (gridSize : Z) (schedule : list (list vec3u))
    (st : Life.state) :
  (forall cellStateIn ids cellStateOut,
     P cellStateIn -> P cellStateOut ->
     P (Life.run_invocations (Life.uniformArray gridSize)
          cellStateIn ids cellStateOut)) ->
  0 <= Life.step st ->
  length (Life.storage (Life.device st)) = 2%nat ->
  Forall P (Life.storage (Life.device st)) ->
  let st' := foldl (fun st ids => Life.render gridSize ids st) st schedule in
  length (Life.storage (Life.device st')) = 2%nat
  /\ Forall P (Life.storage (Life.device st')).
Proof.
  intros Hkeep Hs Hlen HP.
  induction schedule as [|ids schedule IH] using rev_ind; [done|].
  cbv zeta in IH |- *. rewrite foldl_snoc.
  destruct IH as [IHlen IHP].
  set (st1 := foldl (fun st ids => Life.render gridSize ids st) st schedule)
    in *.
  assert (Hs1 : 0 <= Life.step st1).
  { unfold st1. rewrite step_foldl_render. lia. }
  split; [by apply render_storage_length|].
  rewrite tick_storage by done.
  destruct (parity_cases (Life.step st1) Hs1) as [[-> ->] | [-> ->]];
    (apply Forall_insert; [done|]);
    apply Hkeep; apply buffer_at_Forall; (done || lia).
Qed.

Section Seeds.

Variable random : nat -> F64.f64.

Lemma seed_loop_cell_states (n : nat) (i : Z) (calls : nat) (a : buffer) :
  cell_states a -> cell_states (snd (Life.seed_loop random n i calls a)).
Proof.
  revert i calls a. induction n as [|n IH]; intros i calls a Ha; [done|].
  cbn [Life.seed_loop]. apply IH. unfold store, cell_states.
  destruct (decide (Z.to_nat i < length a)%nat).
  - apply Forall_insert; [done|]. destruct (F64.gt _ _); auto.
  - by rewrite list_insert_ge by lia.
Qed.

(** The seeding loop when all its draws fall on the same side of 0.6. *)
Lemma seed_loop_uniform (b : bool) (n : Z) :
  (forall k, (k < Z.to_nat n)%nat ->
     F64.gt (random k) (F64.of_ratio 6 10) = b) ->
  snd (Life.seed_loop random (length (Life.zeroed n)) 0 0 (Life.zeroed n))
  = replicate (Z.to_nat n) (if b then 1 else 0).
Proof.
  intros Hb. rewrite length_zeroed.
  destruct (seed_loop_spec random (Z.to_nat n) 0 0 (Life.zeroed n)
              ltac:(lia)) as (_ & E2 & E3 & _).
  rewrite length_zeroed in E2, E3.
  pose proof (buffer_replicate
                (snd (Life.seed_loop random (Z.to_nat n) 0 0 (Life.zeroed n)))
                (if b then 1 else 0)) as R.
  rewrite E2 in R. apply R. intros j Hj.
  rewrite E3 by lia. rewrite Z.sub_0_r, Nat.add_0_l, Hb by lia. done.
Qed.

End Seeds.

Lemma zeroed_cell_states (n : Z) : cell_states (Life.zeroed n).
Proof. apply Forall_replicate. by left. Qed.

Lemma startup_storage (gridSize : Z) (random : nat -> F64.f64) :
  let n := gridSize * gridSize in
  Life.storage (Life.device (Life.startup gridSize random))
  = [ snd (Life.seed_loop random (length (Life.zeroed n)) 0 0 (Life.zeroed n));
      Life.zeroed n ].
Proof.
  intros n. rewrite startup_unfold. cbv zeta. cbn [Life.storage Life.device].
  fold n. rewrite writeBuffer_whole; [done|].
  by destruct (seed_loop_spec random (length (Life.zeroed n)) 0 0
                 (Life.zeroed n) ltac:(lia)) as (_ & E2 & _).
Qed.

(** ** The glider on the 5 x 5 grid *)

Lemma same_cells_refl (n : Z) (a : buffer) : same_cells n a a = true.
Proof.
  unfold same_cells. apply forallb_forall. intros j _. apply Z.eqb_refl.
Qed.

(** Of the 25 offsets, (1, 1) is the only one at which the reversed order
    leaves the translated glider. *)
Lemma glider_reversed_offsets :
  forallb
    (fun dx =>
       forallb
         (fun dy =>
            Bool.eqb
              (same_cells 25 (glider_reversed dx dy)
                 (cells_buffer 5 5 (translate (dx + 1) (dy + 1) glider)))
              ((dx =? 1) && (dy =? 1)))
         (seqZ 0 5))
    (seqZ 0 5)
  = true.
Proof. vm_compute. reflexivity. Qed.

(** A tick at an even and at an odd value of [step]. *)
Lemma tick_even (gridSize : Z) (ids : list vec3u) (st : Life.state)
    (a b : buffer) :
  0 <= Life.step st -> Life.step st mod 2 = 0 ->
  Life.storage (Life.device st) = [a; b] ->
  Life.storage (Life.device (Life.render gridSize ids st))
  = [a; Life.run_invocations (Life.uniformArray gridSize) a ids b].
Proof.
  intros Hs Heven Hmem.
  rewrite tick_storage by (done || by rewrite Hmem).
  rewrite Z.add_mod, Heven, Hmem by lia. reflexivity.
Qed.

Lemma tick_odd (gridSize : Z) (ids : list vec3u) (st : Life.state)
    (a b : buffer) :
  0 <= Life.step st -> Life.step st mod 2 = 1 ->
  Life.storage (Life.device st) = [a; b] ->
  Life.storage (Life.device (Life.render gridSize ids st))
  = [Life.run_invocations (Life.uniformArray gridSize) b ids a; b].
Proof.
  intros Hs Hodd Hmem.
  rewrite tick_storage by (done || by rewrite Hmem).
  rewrite Z.add_mod, Hodd, Hmem by lia. reflexivity.
Qed.

(** The two buffers after the four ticks of [glider_run]. *)
Lemma glider_run_storage (dx dy : Z) (s1 s2 s3 s4 : list vec3u) (B : buffer)
    (calls : nat) (canvas0 : list VertexOutput) :
  let grid := Life.uniformArray 5 in
  let A0 := cells_buffer 5 5 (translate dx dy glider) in
  let B1 := Life.run_invocations grid A0 s1 B in
  let A2 := Life.run_invocations grid B1 s2 A0 in
  let B3 := Life.run_invocations grid A2 s3 B1 in
  Life.storage (Life.device (glider_run dx dy s1 s2 s3 s4 B calls canvas0))
  = [Life.run_invocations grid B3 s4 A2; B3].
Proof.
  intros grid A0 B1 A2 B3. unfold glider_run. cbn [foldl].
  set (st0 := {| Life.random_calls := calls; Life.step := 0;
                 Life.device := {| Life.storage := [A0; B];
                                   Life.canvas := canvas0 |} |}).
  set (st1 := Life.render 5 s1 st0).
  set (st2 := Life.render 5 s2 st1).
  set (st3 := Life.render 5 s3 st2).
  assert (E1 : Life.storage (Life.device st1) = [A0; B1])
    by (by apply tick_even).
  assert (E2 : Life.storage (Life.device st2) = [A2; B1])
    by (by apply tick_odd).
  assert (E3 : Life.storage (Life.device st3) = [A2; B3])
    by (by apply tick_even).
  by apply tick_odd.
Qed.

(** C7, as the code has it.  A 5 x 5 grid, buffer A holding the glider at
    one of the 25 offsets and buffer B anything.  That after four ticks,
    in whatever order the device runs the invocations of each dispatch,
    the current buffer has exactly the cells of the glider translated by
    (1, 1) alive, holds when the glider is seeded at offset (1, 1), and at
    no other offset: everywhere else the glider meets row 0 or column 0
    within the four ticks, where the invocations beyond the grid store to
    the same cells from another neighbourhood, and some order of the
    invocations leaves another grid. *)
Theorem glider_5x5 (dx dy : Z) :
  0 <= dx < 5 ->
  0 <= dy < 5 ->
  (forall (s1 s2 s3 s4 : list vec3u) (B : buffer) (calls : nat)
          (canvas0 : list VertexOutput),
     Life.dispatch_order 5 s1 ->
     Life.dispatch_order 5 s2 ->
     Life.dispatch_order 5 s3 ->
     Life.dispatch_order 5 s4 ->
     length B = 25%nat ->
     let st4 := glider_run dx dy s1 s2 s3 s4 B calls canvas0 in
     Life.step st4 = 4
     /\ Life.buffer_at (Life.storage (Life.device st4))
          (Z.to_nat (Life.step st4 mod 2))
        = cells_buffer 5 5 (translate (dx + 1) (dy + 1) glider))
  <-> dx = 1 /\ dy = 1.
Proof.
  intros Hdx Hdy. split.
  - intros Hall.
    assert (Horder : Life.dispatch_order 5
                       (rev (Life.invocation_ids Life.WORKGROUP_SIZE
                               (Life.workgroupCount 5)
                               (Life.workgroupCount 5)))).
    { apply Permutation_sym, Permutation_rev. }
    destruct (Hall _ _ _ _ (replicate 25 0) 25%nat []
                Horder Horder Horder Horder eq_refl) as [Es Ec].
    rewrite Es, glider_run_storage in Ec.
    change (Z.to_nat (4 mod 2)) with 0%nat in Ec.
    rewrite buffer_at_0 in Ec.
    assert (Er : glider_reversed dx dy
                 = cells_buffer 5 5 (translate (dx + 1) (dy + 1) glider))
      by exact Ec.
    clear Ec.
    pose proof glider_reversed_offsets as Htable.
    rewrite forallb_forall in Htable.
    specialize (Htable dx ltac:(apply list_elem_of_In, elem_of_seqZ; lia)).
    rewrite forallb_forall in Htable.
    specialize (Htable dy ltac:(apply list_elem_of_In, elem_of_seqZ; lia)).
    rewrite Er, same_cells_refl in Htable.
    apply Bool.eqb_prop in Htable. symmetry in Htable.
    apply andb_prop in Htable as [E1 E2].
    by apply Z.eqb_eq in E1, E2.
  - intros [-> ->] s1 s2 s3 s4 B calls canvas0 H1 H2 H3 H4 HB st4.
    destruct (glider_ticks B calls canvas0 HB [s1; s2; s3; s4])
      as (Es & _ & Ec & _).
    + repeat constructor; assumption.
    + cbn [length]. lia.
    + split; [exact Es|].
      assert (E : translate (1 + 1) (1 + 1) glider
                  = translate 1 1 (translate 1 1 glider)) by reflexivity.
      rewrite E, <- glider_step_4. exact Ec.
Qed.

(** ** Grids that die *)

(** On a dead input every invocation finds no neighbour and stores 0. *)
Lemma next_state_dead (grid : vec2f) (n : nat) (c : vec3u) :
  next_state grid (replicate n 0) c = 0.
Proof.
  unfold next_state, Life.activeNeighbors, Life.cellActive.
  rewrite !load_replicate. reflexivity.
Qed.

(** On a grid of live cells every invocation counts eight neighbours and
    stores 0. *)
Lemma next_state_crowded (grid : vec2f) (c : vec3u) :
  0 < width grid -> 0 < height grid ->
  width grid * height grid <= U32.modulus ->
  next_state grid (replicate (Z.to_nat (width grid * height grid)) 1) c = 0.
Proof.
  intros HW HH Hfit.
  assert (L : forall x y,
             Life.cellActive grid
               (replicate (Z.to_nat (width grid * height grid)) 1) x y = 1).
  { intros x y. unfold Life.cellActive, load.
    pose proof (cellIndex_lt grid x y HW HH Hfit).
    rewrite lookup_replicate_2 by lia. done. }
  unfold next_state, Life.activeNeighbors. rewrite !L. reflexivity.
Qed.

Lemma dispatch_dead (grid : vec2f) (n m : nat) (ids : list vec3u) :
  Life.run_invocations grid (replicate n 0) ids (replicate m 0)
  = replicate m 0.
Proof.
  induction ids as [|c ids IH] using rev_ind; [done|].
  rewrite run_invocations_snoc, IH, computeMain_store, next_state_dead.
  unfold store.
  destruct (decide (Z.to_nat (Life.cellIndex grid (xy c)) < m)%nat).
  - apply list_insert_id. by apply lookup_replicate_2.
  - apply list_insert_ge. rewrite length_replicate. lia.
Qed.

Lemma run_snoc (gridSize : Z) (random : nat -> F64.f64)
    (schedule : list (list vec3u)) (ids : list vec3u) :
  Life.run gridSize random (schedule ++ [ids])
  = Life.render gridSize ids (Life.run gridSize random schedule).
Proof. unfold Life.run. by rewrite foldl_app. Qed.

Lemma run_step (gridSize : Z) (random : nat -> F64.f64)
    (schedule : list (list vec3u)) :
  Life.step (Life.run gridSize random schedule) = Z.of_nat (length schedule).
Proof. unfold Life.run. by rewrite step_foldl_render, startup_step. Qed.

Lemma buffers_invariant
    (gridSize : Z) (random : nat -> F64.f64) (schedule : list (list vec3u)) :
  let st := Life.run gridSize random schedule in
  length (Life.storage (Life.device st)) = 2%nat
  /\ Forall (fun b => length b = Z.to_nat (gridSize * gridSize)
                      /\ cell_states b)
            (Life.storage (Life.device st)).
Proof.
  unfold Life.run.
  apply (storage_invariant
           (fun b => length b = Z.to_nat (gridSize * gridSize)
                     /\ cell_states b)).
  - intros cellStateIn ids cellStateOut [_ Hin] [Hlen Hout]. split.
    + by rewrite length_run_invocations.
    + by apply run_invocations_cell_states.
  - by rewrite startup_step.
  - apply length_startup_storage.
  - rewrite startup_storage. cbv zeta.
    destruct (seed_loop_spec random
                (length (Life.zeroed (gridSize * gridSize))) 0 0
                (Life.zeroed (gridSize * gridSize)) ltac:(lia))
      as (_ & E2 & _).
    rewrite length_zeroed in E2 at 2.
    repeat apply Forall_cons_2; [split | split | apply Forall_nil_2].
    + done.
    + apply seed_loop_cell_states, zeroed_cell_states.
    + apply length_zeroed.
    + apply zeroed_cell_states.
Qed.

(** X6. The two storage buffers stay well formed for as long as the page
    runs.  After the start-up code and any number of ticks, whatever
    invocations the device ran in each of them: there are two buffers,
    each of one state per cell of the grid, and every read of either
    buffer yields 0 or 1. *)
Theorem buffers_hold_cell_states
    (gridSize : Z) (random : nat -> F64.f64) (schedule : list (list vec3u))
    (k : nat) (j : Z) :
  let mem := Life.storage (Life.device (Life.run gridSize random schedule)) in
  length mem = 2%nat
  /\ length (Life.buffer_at mem 0) = Z.to_nat (gridSize * gridSize)
  /\ length (Life.buffer_at mem 1) = Z.to_nat (gridSize * gridSize)
  /\ (load (Life.buffer_at mem k) j = 0 \/ load (Life.buffer_at mem k) j = 1).
Proof.
  intros mem.
  destruct (buffers_invariant gridSize random schedule) as [Hlen HP].
  fold mem in Hlen, HP.
  split; [done|].
  split; [apply (buffer_at_Forall _ _ _ HP); lia|].
  split; [apply (buffer_at_Forall _ _ _ HP); lia|].
  destruct (decide (k < length mem)%nat) as [Hk|Hk].
  - apply load_bit. by apply (buffer_at_Forall _ _ _ HP).
  - left. unfold Life.buffer_at. by rewrite lookup_ge_None_2 by lia.
Qed.

(** X7. A dead grid stays dead.  When no draw of the seeding loop is
    greater than 0.6, both buffers hold only zeros after the start-up
    code and after every tick, whatever invocations the device runs. *)
Theorem dead_stays_dead
    (gridSize : Z) (random : nat -> F64.f64) (schedule : list (list vec3u)) :
  (forall k, (k < Z.to_nat (gridSize * gridSize))%nat ->
     F64.gt (random k) (F64.of_ratio 6 10) = false) ->
  Life.storage (Life.device (Life.run gridSize random schedule))
  = [ Life.zeroed (gridSize * gridSize); Life.zeroed (gridSize * gridSize) ].
Proof.
  intros Hdraws.
  destruct (storage_invariant
              (fun b => b = Life.zeroed (gridSize * gridSize))
              gridSize schedule (Life.startup gridSize random))
    as [Hlen HP].
  - intros cellStateIn ids cellStateOut -> ->. apply dispatch_dead.
  - by rewrite startup_step.
  - apply length_startup_storage.
  - rewrite startup_storage. cbv zeta.
    rewrite (seed_loop_uniform random false) by done.
    repeat apply Forall_cons_2; done.
  - fold (Life.run gridSize random schedule) in Hlen, HP.
    destruct (Life.storage (Life.device (Life.run gridSize random schedule)))
      as [|a [|b [|c mem]]]; try done.
    apply Forall_cons in HP as [-> HP]. apply Forall_cons in HP as [-> _].
    done.
Qed.

(** X8. A grid of live cells dies of overcrowding at the first tick.  For
    every grid size whose square fits [u32]: when every draw of the
    seeding loop is greater than 0.6 the start-up code leaves buffer A all
    ones; the first tick leaves buffer B all zeros, whatever the order of
    the invocations; the second tick clears buffer A too, and both buffers
    hold only zeros from then on. *)
Theorem all_alive_dies
    (gridSize : Z) (random : nat -> F64.f64)
    (ids ids' : list vec3u) (rest : list (list vec3u)) :
  0 < gridSize ->
  gridSize * gridSize <= U32.modulus ->
  (forall k, (k < Z.to_nat (gridSize * gridSize))%nat ->
     F64.gt (random k) (F64.of_ratio 6 10) = true) ->
  Life.dispatch_order gridSize ids ->
  Life.dispatch_order gridSize ids' ->
  let n := Z.to_nat (gridSize * gridSize) in
  let storage schedule :=
    Life.storage (Life.device (Life.run gridSize random schedule)) in
  storage [] = [replicate n 1; replicate n 0]
  /\ storage [ids] = [replicate n 1; replicate n 0]
  /\ storage (ids :: ids' :: rest) = [replicate n 0; replicate n 0].
Proof.
  intros Hg Hfit Hdraws Hord Hord' n storage.
  destruct (page_grid gridSize Hg Hfit) as (EW & EH & Hwc).
  assert (Hcover : forall order j,
             Life.dispatch_order gridSize order -> 0 <= j < Z.of_nat n ->
             exists c, c ∈ order
                       /\ Life.cellIndex (Life.uniformArray gridSize) (xy c) = j).
  { intros order j Ho Hj.
    apply (index_covered _ order (Life.workgroupCount gridSize)
             (Life.workgroupCount gridSize));
      rewrite ?EW, ?EH; (done || lia). }
  assert (E0 : storage [] = [replicate n 1; replicate n 0]).
  { unfold storage, Life.run. cbn [foldl]. rewrite startup_storage. cbv zeta.
    by rewrite (seed_loop_uniform random true). }
  assert (E1 : storage [ids] = [replicate n 1; replicate n 0]).
  { unfold storage.
    change (Life.run gridSize random [ids])
      with (Life.render gridSize ids (Life.run gridSize random [])).
    rewrite tick_storage; rewrite ?run_step; [|done|apply length_run_storage].
    fold (storage []). rewrite E0.
    change (Z.to_nat (Z.of_nat (length (@nil (list vec3u))) mod 2)) with 0%nat.
    change (Z.to_nat ((Z.of_nat (length (@nil (list vec3u))) + 1) mod 2))
      with 1%nat.
    rewrite buffer_at_0, buffer_at_1.
    rewrite (run_invocations_uniform _ _ 0).
    - by rewrite length_replicate.
    - intros c _.
      pose proof (next_state_crowded (Life.uniformArray gridSize) c) as Hc.
      rewrite EW, EH in Hc. by apply Hc.
    - intros j Hj. rewrite length_replicate in Hj. by apply Hcover. }
  split; [done|]. split; [done|].
  assert (E2 : storage [ids; ids'] = [replicate n 0; replicate n 0]).
  { unfold storage.
    change (Life.run gridSize random [ids; ids'])
      with (Life.render gridSize ids' (Life.run gridSize random [ids])).
    rewrite tick_storage; rewrite ?run_step; [|done|apply length_run_storage].
    fold (storage [ids]). rewrite E1.
    change (Z.to_nat (Z.of_nat (length [ids]) mod 2)) with 1%nat.
    change (Z.to_nat ((Z.of_nat (length [ids]) + 1) mod 2)) with 0%nat.
    rewrite buffer_at_0, buffer_at_1.
    rewrite (run_invocations_uniform _ _ 0).
    - by rewrite length_replicate.
    - intros c _. apply next_state_dead.
    - intros j Hj. rewrite length_replicate in Hj. by apply Hcover. }
  destruct (storage_invariant (fun b => b = replicate n 0) gridSize rest
              (Life.run gridSize random [ids; ids']))
    as [Hlen HP].
  - intros cellStateIn order cellStateOut -> ->. apply dispatch_dead.
  - rewrite run_step. lia.
  - apply length_run_storage.
  - fold (storage [ids; ids']). rewrite E2. repeat apply Forall_cons_2; done.
  - change (foldl (fun st order => Life.render gridSize order st)
              (Life.run gridSize random [ids; ids']) rest)
      with (Life.run gridSize random (ids :: ids' :: rest)) in Hlen, HP.
    fold (storage (ids :: ids' :: rest)) in Hlen, HP.
    destruct (storage (ids :: ids' :: rest)) as [|a [|b [|c mem]]]; try done.
    apply Forall_cons in HP as [-> HP]. apply Forall_cons in HP as [-> _].
    done.
Qed.

(** X9. The ticks compose to generations.  On a grid whose size divides
    2^32 and whose square fits [u32] (the 64 of the page), after [n] ticks,
    in whatever order the device ran the invocations of each dispatch,
    [step] is [n] and the buffer that the next tick reads and the canvas
    shows, [cellStateStorage[n % 2]], holds the [n]-th generation of the
    seed on the torus; what the other buffer held never shows. *)
Theorem ticks_are_generations
    (gridSize : Z) (random : nat -> F64.f64) (schedule : list (list vec3u)) :
  0 < gridSize ->
  (gridSize | U32.modulus) ->
  gridSize * gridSize <= U32.modulus ->
  Forall (Life.dispatch_order gridSize) schedule ->
  let st := Life.run gridSize random schedule in
  let seed :=
    Life.buffer_at (Life.storage (Life.device (Life.startup gridSize random)))
      0 in
  Life.step st = Z.of_nat (length schedule)
  /\ Life.buffer_at (Life.storage (Life.device st))
       (Z.to_nat (Life.step st mod 2))
     = Nat.iter (length schedule) (life_step gridSize gridSize) seed.
Proof.
  intros Hg Hdiv Hfit Hsched. cbv zeta.
  split; [apply run_step|].
  destruct (page_grid gridSize Hg Hfit) as (EW & EH & Hwc).
  induction schedule as [|ids schedule IH] using rev_ind.
  - unfold Life.run. cbn [foldl length Nat.iter nat_rect].
    by rewrite startup_step.
  - apply Forall_app in Hsched as [Hsched Hids].
    apply Forall_cons in Hids as [Hids _].
    specialize (IH Hsched).
    destruct (buffers_invariant gridSize random schedule) as [Hlen HP].
    pose proof (run_step gridSize random schedule) as Hstep.
    assert (Hs : 0 <= Life.step (Life.run gridSize random schedule)) by lia.
    rewrite run_snoc, render_step, length_app, Nat.add_comm.
    cbn [length Nat.add]. rewrite Nat.iter_succ, <- IH.
    rewrite tick_storage by done.
    set (st := Life.run gridSize random schedule) in *.
    assert (Hnext : (Z.to_nat ((Life.step st + 1) mod 2) < 2)%nat).
    { destruct (parity_cases _ Hs) as [[_ ->] | [_ ->]]; lia. }
    assert (Hcur : (Z.to_nat (Life.step st mod 2) < 2)%nat).
    { destruct (parity_cases _ Hs) as [[-> _] | [-> _]]; lia. }
    rewrite buffer_at_insert_eq by lia.
    destruct (buffer_at_Forall _ _ _ HP ltac:(rewrite Hlen; exact Hcur))
      as [_ Hcells].
    destruct (buffer_at_Forall _ _ _ HP ltac:(rewrite Hlen; exact Hnext))
      as [Hout _].
    pose proof (dispatch_conway (Life.uniformArray gridSize)) as Hconway.
    rewrite EW, EH in Hconway.
    by apply (Hconway _ (Life.workgroupCount gridSize)
                (Life.workgroupCount gridSize)).
Qed.

(** ** Moved patterns *)

Section Shift.

Variables W H dx dy : Z.
Variable b : buffer.
Hypothesis W_positive : 0 < W.
Hypothesis H_positive : 0 < H.

Lemma torus_index_range (x y : Z) : 0 <= torus_index W H x y < W * H.
Proof.
  unfold torus_index.
  pose proof (Z.mod_pos_bound x W W_positive).
  pose proof (Z.mod_pos_bound y H H_positive). nia.
Qed.

Lemma torus_index_coords (x y : Z) :
  torus_index W H x y mod W = x mod W
  /\ torus_index W H x y / W = y mod H.
Proof.
  unfold torus_index.
  pose proof (Z.mod_pos_bound x W W_positive).
  rewrite Z.add_comm, Z.mod_add, Z.div_add by lia.
  rewrite Z.mod_mod, Z.div_small by (done || lia). split; lia.
Qed.

Lemma torus_index_sub (x y : Z) :
  torus_index W H (x mod W - dx) (y mod H - dy)
  = torus_index W H (x - dx) (y - dy).
Proof.
  unfold torus_index.
  by rewrite (Zminus_mod_idemp_l x dx W), (Zminus_mod_idemp_l y dy H).
Qed.

Lemma load_shift (x y : Z) :
  load (shift W H dx dy b) (torus_index W H x y)
  = load b (torus_index W H (x - dx) (y - dy)).
Proof.
  unfold shift. rewrite load_map_seqZ by apply torus_index_range.
  destruct (torus_index_coords x y) as [-> ->].
  by rewrite torus_index_sub.
Qed.

Lemma torus_sum_shift (x y : Z) :
  torus_sum W H (shift W H dx dy b) x y
  = torus_sum W H b (x - dx) (y - dy).
Proof.
  unfold torus_sum, torus_neighbors, moore. cbn [map fst snd].
  rewrite !load_shift.
  by replace (x + 1 - dx) with (x - dx + 1) by lia;
     replace (x + 0 - dx) with (x - dx + 0) by lia;
     replace (x + -1 - dx) with (x - dx + -1) by lia;
     replace (y + 1 - dy) with (y - dy + 1) by lia;
     replace (y + 0 - dy) with (y - dy + 0) by lia;
     replace (y + -1 - dy) with (y - dy + -1) by lia.
Qed.

Lemma life_step_shift :
  life_step W H (shift W H dx dy b) = shift W H dx dy (life_step W H b).
Proof.
  unfold life_step at 1. unfold shift at 3.
  apply map_ext_in. intros j Hj.
  apply list_elem_of_In, elem_of_seqZ in Hj.
  assert (Ej : j = torus_index W H (j mod W) (j / W)).
  { unfold torus_index.
    assert (0 <= j / W < H).
    { split; [apply Z.div_pos; lia|]. apply Z.div_lt_upper_bound; lia. }
    rewrite Z.mod_mod, (Z.mod_small (j / W)) by (done || lia).
    pose proof (Z.div_mod j W ltac:(lia)). lia. }
  rewrite torus_sum_shift.
  rewrite Ej at 3. rewrite load_shift.
  unfold life_step. rewrite load_map_seqZ by apply torus_index_range.
  destruct (torus_index_coords (j mod W - dx) (j / W - dy)) as [-> ->].
  by rewrite torus_sum_mod.
Qed.

Lemma shift_cell_states : cell_states b -> cell_states (shift W H dx dy b).
Proof.
  intros Hb. unfold shift, cell_states. apply Forall_fmap, Forall_forall.
  intros j _. by apply load_bit.
Qed.

End Shift.

(** X10. The rule of the game does not depend on where a pattern lies.
    On a grid whose width and height divide 2^32, simulating a buffer of
    cell states whose cells were moved by [(dx, dy)] on the torus gives
    the simulated buffer moved by [(dx, dy)], whatever the orders of the
    invocations and the old contents of the output buffers. *)
Theorem simulation_translates
    (grid : vec2f) (cellStateIn : buffer) (nx ny dx dy : Z)
    (ids ids' : list vec3u) (out out' : buffer) :
  (width grid | U32.modulus) ->
  (height grid | U32.modulus) ->
  width grid * height grid <= U32.modulus ->
  cell_states cellStateIn ->
  width grid <= nx * Life.WORKGROUP_SIZE <= U32.modulus ->
  height grid <= ny * Life.WORKGROUP_SIZE <= U32.modulus ->
  Permutation ids (Life.invocation_ids Life.WORKGROUP_SIZE nx ny) ->
  Permutation ids' (Life.invocation_ids Life.WORKGROUP_SIZE nx ny) ->
  length out = Z.to_nat (width grid * height grid) ->
  length out' = Z.to_nat (width grid * height grid) ->
  let moved := shift (width grid) (height grid) dx dy in
  Life.run_invocations grid (moved cellStateIn) ids' out'
  = moved (Life.run_invocations grid cellStateIn ids out).
Proof.
  intros HW HH Hfit Hb Hnx Hny Hperm Hperm' Hlen Hlen' moved.
  pose proof (W_pos grid HW) as HWp. pose proof (H_pos grid HH) as HHp.
  rewrite (dispatch_conway grid cellStateIn nx ny ids out) by done.
  rewrite (dispatch_conway grid (moved cellStateIn) nx ny ids' out');
    try done.
  - by apply life_step_shift.
  - by apply shift_cell_states.
Qed.

(** * The canvas *)
(** A draw lays the instances out one after the other: the block of the
    [i]-th instance of a draw of [k] vertices. *)
Lemma flat_map_block {A B} (f : A -> list B) (k : nat) (l : list A)
    (i : nat) (x : A) :
  (forall a, length (f a) = k) ->
  l !! i = Some x ->
  take k (drop (k * i) (flat_map f l)) = f x.
Proof.
  intros Hk. revert i. induction l as [|a l IH]; intros i Hi; [done|].
  cbn [flat_map]. destruct i as [|i].
  - injection Hi as ->. rewrite Nat.mul_0_r. cbn [drop].
    by apply take_app_length'.
  - replace (k * S i)%nat with (length (f a) + k * i)%nat
      by (rewrite Hk; lia).
    rewrite drop_app_add. by apply IH.
Qed.





(** ** Tiles *)

Lemma forallb_seqZ (f : Z -> bool) (m n x : Z) :
  forallb f (seqZ m n) = true -> m <= x < m + n -> f x = true.
Proof.
  intros Hf Hx. rewrite forallb_forall in Hf. apply Hf.
  apply list_elem_of_In, elem_of_seqZ. lia.
Qed.

(** The grid sizes from 1 to 64 that are powers of two. *)
Lemma pow2_cases (k : Z) :
  0 <= k <= 6 ->
  k = 0 \/ k = 1 \/ k = 2 \/ k = 3 \/ k = 4 \/ k = 5 \/ k = 6.
Proof. lia. Qed.

Lemma pow2_range (k : Z) : 0 <= k <= 6 -> 1 <= 2 ^ k <= 64.
Proof.
  intros Hk.
  destruct (pow2_cases k Hk) as [-> | [-> | [-> | [-> | [-> | [-> | ->]]]]]];
    by vm_compute.
Qed.

Lemma tiles_hold_pow2 (k : Z) : 0 <= k <= 6 -> tiles_hold (2 ^ k) = true.
Proof.
  intros Hk.
  destruct (pow2_cases k Hk) as [-> | [-> | [-> | [-> | [-> | [-> | ->]]]]]];
    vm_compute; reflexivity.
Qed.

Lemma unscaled_coords (g i : Z) (p : vec2f) :
  0 < g <= 2 ^ 24 -> 0 <= i < 2 ^ 24 ->
  unscaled (Life.uniformArray g) i p
  = Vec4 (tile_coord g (i mod g) (vx p)) (tile_coord g (i / g) (vy p))
         (F32.of_Z 0) (F32.of_Z 1).
Proof.
  intros Hg Hi. unfold unscaled, Life.uniformArray. cbn [vx vy].
  rewrite rem_int by done.
  rewrite (proj1 (floor_div_int i g Hi Hg)).
  reflexivity.
Qed.

Lemma tile_coord_inside (k g c : Z) (p : f32) :
  0 <= k <= 6 -> g = 2 ^ k -> 0 <= c < g -> p ∈ quad_coords ->
  between (tile_edge g c) (tile_coord g c p) (tile_edge g (c + 1)) = true.
Proof.
  intros Hk -> Hc Hp.
  pose proof (tiles_hold_pow2 k Hk) as Hall.
  unfold tiles_hold in Hall.
  pose proof (forallb_seqZ _ _ _ c Hall ltac:(lia)) as Hcol.
  rewrite forallb_forall in Hcol. apply Hcol. by apply list_elem_of_In.
Qed.

Lemma unscaled_inside (k g i : Z) (p : vec2f) :
  0 <= k <= 6 -> g = 2 ^ k -> 0 <= i < g * g ->
  vx p ∈ quad_coords -> vy p ∈ quad_coords ->
  inside_tile g i (unscaled (Life.uniformArray g) i p) = true.
Proof.
  intros Hk Eg Hi Hx Hy.
  assert (Hg : 1 <= g <= 64) by (rewrite Eg; by apply pow2_range).
  assert (Hc : 0 <= i mod g < g) by (apply Z.mod_pos_bound; lia).
  assert (Hr : 0 <= i / g < g).
  { split; [apply Z.div_pos; lia|]. apply Z.div_lt_upper_bound; lia. }
  rewrite unscaled_coords by (change (2 ^ 24) with 16777216; nia).
  unfold inside_tile. cbn [x4 y4].
  by rewrite !(tile_coord_inside k g).
Qed.

Lemma quad_coords_elem (c : f32) :
  c = F32.of_ratio 8 10 \/ c = F32.of_ratio (-8) 10 \/ c = F32.of_Z 0 ->
  c ∈ quad_coords.
Proof.
  unfold quad_coords. intros [-> | [-> | ->]].
  - apply list_elem_of_here.
  - apply list_elem_of_further, list_elem_of_here.
  - apply list_elem_of_further, list_elem_of_further, list_elem_of_here.
Qed.

Lemma vertex_coords (v : vec2f) :
  v ∈ Life.vertices -> vx v ∈ quad_coords /\ vy v ∈ quad_coords.
Proof.
  intros Hv. destruct (vertices_coordinates v Hv) as [Hx Hy].
  split; apply quad_coords_elem; tauto.
Qed.

(** X12. Every cell is drawn inside its own tile.  On a grid whose size
    is a power of two from 1 to 64 (the 64 of the page among them), where
    every quotient that [vertexMain] takes is exact, for every instance,
    every vertex of the quad and either state of the cell, the position
    that [vertexMain] gives lies strictly between the left and the right
    edge and strictly between the lower and the upper edge of the tile of
    that instance: the quads of two cells never touch, and none leaves the
    canvas. *)
Theorem quads_inside_tiles
    (k gridSize : Z) (cell_state : buffer) (i : Z) (v : vec2f) :
  0 <= k <= 6 ->
  gridSize = 2 ^ k ->
  0 <= i < gridSize * gridSize ->
  v ∈ Life.vertices ->
  load cell_state i = 0 \/ load cell_state i = 1 ->
  inside_tile gridSize i
    (position (Life.vertexMain (Life.uniformArray gridSize) cell_state
                 {| pos := v; instance := i |}))
  = true.
Proof.
  intros Hk Hg Hi Hv [Hdead | Halive].
  - rewrite vertexMain_dead by done. unfold tile_origin.
    apply (unscaled_inside k); try done; cbn [vx vy];
      apply quad_coords_elem; auto.
  - rewrite vertexMain_alive by done.
    destruct (vertex_coords v Hv). by apply (unscaled_inside k).
Qed.

Lemma block_lookup {A} (l : list A) (k i j : nat) :
  (j < k)%nat -> l !! (k * i + j)%nat = take k (drop (k * i) l) !! j.
Proof. intros Hj. by rewrite lookup_take_lt, lookup_drop by done. Qed.

(** X13. The single draw of [run.js] puts every quad inside its tile.
    The vertex stage of [pass.draw(6, 32 * 32)] produces, at the place
    [6 i + j] of its output, the output of [vertexMain] for the [j]-th
    vertex of the quad and the instance [i], and its position lies
    strictly inside the tile of the instance [i] of the 32 x 32 grid. *)
Theorem run_canvas_tiles (i : Z) (j : nat) :
  0 <= i < Run.GRID_SIZE * Run.GRID_SIZE ->
  (j < 6)%nat ->
  exists v,
    Run.vertices !! j = Some v
    /\ Run.canvas !! (6 * Z.to_nat i + j)%nat
       = Some (Run.vertexMain Run.uniformArray {| pos := v; instance := i |})
    /\ inside_tile Run.GRID_SIZE i
         (position (Run.vertexMain Run.uniformArray
                      {| pos := v; instance := i |}))
       = true.
Proof.
  intros Hi Hj.
  destruct (lookup_lt_is_Some_2 Run.vertices j Hj) as [v Hv].
  exists v. split; [done|]. split.
  - rewrite block_lookup by done. unfold Run.canvas.
    change (take (Z.to_nat (2 * Z.of_nat (length Run.vertices) / 2))
              Run.vertices) with Run.vertices.
    rewrite (flat_map_block
               (fun inst =>
                  map (fun v => Run.vertexMain Run.uniformArray
                                  {| pos := v; instance := inst |})
                      Run.vertices) 6 _ (Z.to_nat i) i).
    + by rewrite list_lookup_fmap, Hv.
    + intros a. by rewrite length_map.
    + rewrite lookup_seqZ_lt by lia. f_equal. lia.
  - change (position (Run.vertexMain Run.uniformArray
                        {| pos := v; instance := i |}))
      with (unscaled (Life.uniformArray Run.GRID_SIZE) i v).
    assert (Hv' : v ∈ Life.vertices) by (by apply list_elem_of_lookup_2 in Hv).
    destruct (vertex_coords v Hv').
    apply (unscaled_inside 5); (done || lia).
Qed.

(** ** Colours *)

Lemma colours_hold_pow2 (k : Z) : 0 <= k <= 6 -> colours_hold (2 ^ k) = true.
Proof.
  intros Hk.
  destruct (pow2_cases k Hk) as [-> | [-> | [-> | [-> | [-> | [-> | ->]]]]]];
    vm_compute; reflexivity.
Qed.

Lemma colours_of_column (k g c : Z) :
  0 <= k <= 6 -> g = 2 ^ k -> 0 <= c < g ->
  let r := F32.div (F32.of_Z c) (F32.of_Z g) in
  unit_interval r = true
  /\ unit_interval (F32.sub (F32.of_Z 1) r) = true
  /\ (forall c', 0 <= c' < g ->
        r = F32.div (F32.of_Z c') (F32.of_Z g) -> c = c').
Proof.
  intros Hk Eg Hc r.
  pose proof (colours_hold_pow2 k Hk) as Hall. rewrite <- Eg in Hall.
  unfold colours_hold in Hall. cbv zeta in Hall.
  rewrite forallb_forall in Hall.
  assert (Hin : forall c', 0 <= c' < g ->
            In (c', F32.div (F32.of_Z c') (F32.of_Z g))
               (map (fun c => (c, F32.div (F32.of_Z c) (F32.of_Z g)))
                    (seqZ 0 g))).
  { intros c' Hc'. apply in_map_iff. exists c'. split; [done|].
    apply list_elem_of_In, elem_of_seqZ. lia. }
  pose proof (Hall _ (Hin c Hc)) as Hcol. cbn [fst snd] in Hcol.
  apply andb_prop in Hcol as [Hcol Hpairs].
  apply andb_prop in Hcol as [Hr Hb].
  split; [done|]. split; [done|].
  intros c' Hc' E. rewrite forallb_forall in Hpairs.
  pose proof (Hpairs _ (Hin c Hc)) as Hself.
  pose proof (Hpairs _ (Hin c' Hc')) as Hother.
  cbn [fst snd] in Hself, Hother. rewrite <- E in Hother. fold r in Hself, Hother.
  rewrite Z.eqb_refl in Hself.
  apply Bool.eqb_prop in Hself, Hother. rewrite Hself in Hother.
  symmetry in Hother. by apply Z.eqb_eq in Hother.
Qed.


Lemma fragment_colour (g k : Z) (state : buffer) (q : vec2f) :
  0 < g <= 2 ^ 24 -> 0 <= k < 2 ^ 24 ->
  Life.fragmentMain (Life.uniformArray g)
    (Life.vertexMain (Life.uniformArray g) state
       {| pos := q; instance := k |})
  = cell_colour g k.
Proof.
  intros Hg Hk. unfold Life.fragmentMain.
  unfold Life.uniformArray at 2.
  rewrite (vertexMain_cell g g k) by done.
  reflexivity.
Qed.

Lemma run_fragment_colour (k : Z) (q : vec2f) :
  0 <= k < 2 ^ 24 ->
  Run.fragmentMain Run.uniformArray
    (Run.vertexMain Run.uniformArray {| pos := q; instance := k |})
  = cell_colour Run.GRID_SIZE k.
Proof.
  intros Hk.
  unfold Run.fragmentMain, Run.vertexMain, Run.uniformArray, cell_colour.
  cbn [cell instance vx vy].
  rewrite rem_int by (done || by vm_compute).
  rewrite (proj1 (floor_div_int k Run.GRID_SIZE Hk ltac:(by vm_compute))).
  reflexivity.
Qed.

Lemma cell_colour_spec (k g i i' : Z) :
  0 <= k <= 6 -> g = 2 ^ k ->
  0 <= i < g * g ->
  0 <= i' < g * g ->
  unit_interval (x4 (cell_colour g i)) = true
  /\ unit_interval (y4 (cell_colour g i)) = true
  /\ unit_interval (z4 (cell_colour g i)) = true
  /\ w4 (cell_colour g i) = F32.of_Z 1
  /\ (cell_colour g i = cell_colour g i' <-> i = i').
Proof.
  intros Hk Eg Hi Hi'.
  assert (Hg : 1 <= g <= 64) by (rewrite Eg; by apply pow2_range).
  assert (Hpos : forall j, 0 <= j < g * g ->
            0 <= j mod g < g /\ 0 <= j / g < g).
  { intros j Hj. split; [apply Z.mod_pos_bound; lia|].
    split; [apply Z.div_pos; lia|]. apply Z.div_lt_upper_bound; lia. }
  destruct (Hpos i Hi) as [Hc Hr]. destruct (Hpos i' Hi') as [Hc' Hr'].
  destruct (colours_of_column k g (i mod g) Hk Eg Hc)
    as (Hred & Hblue & Hinj).
  destruct (colours_of_column k g (i / g) Hk Eg Hr) as (Hgreen & _ & Hinj').
  unfold cell_colour. cbn [x4 y4 z4 w4].
  split; [done|]. split; [done|]. split; [done|]. split; [done|]. split.
  - intros E. injection E as E1 E2 _.
    apply Hinj in E1; [|done]. apply Hinj' in E2; [|done].
    rewrite (Z.div_mod i g), (Z.div_mod i' g) by lia.
    by rewrite E1, E2.
  - by intros ->.
Qed.

(** X14. The colour of a cell is a colour, and it tells the cells apart.
    On a grid whose size is a power of two from 1 to 64 (the 64 of the
    page among them), where every quotient that the shaders take is
    exact, for the cell that [vertexMain] passes on for an instance,
    [fragmentMain] gives red, green and blue
    in [0, 1] and alpha 1; the colour depends on the instance only, not on
    the vertex of the quad or on the state of the cell, and two instances
    of the grid get the same colour only when they are the same
    instance. *)
Theorem colours_of_the_grid
    (k gridSize : Z) (cell_state cell_state' : buffer) (i i' : Z)
    (p p' : vec2f) :
  0 <= k <= 6 ->
  gridSize = 2 ^ k ->
  0 <= i < gridSize * gridSize ->
  0 <= i' < gridSize * gridSize ->
  let grid := Life.uniformArray gridSize in
  let colour state q j :=
    Life.fragmentMain grid
      (Life.vertexMain grid state {| pos := q; instance := j |}) in
  unit_interval (x4 (colour cell_state p i)) = true
  /\ unit_interval (y4 (colour cell_state p i)) = true
  /\ unit_interval (z4 (colour cell_state p i)) = true
  /\ w4 (colour cell_state p i) = F32.of_Z 1
  /\ (colour cell_state p i = colour cell_state' p' i' <-> i = i').
Proof.
  intros Hk Eg Hi Hi'. cbv beta zeta.
  pose proof (pow2_range k Hk) as Hg. rewrite <- Eg in Hg.
  rewrite !fragment_colour by (change (2 ^ 24) with 16777216; nia).
  by apply (cell_colour_spec k).
Qed.

(** X15. The colours of [run.js].  For every instance of the 32 x 32 grid
    of the static page, the colour that its [fragmentMain] gives the cell
    that its [vertexMain] passes on has red, green and blue in [0, 1] and
    alpha 1, is the same for every vertex of the quad, and differs from
    the colour of every other instance. *)
Theorem run_colours (i i' : Z) (p p' : vec2f) :
  0 <= i < Run.GRID_SIZE * Run.GRID_SIZE ->
  0 <= i' < Run.GRID_SIZE * Run.GRID_SIZE ->
  let colour q k :=
    Run.fragmentMain Run.uniformArray
      (Run.vertexMain Run.uniformArray {| pos := q; instance := k |}) in
  unit_interval (x4 (colour p i)) = true
  /\ unit_interval (y4 (colour p i)) = true
  /\ unit_interval (z4 (colour p i)) = true
  /\ w4 (colour p i) = F32.of_Z 1
  /\ (colour p i = colour p' i' <-> i = i').
Proof.
  intros Hi Hi'. cbv beta zeta.
  assert (Hg : Run.GRID_SIZE = 32) by reflexivity.
  rewrite !run_fragment_colour by (change (2 ^ 24) with 16777216; lia).
  apply (cell_colour_spec 5); (done || lia).
Qed.

(** * The glider on the page *)

(** ** Patterns *)

Lemma alive_among_indices (W H : Z) (cells : list (Z * Z)) (i : Z) :
  alive_among (pattern_indices W H cells) i
  = if existsb (fun c => torus_index W H (fst c) (snd c) =? i) cells
    then 1 else 0.
Proof.
  unfold alive_among, pattern_indices.
  assert (E : existsb (Z.eqb i)
                (map (fun c => torus_index W H (fst c) (snd c)) cells)
              = existsb (fun c => torus_index W H (fst c) (snd c) =? i) cells).
  { induction cells as [|c cells IH]; [done|].
    cbn [map existsb]. by rewrite IH, Z.eqb_sym. }
  by rewrite E.
Qed.

Section Patterns.

Variables W H : Z.
Hypothesis W_positive : 0 < W.
Hypothesis H_positive : 0 < H.

Lemma load_cells_buffer (cells : list (Z * Z)) (i : Z) :
  0 <= i < W * H ->
  load (cells_buffer W H cells) i
  = alive_among (pattern_indices W H cells) i.
Proof.
  intros Hi. unfold cells_buffer.
  by rewrite load_map_seqZ, alive_among_indices.
Qed.

Lemma cells_buffer_cell_states (cells : list (Z * Z)) :
  cell_states (cells_buffer W H cells).
Proof.
  unfold cells_buffer, cell_states. apply Forall_fmap, Forall_forall.
  intros i _. cbn. destruct (existsb _ _); auto.
Qed.

Lemma generation_of_spec (cells cells' : list (Z * Z)) :
  generation_of W H cells cells' = true ->
  life_step W H (cells_buffer W H cells) = cells_buffer W H cells'.
Proof.
  intros Hgen. unfold life_step. unfold cells_buffer at 3.
  apply map_ext_in. intros i Hi.
  unfold generation_of in Hgen. cbv zeta in Hgen.
  rewrite forallb_forall in Hgen.
  specialize (Hgen i Hi). apply Z.eqb_eq in Hgen.
  apply list_elem_of_In, elem_of_seqZ in Hi.
  rewrite <- alive_among_indices, <- Hgen.
  rewrite load_cells_buffer by lia. f_equal.
  unfold torus_sum. f_equal. apply map_ext_in. intros j Hj.
  apply load_cells_buffer.
  unfold torus_neighbors in Hj. apply in_map_iff in Hj as (d & <- & _).
  by apply torus_index_range.
Qed.

Lemma torus_index_inj (a b a' b' : Z) :
  torus_index W H a b = torus_index W H a' b'
  <-> a mod W = a' mod W /\ b mod H = b' mod H.
Proof.
  unfold torus_index.
  pose proof (Z.mod_pos_bound a W W_positive).
  pose proof (Z.mod_pos_bound a' W W_positive).
  pose proof (Z.mod_pos_bound b H H_positive).
  pose proof (Z.mod_pos_bound b' H H_positive).
  split.
  - intros E. assert (b mod H = b' mod H) by nia. split; [nia | done].
  - by intros [-> ->].
Qed.

Lemma mod_moved (n a d x : Z) :
  (a + d) mod n = x mod n <-> a mod n = (x - d) mod n.
Proof.
  split; intros E.
  - rewrite <- (Zminus_mod_idemp_l x d n), <- E, Zminus_mod_idemp_l.
    f_equal. lia.
  - rewrite <- (Zplus_mod_idemp_l a d n), E, Zplus_mod_idemp_l.
    f_equal. lia.
Qed.

Lemma cells_translate (dx dy : Z) (cells : list (Z * Z)) (x y : Z) :
  existsb (fun c => torus_index W H (fst c) (snd c) =? torus_index W H x y)
          (translate dx dy cells)
  = existsb (fun c => torus_index W H (fst c) (snd c)
                      =? torus_index W H (x - dx) (y - dy))
            cells.
Proof.
  unfold translate.
  induction cells as [|c cells IH]; [done|].
  cbn [map existsb fst snd]. rewrite IH. f_equal.
  apply eq_true_iff_eq. rewrite !Z.eqb_eq, !torus_index_inj.
  by rewrite !mod_moved.
Qed.

Lemma cells_buffer_translate (dx dy : Z) (cells : list (Z * Z)) :
  cells_buffer W H (translate dx dy cells)
  = shift W H dx dy (cells_buffer W H cells).
Proof.
  unfold shift. unfold cells_buffer at 1.
  apply map_ext_in. intros i Hi.
  apply list_elem_of_In, elem_of_seqZ in Hi.
  rewrite load_cells_buffer by (by apply torus_index_range).
  rewrite alive_among_indices, <- cells_translate.
  assert (E : torus_index W H (i mod W) (i / W) = i).
  { unfold torus_index.
    assert (0 <= i / W < H).
    { split; [apply Z.div_pos; lia|]. apply Z.div_lt_upper_bound; lia. }
    rewrite Z.mod_mod, (Z.mod_small (i / W)) by (done || lia).
    pose proof (Z.div_mod i W ltac:(lia)). lia. }
  by rewrite E.
Qed.

Lemma life_step_cell_states (b : buffer) :
  cell_states b -> cell_states (life_step W H b).
Proof.
  intros Hb. unfold life_step, cell_states. apply Forall_fmap, Forall_forall.
  intros j _. cbn. unfold life_rule.
  destruct (_ =? 2); [by apply load_bit|].
  destruct (_ =? 3); [by right | by left].
Qed.

Lemma iter_life_step_shift (n : nat) (dx dy : Z) (b : buffer) :
  Nat.iter n (life_step W H) (shift W H dx dy b)
  = shift W H dx dy (Nat.iter n (life_step W H) b).
Proof.
  induction n as [|n IH]; [done|].
  rewrite !Nat.iter_succ, IH. by apply life_step_shift.
Qed.

End Patterns.

Lemma translate_glider (dx dy : Z) :
  translate dx dy (translate 1 1 glider) = translate (dx + 1) (dy + 1) glider.
Proof.
  unfold translate, glider. cbn [map fst snd].
  repeat (f_equal; try lia).
Qed.

Lemma glider_cycle_64 :
  generation_of 64 64 glider glider_1 = true
  /\ generation_of 64 64 glider_1 glider_2 = true
  /\ generation_of 64 64 glider_2 glider_3 = true
  /\ generation_of 64 64 glider_3 (translate 1 1 glider) = true.
Proof. split; [|split; [|split]]; vm_compute; reflexivity. Qed.

Lemma iter_O {A} (f : A -> A) (x : A) : Nat.iter 0 f x = x.
Proof. reflexivity. Qed.

Lemma glider_64 :
  Nat.iter 4 (life_step 64 64) (cells_buffer 64 64 glider)
  = cells_buffer 64 64 (translate 1 1 glider).
Proof.
  destruct glider_cycle_64 as (H1 & H2 & H3 & H4).
  rewrite !Nat.iter_succ, iter_O.
  rewrite (generation_of_spec 64 64 ltac:(lia) ltac:(lia) _ _ H1).
  rewrite (generation_of_spec 64 64 ltac:(lia) ltac:(lia) _ _ H2).
  rewrite (generation_of_spec 64 64 ltac:(lia) ltac:(lia) _ _ H3).
  exact (generation_of_spec 64 64 ltac:(lia) ltac:(lia) _ _ H4).
Qed.

Lemma iter_life_step_cell_states (W H : Z) (n : nat) (b : buffer) :
  cell_states b -> cell_states (Nat.iter n (life_step W H) b).
Proof.
  intros Hb. induction n as [|n IH]; [by rewrite iter_O|].
  rewrite Nat.iter_succ. by apply life_step_cell_states.
Qed.

(** The ticks from any state of the page whose buffers have one state
    per cell, the one that is read next holding cell states. *)
Lemma ticks_from
    (gridSize : Z) (schedule : list (list vec3u)) (st : Life.state) :
  0 < gridSize ->
  (gridSize | U32.modulus) ->
  gridSize * gridSize <= U32.modulus ->
  0 <= Life.step st ->
  length (Life.storage (Life.device st)) = 2%nat ->
  Forall (fun b => length b = Z.to_nat (gridSize * gridSize))
         (Life.storage (Life.device st)) ->
  cell_states (Life.buffer_at (Life.storage (Life.device st))
                 (Z.to_nat (Life.step st mod 2))) ->
  Forall (Life.dispatch_order gridSize) schedule ->
  let st' := foldl (fun st ids => Life.render gridSize ids st) st schedule in
  Life.step st' = Life.step st + Z.of_nat (length schedule)
  /\ Life.buffer_at (Life.storage (Life.device st'))
       (Z.to_nat (Life.step st' mod 2))
     = Nat.iter (length schedule) (life_step gridSize gridSize)
         (Life.buffer_at (Life.storage (Life.device st))
            (Z.to_nat (Life.step st mod 2))).
Proof.
  intros Hg Hdiv Hfit Hs Hlen Hsize Hcells Hsched. cbv zeta.
  split; [apply step_foldl_render|].
  destruct (page_grid gridSize Hg Hfit) as (EW & EH & Hwc).
  induction schedule as [|ids schedule IH] using rev_ind.
  - cbn [foldl length]. by rewrite iter_O.
  - apply Forall_app in Hsched as [Hsched Hids].
    apply Forall_cons in Hids as [Hids _].
    specialize (IH Hsched).
    destruct (storage_invariant
                (fun b => length b = Z.to_nat (gridSize * gridSize))
                gridSize schedule st) as [Hlen1 Hsize1]; try done.
    { intros cellStateIn order cellStateOut _ Hout.
      by rewrite length_run_invocations. }
    rewrite foldl_snoc, render_step, length_app, Nat.add_comm.
    cbn [length Nat.add]. rewrite Nat.iter_succ, <- IH.
    set (st1 := foldl (fun st ids => Life.render gridSize ids st) st schedule)
      in *.
    assert (Hs1 : 0 <= Life.step st1).
    { unfold st1. rewrite step_foldl_render. lia. }
    assert (Hcells1 : cell_states
                        (Life.buffer_at (Life.storage (Life.device st1))
                           (Z.to_nat (Life.step st1 mod 2)))).
    { rewrite IH. by apply iter_life_step_cell_states. }
    rewrite tick_storage by done.
    assert (Hnext : (Z.to_nat ((Life.step st1 + 1) mod 2) < 2)%nat).
    { destruct (parity_cases _ Hs1) as [[_ ->] | [_ ->]]; lia. }
    rewrite buffer_at_insert_eq by lia.
    pose proof (buffer_at_Forall _ _ _ Hsize1
                  ltac:(rewrite Hlen1; exact Hnext)) as Hout.
    pose proof (dispatch_conway (Life.uniformArray gridSize)) as Hconway.
    rewrite EW, EH in Hconway.
    by apply (Hconway _ (Life.workgroupCount gridSize)
                (Life.workgroupCount gridSize)).
Qed.

Lemma length_cells_buffer (W H : Z) (cells : list (Z * Z)) :
  length (cells_buffer W H cells) = Z.to_nat (W * H).
Proof. unfold cells_buffer. by rewrite length_map, length_seqZ. Qed.

(** X16. The glider crosses the page.  On the 64 x 64 grid of the page, a
    glider placed at any offset [(dx, dy)], also one that lies across the
    edges of the grid, is after four ticks the same glider one cell
    further along the diagonal, at [(dx + 1, dy + 1)]: in whatever order
    the device runs the invocations of each of the four dispatches, and
    whatever the second buffer held at the start. *)
Theorem glider_on_the_page
    (dx dy : Z) (s1 s2 s3 s4 : list vec3u) (B : buffer)
    (calls : nat) (canvas0 : list VertexOutput) :
  Life.dispatch_order Life.GRID_SIZE s1 ->
  Life.dispatch_order Life.GRID_SIZE s2 ->
  Life.dispatch_order Life.GRID_SIZE s3 ->
  Life.dispatch_order Life.GRID_SIZE s4 ->
  length B = Z.to_nat (Life.GRID_SIZE * Life.GRID_SIZE) ->
  let pattern cells := cells_buffer Life.GRID_SIZE Life.GRID_SIZE cells in
  let st0 :=
    {| Life.random_calls := calls;
       Life.step := 0;
       Life.device :=
         {| Life.storage := [pattern (translate dx dy glider); B];
            Life.canvas := canvas0 |} |} in
  let st4 :=
    foldl (fun st ids => Life.render Life.GRID_SIZE ids st) st0
          [s1; s2; s3; s4] in
  Life.step st4 = 4
  /\ Life.buffer_at (Life.storage (Life.device st4))
       (Z.to_nat (Life.step st4 mod 2))
     = pattern (translate (dx + 1) (dy + 1) glider).
Proof.
  intros H1 H2 H3 H4 HB pattern st0 st4.
  destruct (ticks_from Life.GRID_SIZE [s1; s2; s3; s4] st0)
    as [Hstep Hcur].
  - done.
  - by exists 67108864.
  - by vm_compute.
  - done.
  - done.
  - repeat apply Forall_cons_2; [apply length_cells_buffer | done
                                | apply Forall_nil_2].
  - apply cells_buffer_cell_states.
  - repeat apply Forall_cons_2; (done || apply Forall_nil_2).
  - fold st4 in Hstep, Hcur. split; [exact Hstep|].
    rewrite Hcur. unfold st0. cbn [Life.step Life.device Life.storage length].
    change (Z.to_nat (0 mod 2)) with 0%nat. rewrite buffer_at_0.
    unfold pattern. change Life.GRID_SIZE with 64.
    rewrite (cells_buffer_translate 64 64 ltac:(lia) ltac:(lia) dx dy).
    rewrite (iter_life_step_shift 64 64 ltac:(lia) ltac:(lia)).
    rewrite glider_64.
    rewrite <- (cells_buffer_translate 64 64 ltac:(lia) ltac:(lia)).
    by rewrite translate_glider.
Qed.


(** * The further theorems, on the grids of the pages *)

(** An invocation of the page's 64 x 64 grid. *)
Lemma computeMain_in_bounds_witness :
  let grid := Life.uniformArray Life.GRID_SIZE in
  let out :=
    Life.computeMain grid (replicate 4096 1) (Vec3 3 5 0) (replicate 4096 0) in
  0 <= Life.cellIndex grid (xy (Vec3 3 5 0)) < width grid * height grid
  /\ length out = length (replicate 4096 0).
Proof.
  intros grid out.
  destruct (computeMain_in_bounds grid (replicate 4096 1) (replicate 4096 0)
              (Vec3 3 5 0)) as (_ & E & E' & _);
    [by vm_compute | by vm_compute | by vm_compute |].
  split; [exact E | exact E'].
Defined.

(** The grid size of the page. *)
Lemma grid_uniform_round_trip_witness :
  width (Life.uniformArray Life.GRID_SIZE) = Life.GRID_SIZE
  /\ height (Life.uniformArray Life.GRID_SIZE) = Life.GRID_SIZE.
Proof.
  destruct (grid_uniform_round_trip Life.GRID_SIZE) as (E & E' & _);
    [by vm_compute|].
  split; [exact E | exact E'].
Defined.

(** The 8 x 8 workgroups of the page, row by row. *)
Lemma dispatch_covers_grid_witness :
  NoDup (Life.invocation_ids Life.WORKGROUP_SIZE 8 8).
Proof.
  destruct (dispatch_covers_grid Life.GRID_SIZE
              (Life.invocation_ids Life.WORKGROUP_SIZE 8 8)) as (E & _);
    [by vm_compute | by vm_compute | apply Permutation_refl |].
  exact E.
Defined.

(** The dispatch of the page forwards and backwards, into different
    buffers. *)
Lemma dispatch_order_independent_witness :
  let grid := Life.uniformArray Life.GRID_SIZE in
  let ids := Life.invocation_ids Life.WORKGROUP_SIZE 8 8 in
  Life.run_invocations grid (replicate 4096 1) ids (replicate 4096 0)
  = Life.run_invocations grid (replicate 4096 1) (rev ids) (replicate 4096 1).
Proof.
  intros grid ids.
  destruct (dispatch_order_independent grid (replicate 4096 1) 8 8
              ids (rev ids) (replicate 4096 0) (replicate 4096 1))
    as [E _];
    [ reflexivity | reflexivity | by vm_compute | apply Permutation_refl
    | symmetry; apply Permutation_rev | reflexivity | reflexivity |].
  exact E.
Defined.

(** A generation of the page's grid with every cell alive. *)
Lemma simulation_is_conway_witness :
  let grid := Life.uniformArray Life.GRID_SIZE in
  let ids := Life.invocation_ids Life.WORKGROUP_SIZE 8 8 in
  Life.run_invocations grid (replicate 4096 1) ids (replicate 4096 0)
  = life_step (width grid) (height grid) (replicate 4096 1).
Proof.
  intros grid ids.
  destruct (simulation_is_conway grid (replicate 4096 1) 8 8 ids
              (replicate 4096 0)) as [E _];
    [ by exists 67108864 | by exists 67108864 | by vm_compute
    | apply Forall_replicate; by right | by vm_compute | by vm_compute
    | apply Permutation_refl | reflexivity |].
  exact E.
Defined.

(** Two ticks of the page after draws that are all 0. *)
Lemma dead_stays_dead_witness :
  let random (k : nat) := F64.of_Z 0 in
  Life.storage (Life.device (Life.run 64 random [[]; [Vec3 0 0 0]]))
  = [ Life.zeroed (64 * 64); Life.zeroed (64 * 64) ].
Proof.
  intros random.
  apply (dead_stays_dead 64 random [[]; [Vec3 0 0 0]]).
  intros k _. reflexivity.
Defined.

(** The first tick of the page after draws that are all 1. *)
Lemma all_alive_dies_witness :
  let random (k : nat) := F64.of_Z 1 in
  let ids := Life.invocation_ids Life.WORKGROUP_SIZE 8 8 in
  Life.storage (Life.device (Life.run 64 random [ids]))
  = [ replicate 4096 1; replicate 4096 0 ].
Proof.
  intros random ids.
  destruct (all_alive_dies 64 random ids ids []) as (_ & E & _);
    [ lia | by vm_compute | intros k _; reflexivity
    | apply Permutation_refl | apply Permutation_refl |].
  exact E.
Defined.

(** Two ticks of the page, the second dispatch in reverse order. *)
Lemma ticks_are_generations_witness :
  let random (k : nat) := F64.of_Z 1 in
  let ids := Life.invocation_ids Life.WORKGROUP_SIZE 8 8 in
  let st := Life.run 64 random [ids; rev ids] in
  Life.step st = 2.
Proof.
  intros random ids st.
  destruct (ticks_are_generations 64 random [ids; rev ids]) as [E _];
    [ lia | by exists 67108864 | by vm_compute
    | repeat apply Forall_cons_2;
        [ apply Permutation_refl
        | unfold Life.dispatch_order; symmetry; apply Permutation_rev
        | apply Forall_nil_2 ]
    |].
  exact E.
Defined.


(** The first vertex of the first cell of the page, alive. *)
Lemma quads_inside_tiles_witness :
  let v := Vec2 (F32.of_f64 (F64.of_ratio (-8) 10))
                (F32.of_f64 (F64.of_ratio (-8) 10)) in
  inside_tile 64 0
    (position (Life.vertexMain (Life.uniformArray 64) [1]
                 {| pos := v; instance := 0 |}))
  = true.
Proof.
  intros v.
  apply (quads_inside_tiles 6 64 [1] 0 v);
    [ lia | reflexivity | lia | apply list_elem_of_here
    | right; reflexivity ].
Defined.

(** The first output of the draw of [run.js]. *)
Lemma run_canvas_tiles_witness :
  exists v,
    Run.vertices !! 0%nat = Some v
    /\ Run.canvas !! (6 * Z.to_nat 0 + 0)%nat
       = Some (Run.vertexMain Run.uniformArray {| pos := v; instance := 0 |})
    /\ inside_tile Run.GRID_SIZE 0
         (position (Run.vertexMain Run.uniformArray
                      {| pos := v; instance := 0 |}))
       = true.
Proof.
  apply (run_canvas_tiles 0 0); [by vm_compute | lia].
Defined.

(** Two cells of the page. *)
Lemma colours_of_the_grid_witness :
  let grid := Life.uniformArray 64 in
  let colour k :=
    Life.fragmentMain grid
      (Life.vertexMain grid [] {| pos := Vec2 (F32.of_Z 0) (F32.of_Z 0);
                                  instance := k |}) in
  colour 5 = colour 70 <-> 5 = 70.
Proof.
  intros grid colour.
  destruct (colours_of_the_grid 6 64 [] [] 5 70
              (Vec2 (F32.of_Z 0) (F32.of_Z 0))
              (Vec2 (F32.of_Z 0) (F32.of_Z 0))) as (_ & _ & _ & _ & E);
    [lia | reflexivity | lia | lia |].
  exact E.
Defined.

(** The page's grid, all alive, moved by (3, -2). *)
Lemma simulation_translates_witness :
  let grid := Life.uniformArray Life.GRID_SIZE in
  let ids := Life.invocation_ids Life.WORKGROUP_SIZE 8 8 in
  let moved := shift (width grid) (height grid) 3 (-2) in
  Life.run_invocations grid (moved (replicate 4096 1)) ids (replicate 4096 0)
  = moved (Life.run_invocations grid (replicate 4096 1) ids (replicate 4096 0)).
Proof.
  intros grid ids moved.
  apply (simulation_translates grid (replicate 4096 1) 8 8 3 (-2) ids ids
           (replicate 4096 0) (replicate 4096 0));
    [ by exists 67108864 | by exists 67108864 | by vm_compute
    | apply Forall_replicate; by right | by vm_compute | by vm_compute
    | apply Permutation_refl | apply Permutation_refl
    | reflexivity | reflexivity ].
Defined.

(** Two cells of the grid of [run.js]. *)
Lemma run_colours_witness :
  let colour k :=
    Run.fragmentMain Run.uniformArray
      (Run.vertexMain Run.uniformArray
         {| pos := Vec2 (F32.of_Z 0) (F32.of_Z 0); instance := k |}) in
  colour 5 = colour 37 <-> 5 = 37.
Proof.
  intros colour.
  destruct (run_colours 5 37 (Vec2 (F32.of_Z 0) (F32.of_Z 0))
              (Vec2 (F32.of_Z 0) (F32.of_Z 0))) as (_ & _ & _ & _ & E);
    [by vm_compute | by vm_compute |].
  exact E.
Defined.

(** The glider at the far corner of the page, where it crosses both
    edges. *)
Lemma glider_on_the_page_witness :
  let ids := Life.invocation_ids Life.WORKGROUP_SIZE 8 8 in
  let pattern cells := cells_buffer Life.GRID_SIZE Life.GRID_SIZE cells in
  let st0 :=
    {| Life.random_calls := 4096;
       Life.step := 0;
       Life.device :=
         {| Life.storage := [pattern (translate 62 62 glider);
                             replicate 4096 1];
            Life.canvas := [] |} |} in
  let st4 :=
    foldl (fun st ids => Life.render Life.GRID_SIZE ids st) st0
          [ids; ids; ids; ids] in
  Life.step st4 = 4
  /\ Life.buffer_at (Life.storage (Life.device st4))
       (Z.to_nat (Life.step st4 mod 2))
     = pattern (translate (62 + 1) (62 + 1) glider).
Proof.
  intros ids.
  apply (glider_on_the_page 62 62 ids ids ids ids (replicate 4096 1) 4096 []);
    [ apply Permutation_refl | apply Permutation_refl
    | apply Permutation_refl | apply Permutation_refl | reflexivity ].
Defined.

(** The rule table on the 64 x 64 grid of the page, all cells alive. *)
Lemma simulation_step_rule_witness :
  let grid := Life.uniformArray Life.GRID_SIZE in
  let cellStateIn := replicate 4096 1 in
  let ids := Life.invocation_ids Life.WORKGROUP_SIZE 8 8 in
  let i := 5 * width grid + 3 in
  let sum := u32_sum (width grid) (height grid) cellStateIn 3 5 in
  load (Life.run_invocations grid cellStateIn ids (replicate 4096 0)) i
  = if sum =? 2 then load cellStateIn i else if sum =? 3 then 1 else 0.
Proof.
  intros grid cellStateIn ids.
  destruct (simulation_step_rule grid cellStateIn (replicate 4096 0) 8 8 ids
              3 5) as (_ & E & _);
    [ by vm_compute | by vm_compute | by vm_compute
    | left; reflexivity | left; reflexivity | reflexivity
    | apply Permutation_refl | by vm_compute | by vm_compute |].
  exact E.
Defined.

(** On a 5 x 5 grid, with the cell at (0, 0) alone alive, the invocation of
    that cell counts three neighbours and stores 1; the invocations
    (5, 0), (0, 5) and (5, 5) of the same dispatch store to the same
    index and count otherwise.  Run row by row the dispatch leaves 0 in
    the cell, run in the reverse order it leaves 1. *)
Lemma simulation_step_rule_fails_5x5 :
  let grid := Life.uniformArray 5 in
  let cellStateIn := 1 :: replicate 24 0 in
  let ids := Life.invocation_ids Life.WORKGROUP_SIZE 1 1 in
  let out := replicate 25 0 in
  Permutation (rev ids) ids
  /\ width grid = 5 /\ height grid = 5
  /\ Life.activeNeighbors grid cellStateIn (Vec3 0 0 0) = 3
  /\ torus_sum 5 5 cellStateIn 0 0 = 0
  /\ load (Life.run_invocations grid cellStateIn ids out) 0 = 0
  /\ load (Life.run_invocations grid cellStateIn (rev ids) out) 0 = 1
  /\ load (Life.run_invocations grid cellStateIn ids out) 0
     <> load (Life.run_invocations grid cellStateIn (rev ids) out) 0.
Proof.
  intros grid cellStateIn ids out.
  split; [apply Permutation_sym, Permutation_rev|]. by vm_compute.
Qed.

(** The glider at offset (1, 1), the device running every dispatch row by
    row. *)
Lemma glider_5x5_witness :
  let ids := Life.invocation_ids Life.WORKGROUP_SIZE 1 1 in
  let st4 := glider_run 1 1 ids ids ids ids (replicate 25 0) 25 [] in
  Life.step st4 = 4
  /\ Life.buffer_at (Life.storage (Life.device st4))
       (Z.to_nat (Life.step st4 mod 2))
     = cells_buffer 5 5 (translate (1 + 1) (1 + 1) glider).
Proof.
  intros ids.
  apply (proj2 (glider_5x5 1 1 ltac:(lia) ltac:(lia)) (conj eq_refl eq_refl));
    (apply Permutation_refl || reflexivity).
Defined.
